(** * scrabbl-ai.cpp: a shallow embedding of the move generator and scorer

    The development follows the C++ source function by function.  [int]
    values are integers of [Z] (the searches and the scorer never come near
    the range of a 32-bit [int]; signed overflow is undefined in C++ and is
    not modelled), [char] is [ascii], [string] is [string], a [vector] is a
    [list] read and written by index.  A read outside a vector is undefined
    behaviour in C++; here it yields the sentinel square (type [outside],
    letter '.'), which is what the border of a well formed board holds. *)

From Stdlib Require Import ZArith Lia Bool Ascii String.
From stdpp Require Import base option list list_numbers.

Local Open Scope Z_scope.

(** ** Characters *)

Definition code (ch : ascii) : Z := Z.of_N (N_of_ascii ch).
Definition char_of (z : Z) : ascii := ascii_of_N (Z.to_N z).

Definition isupper (ch : ascii) : bool := (65 <=? code ch) && (code ch <=? 90).
Definition islower (ch : ascii) : bool := (97 <=? code ch) && (code ch <=? 122).
Definition toupper (ch : ascii) : ascii :=
  if islower ch then char_of (code ch - 32) else ch.
Definition tolower (ch : ascii) : ascii :=
  if isupper ch then char_of (code ch + 32) else ch.

(** [ch - 'A'] *)
Definition letter_index (ch : ascii) : Z := code ch - 65.

Definition dot : ascii := "."%char.
Definition is_dot (ch : ascii) : bool := Ascii.eqb ch dot.

(** ** Constants *)

Definition NUM_BOARD_ROWS : Z := 15.
Definition NUM_BOARD_COLS : Z := 15.
Definition NUM_RACK_TILES : Z := 7.

(** ** Data model *)

Inductive SquareType : Set :=
  | triple_word
  | double_word
  | triple_letter
  | double_letter
  | regular
  | outside.

Definition SquareType_eqb (a b : SquareType) : bool :=
  match a, b with
  | triple_word, triple_word | double_word, double_word
  | triple_letter, triple_letter | double_letter, double_letter
  | regular, regular | outside, outside => true
  | _, _ => false
  end.

Record Square : Set := mkSquare {
  type : SquareType;
  down_cross_check : list bool;
  letter : ascii;
  row : Z;
  col : Z;
  min_across_word_length : Z
}.

Record Tile : Set := mkTile {
  tile_letter : ascii;
  points : Z;
  total : Z
}.

#[local] Set Warnings "-register-all".
Inductive TrieNode : Set :=
  mkTrieNode {
    node_letter : ascii;
    is_terminal_node : bool;
    children : list TrieNode;
    letter_indexes : list Z
  }.

Abbreviation SquareRow := (list Square) (only parsing).
Abbreviation SquareGrid := (list (list Square)) (only parsing).
(** The keys of the [unordered_map], in the order in which the map iterates
    over them; every mapped value is 1 and is never read. *)
Abbreviation Lexicon := (list string) (only parsing).

(** ** Vectors read and written by an [int] index *)

Definition vec_at {A} (d : A) (v : list A) (i : Z) : A :=
  if i <? 0 then d else default d (v !! Z.to_nat i).

Definition vec_alter {A} (f : A -> A) (v : list A) (i : Z) : list A :=
  if i <? 0 then v else alter f (Z.to_nat i) v.

Definition vec_set {A} (v : list A) (i : Z) (x : A) : list A :=
  vec_alter (fun _ => x) v i.

(** What a read outside the vectors yields: a square of the border, whose
    own coordinates lie outside too. *)
Definition sentinel : Square :=
  mkSquare outside [] dot (-1) (-1) (-1).

(** [board[r][c]] *)
Definition board_at (board : SquareGrid) (r c : Z) : Square :=
  vec_at sentinel (vec_at [] board r) c.

(** [board[r][c] = f (board[r][c])] *)
Definition board_alter (f : Square -> Square) (board : SquareGrid) (r c : Z)
  : SquareGrid :=
  vec_alter (fun rw => vec_alter f rw c) board r.

Definition set_letter (x : ascii) (s : Square) : Square :=
  mkSquare (type s) (down_cross_check s) x (row s) (col s)
           (min_across_word_length s).
Definition set_down_cross_check (cc : list bool) (s : Square) : Square :=
  mkSquare (type s) cc (letter s) (row s) (col s) (min_across_word_length s).
Definition set_min_across_word_length (m : Z) (s : Square) : Square :=
  mkSquare (type s) (down_cross_check s) (letter s) (row s) (col s) m.
Definition set_row_col (r c : Z) (s : Square) : Square :=
  mkSquare (type s) (down_cross_check s) (letter s) r c
           (min_across_word_length s).

(** The test of every scan over tiles:
    [sq.letter != '.' && sq.type != outside]. *)
Definition holds_tile (s : Square) : bool :=
  negb (is_dot (letter s)) && negb (SquareType_eqb (type s) outside).

Definition all_valid : list bool := replicate 26 true.
Definition all_invalid : list bool := replicate 26 false.

(** The process-wide data read from files at start-up, [global_words] and
    [global_tiles]. [add_sqr_to_move] leaves two fields of the square it
    pushes without a value; [indeterminate_type] and [indeterminate_int]
    stand for whatever those fields hold. *)
Class Globals : Set := mkGlobals {
  global_words : Lexicon;
  global_tiles : list Tile;
  indeterminate_type : SquareType;
  indeterminate_int : Z
}.

Section Scrabble.

Context {G : Globals}.

(** [global_words.find(w) != global_words.end()] *)
Definition word_found (w : string) : bool :=
  existsb (String.eqb w) global_words.

(** ** update_down_cross_checks *)

(** The letters above [board[row][col]], read upwards from row [n - 1] while
    the squares hold tiles; each is put in front of what was read. Row -1
    is outside the vector, where the walk ends. *)
Fixpoint above_fragment (board : SquareGrid) (c : Z) (n : nat)
  (above_square : string) : string :=
  match n with
  | O => above_square
  | S k =>
      let sq := board_at board (Z.of_nat k) c in
      if holds_tile sq
      then above_fragment board c k (String (toupper (letter sq)) above_square)
      else above_square
  end.

(** The letters below, read downwards from [check_row]; [n] counts the rows
    from [check_row] to the last row of the vector. *)
Fixpoint below_fragment (board : SquareGrid) (c : Z) (n : nat)
  (check_row : Z) (below_square : string) : string :=
  match n with
  | O => below_square
  | S k =>
      let sq := board_at board check_row c in
      if holds_tile sq
      then below_fragment board c k (check_row + 1)
             (below_square ++ String (toupper (letter sq)) EmptyString)%string
      else below_square
  end.

Definition rows_from (board : SquareGrid) (r : Z) : nat :=
  (length board - Z.to_nat r)%nat.

Definition above_of (board : SquareGrid) (r c : Z) : string :=
  above_fragment board c (Z.to_nat r) EmptyString.
Definition below_of (board : SquareGrid) (r c : Z) : string :=
  below_fragment board c (rows_from board (r + 1)) (r + 1) EmptyString.

Definition test_word (above_square : string) (test_letter : Z)
  (below_square : string) : string :=
  (above_square ++ String (char_of test_letter) below_square)%string.

(** The loop over [test_letter] from 'A' to 'Z'. *)
Definition check_letters (above_square below_square : string)
  (cc : list bool) : list bool :=
  fold_left
    (fun cc test_letter =>
       vec_set cc (test_letter - 65)
         (word_found (test_word above_square test_letter below_square)))
    (seqZ 65 26) cc.

Definition is_empty_string (s : string) : bool :=
  match s with EmptyString => true | _ => false end.

Definition update_square_cross_check (board : SquareGrid) (r c : Z)
  : SquareGrid :=
  if is_dot (letter (board_at board r c)) then
    let above_square := above_of board r c in
    let below_square := below_of board r c in
    if is_empty_string above_square && is_empty_string below_square
    then board
    else board_alter
           (fun sq => set_down_cross_check
                        (check_letters above_square below_square
                           (down_cross_check sq)) sq)
           board r c
  else board.

Definition update_down_cross_checks (board : SquareGrid) : SquareGrid :=
  fold_left
    (fun board r =>
       fold_left (fun board c => update_square_cross_check board r c)
                 (seqZ 1 NUM_BOARD_COLS) board)
    (seqZ 1 NUM_BOARD_ROWS) board.

(** ** update_min_across_word_length *)

Definition occupied (board : SquareGrid) (r c : Z) : bool :=
  negb (is_dot (letter (board_at board r c))).

(** One pass of the inner loop body; the state is the board and the local
    [min_word_length]. *)
Definition min_length_step (r : Z) (st : SquareGrid * Z) (c : Z)
  : SquareGrid * Z :=
  let '(board, min_word_length) := st in
  if occupied board r (c - 1) then
    (board_alter (set_min_across_word_length (-1)) board r c, min_word_length)
  else if occupied board (r - 1) c || occupied board (r + 1) c
          || occupied board r (c + 1) || occupied board r c then
    (board_alter (set_min_across_word_length 1) board r c, 1)
  else if min_word_length =? -1 then
    (board_alter (set_min_across_word_length (-1)) board r c, min_word_length)
  else
    (board_alter (set_min_across_word_length (min_word_length + 1)) board r c,
     min_word_length + 1).

(** The columns of a row, from [NUM_BOARD_COLS] down to 1. *)
Definition cols_right_to_left : list Z := reverse (seqZ 1 NUM_BOARD_COLS).

Definition update_min_row (board : SquareGrid) (r : Z) : SquareGrid :=
  fst (fold_left (min_length_step r) cols_right_to_left (board, -1)).

Definition update_min_across_word_length (board : SquareGrid) : SquareGrid :=
  fold_left update_min_row (seqZ 1 NUM_BOARD_ROWS) board.

(** ** The trie *)

Definition no_indexes : list Z := replicate 26 (-1).

(** [new TrieNode] with its letter set and [is_terminal_node = false]. *)
Definition new_node (ch : ascii) : TrieNode := mkTrieNode ch false [] no_indexes.

(** [node->children[i]]; the fallback is for an index outside the vector. *)
Definition child_at (node : TrieNode) (i : Z) : TrieNode :=
  vec_at (new_node "*"%char) (children node) i.

(** [node->letter_indexes[i]] *)
Definition index_of (node : TrieNode) (i : Z) : Z :=
  vec_at (-1) (letter_indexes node) i.

(** The walk of [insert_into_trie] from [curr_node] along [word]; the node
    returned is [curr_node] with the path of the word added below it. *)
Fixpoint insert_into_trie (curr_node : TrieNode) (word : string) {struct word}
  : TrieNode :=
  match word with
  | EmptyString =>
      mkTrieNode (node_letter curr_node) true (children curr_node)
                 (letter_indexes curr_node)
  | String ch rest =>
      let li := letter_index ch in
      let curr_node :=
        if index_of curr_node li =? -1 then
          mkTrieNode (node_letter curr_node) (is_terminal_node curr_node)
            (children curr_node ++ [new_node ch])
            (vec_set (letter_indexes curr_node) li
               (Z.of_nat (length (children curr_node))))
        else curr_node in
      let child_index := index_of curr_node li in
      mkTrieNode (node_letter curr_node) (is_terminal_node curr_node)
        (vec_alter (fun child => insert_into_trie child rest)
           (children curr_node) child_index)
        (letter_indexes curr_node)
  end.

Fixpoint all_uppercase (str : string) : bool :=
  match str with
  | EmptyString => true
  | String ch rest => isupper ch && all_uppercase rest
  end.

(** [str.length() > 2 && regex_match(str, "[A-Z]+")] *)
Definition eligible (str : string) : bool :=
  (2 <? Z.of_nat (String.length str)) && all_uppercase str.

Definition create_word_trie : TrieNode :=
  fold_left
    (fun root str => if eligible str then insert_into_trie root str else root)
    global_words (new_node "*"%char).

Definition global_trie_root : TrieNode := create_word_trie.

(** ** fill_rack *)

Definition fill_rack (letters : string) : list Z :=
  let len := Z.of_nat (String.length letters) in
  let num_chars_read := if NUM_RACK_TILES >? len then len else NUM_RACK_TILES in
  fold_left
    (fun rack ch =>
       if isupper ch then vec_alter Z.succ rack (letter_index ch)
       else if Ascii.eqb ch "*"%char then vec_alter Z.succ rack 26
       else rack)
    (take (Z.to_nat num_chars_read) (list_ascii_of_string letters))
    (replicate 27 0).

(** ** The scorer *)

(** [global_tiles[letter - 'A'].points] when [isupper(letter)], else nothing
    is added. *)
Definition letter_points (ch : ascii) : Z :=
  if isupper ch
  then points (vec_at (mkTile dot 0 0) global_tiles (letter_index ch))
  else 0.

(** The four scans of the scorer over tiles in a line: from [(r, c)] in
    steps of [(dr, dc)] while the square holds a tile, adding the points of
    each letter to [pts].  [n] counts the squares from [(r, c)] to the edge
    of the vector in that direction; past the edge the walk ends. *)
Fixpoint scan_pts (board : SquareGrid) (dr dc : Z) (n : nat) (r c : Z)
  (pts : Z) : Z :=
  match n with
  | O => pts
  | S k =>
      let sq := board_at board r c in
      if holds_tile sq
      then scan_pts board dr dc k (r + dr) (c + dc)
             (pts + letter_points (letter sq))
      else pts
  end.

Definition cols_from (board : SquareGrid) (r c : Z) : nat :=
  (length (vec_at [] board r) - Z.to_nat c)%nat.

Definition scan_up board r c pts := scan_pts board (-1) 0 (Z.to_nat (r + 1)) r c pts.
Definition scan_down board r c pts := scan_pts board 1 0 (rows_from board r) r c pts.
Definition scan_left board r c pts := scan_pts board 0 (-1) (Z.to_nat (c + 1)) r c pts.
Definition scan_right board r c pts := scan_pts board 0 1 (cols_from board r c) r c pts.

Definition calc_col_cross_pts (board : SquareGrid) (r c : Z) : Z :=
  let col_cross_pts := 0 in
  let col_cross_pts := scan_up board (r - 1) c col_cross_pts in
  scan_down board (r + 1) c col_cross_pts.

(** The running totals of the first loop of [calc_across_pts]. *)
Record Totals : Set := mkTotals {
  row_pts : Z;
  total_cross_pts : Z;
  num_double_word : Z;
  num_triple_word : Z
}.

(** One pass of the loop over the squares of the move. *)
Definition score_square (board : SquareGrid) (t : Totals) (sqr : Square)
  : Totals :=
  let r := row sqr in
  let c := col sqr in
  let ty := type (board_at board r c) in
  let letter_pts := letter_points (letter sqr) in
  let letter_pts :=
    match ty with
    | double_letter => letter_pts * 2
    | triple_letter => letter_pts * 3
    | _ => letter_pts
    end in
  let col_cross_pts :=
    if occupied board (r - 1) c || occupied board (r + 1) c
    then calc_col_cross_pts board r c + letter_pts
    else 0 in
  match ty with
  | double_word =>
      mkTotals (row_pts t + letter_pts)
               (total_cross_pts t + col_cross_pts * 2)
               (num_double_word t + 1) (num_triple_word t)
  | triple_word =>
      mkTotals (row_pts t + letter_pts)
               (total_cross_pts t + col_cross_pts * 3)
               (num_double_word t) (num_triple_word t + 1)
  | _ =>
      mkTotals (row_pts t + letter_pts)
               (total_cross_pts t + col_cross_pts)
               (num_double_word t) (num_triple_word t)
  end.

(** The loop over the columns from the first to the last square of the move:
    [n] columns from [c], adding the points of whatever letter lies there. *)
Fixpoint between_pts (board : SquareGrid) (r : Z) (n : nat) (c : Z) (pts : Z)
  : Z :=
  match n with
  | O => pts
  | S k => between_pts board r k (c + 1)
             (pts + letter_points (letter (board_at board r c)))
  end.

(** [for (i = 1; i <= n; i++) pts *= k;] *)
Definition times_each (k : Z) (n : Z) (pts : Z) : Z :=
  Nat.iter (Z.to_nat n) (fun p => p * k) pts.

Definition first_square (across_move : list Square) : Square :=
  hd sentinel across_move.
Definition last_square (across_move : list Square) : Square :=
  List.last across_move sentinel.

(** The tallies after the loop over the move's squares. *)
Definition move_totals (board : SquareGrid) (across_move : list Square)
  : Totals :=
  fold_left (score_square board) across_move (mkTotals 0 0 0 0).

(** [row_pts] after the three scans along the row, before the word bonuses
    are applied. *)
Definition row_pts_before_bonus (board : SquareGrid)
  (across_move : list Square) : Z :=
  let r := row (first_square across_move) in
  let c0 := col (first_square across_move) in
  let c1 := col (last_square across_move) in
  let pts := row_pts (move_totals board across_move) in
  let pts := scan_left board r (c0 - 1) pts in
  let pts := between_pts board r (Z.to_nat (c1 - c0 + 1)) c0 pts in
  scan_right board r (c1 + 1) pts.

Definition calc_across_pts (board : SquareGrid) (across_move : list Square)
  : Z :=
  match across_move with
  | [] => 0
  | _ =>
      let t := move_totals board across_move in
      let pts := row_pts_before_bonus board across_move in
      let pts := times_each 2 (num_double_word t) pts in
      let pts := times_each 3 (num_triple_word t) pts in
      if 7 <=? Z.of_nat (length across_move)
      then pts + total_cross_pts t + 50
      else pts + total_cross_pts t
  end.

(** ** Inversion *)

Definition board_cells : list (Z * Z) :=
  r ← seqZ 1 NUM_BOARD_ROWS; c ← seqZ 1 NUM_BOARD_COLS; [(r, c)].

Definition swap_squares (board : SquareGrid) : SquareGrid :=
  fold_left
    (fun inverted_board '(r, c) =>
       board_alter (fun _ => set_row_col r c (board_at board c r))
                   inverted_board r c)
    board_cells board.

Definition invert_board (board : SquareGrid) : SquareGrid :=
  update_min_across_word_length (update_down_cross_checks (swap_squares board)).

Definition invert_move (across_move : list Square) : list Square :=
  map (fun sq => set_row_col (col sq) (row sq) sq) across_move.

Definition calc_down_pts (board : SquareGrid) (down_move : list Square) : Z :=
  calc_across_pts (invert_board board) (invert_move down_move).

(** ** The move search *)

(** The arguments with which [extend_right] is entered (all passed by
    value). *)
Record Call : Set := mkCall {
  call_rack : list Z;
  call_node : TrieNode;
  call_square : Square;
  call_min : Z;
  call_move : list Square
}.

(** What the search shares between all its calls: [best_move] and
    [best_pts], passed by reference. [calls] is not program state: it is the
    history of the entries into [extend_right], oldest first, kept to state
    properties of the calls made. *)
Record Search : Set := mkSearch {
  best_move : list Square;
  best_pts : Z;
  calls : list Call
}.

Definition enter (st : Search) (cl : Call) : Search :=
  mkSearch (best_move st) (best_pts st) (calls st ++ [cl]).

Definition add_sqr_to_move (r c : Z) (ltr : ascii) (curr_move : list Square)
  : list Square :=
  curr_move ++ [mkSquare indeterminate_type [] ltr r c indeterminate_int].

(** [curr_move.pop_back()] *)
Definition pop_back (curr_move : list Square) : list Square :=
  removelast curr_move.

(** [curr_move.size() >= (unsigned int) min_word_length] *)
Definition long_enough (curr_move : list Square) (min_word_length : Z) : bool :=
  min_word_length mod 2 ^ 32 <=? Z.of_nat (length curr_move).

(** [if (curr_pts > best_pts) { best_pts = curr_pts; best_move = curr_move; }] *)
Definition record_move (board : SquareGrid) (curr_move : list Square)
  (st : Search) : Search :=
  let curr_pts := calc_across_pts board curr_move in
  if curr_pts >? best_pts st
  then mkSearch curr_move curr_pts (calls st)
  else st.

(** A loop whose body may fail to return. *)
Fixpoint fold_opt {A B} (f : A -> B -> option A) (l : list B) (a : A)
  : option A :=
  match l with
  | [] => Some a
  | x :: l' =>
      match f a x with
      | Some a' => fold_opt f l' a'
      | None => None
      end
  end.

(** The local [rack] and [curr_move] of a call, with the shared state. *)
Abbreviation Locals := (list Z * list Square * Search)%type (only parsing).

(** One pass of the loop over [node->children]; [self] is [extend_right]
    with the arguments that do not change. *)
Definition try_child
  (self : list Z -> TrieNode -> Square -> list Square -> Search -> option Search)
  (board : SquareGrid) (sqr : Square) (loc : Locals) (child : TrieNode)
  : option Locals :=
  let '(rack, curr_move, st) := loc in
  let child_letter := node_letter child in
  let child_letter_index := letter_index child_letter in
  if (0 <? vec_at 0 rack child_letter_index)
     && vec_at false (down_cross_check sqr) child_letter_index then
    let rack := vec_alter Z.pred rack child_letter_index in
    let curr_move := add_sqr_to_move (row sqr) (col sqr) child_letter curr_move in
    let curr_square := board_at board (row sqr) (col sqr + 1) in
    match self rack child curr_square curr_move st with
    | Some st =>
        let curr_move := pop_back curr_move in
        let rack := vec_alter Z.succ rack child_letter_index in
        Some (rack, curr_move, st)
    | None => None
    end
  else if (0 <? vec_at 0 rack 26)
          && vec_at false (down_cross_check sqr) child_letter_index then
    let rack := vec_alter Z.pred rack 26 in
    let curr_move :=
      add_sqr_to_move (row sqr) (col sqr) (tolower child_letter) curr_move in
    let curr_square := board_at board (row sqr) (col sqr + 1) in
    match self rack child curr_square curr_move st with
    | Some st =>
        let curr_move := pop_back curr_move in
        let rack := vec_alter Z.succ rack 26 in
        Some (rack, curr_move, st)
    | None => None
    end
  else Some loc.

(** [extend_right]. The recursion of the source ends because every call
    moves one square to the right and the border stops it; that holds only
    when the [row] and [col] fields of the squares agree with their places,
    so the model counts the depth left in [fuel] and has no result without
    it. *)
Fixpoint extend_right (fuel : nat) (board : SquareGrid) (rack : list Z)
  (node : TrieNode) (curr_square : Square) (min_word_length : Z)
  (curr_move : list Square) (st : Search) {struct fuel} : option Search :=
  match fuel with
  | O => None
  | S fuel =>
      let st :=
        enter st (mkCall rack node curr_square min_word_length curr_move) in
      let sqr := board_at board (row curr_square) (col curr_square) in
      if SquareType_eqb (type sqr) outside then Some st
      else if is_dot (letter sqr) then
        let st :=
          if is_terminal_node node && long_enough curr_move min_word_length
          then record_move board curr_move st
          else st in
        match
          fold_opt
            (try_child
               (fun rack child curr_square curr_move st =>
                  extend_right fuel board rack child curr_square
                    min_word_length curr_move st)
               board sqr)
            (children node) (rack, curr_move, st)
        with
        | Some loc => Some (snd loc)
        | None => None
        end
      else
        let sqr_letter_index := letter_index (toupper (letter sqr)) in
        let child_index := index_of node sqr_letter_index in
        if negb (child_index =? -1) then
          let curr_square :=
            board_at board (row curr_square) (col curr_square + 1) in
          extend_right fuel board rack (child_at node child_index) curr_square
            min_word_length curr_move st
        else Some st
  end.

(** The test made before every top-level call of [extend_right]. *)
Definition worth_trying (min_word_length : Z) : bool :=
  (min_word_length <=? NUM_RACK_TILES) && negb (min_word_length =? -1).

(** The two loops of [find_best_across_move], with the shared state they
    leave. *)
Definition across_search (fuel : nat) (board : SquareGrid) (rack : list Z)
  : option Search :=
  fold_opt
    (fun st '(r, c) =>
       let curr_move := [] in
       let sqr := board_at board r c in
       let min_word_length := min_across_word_length sqr in
       if worth_trying min_word_length
       then extend_right fuel board rack global_trie_root sqr
              min_word_length curr_move st
       else Some st)
    board_cells (mkSearch [] 0 []).

Definition find_best_across_move (fuel : nat) (board : SquareGrid)
  (rack : list Z) : option (list Square) :=
  best_move <$> across_search fuel board rack.

Definition find_best_down_move (fuel : nat) (board : SquareGrid)
  (rack : list Z) : option (list Square) :=
  invert_move <$> find_best_across_move fuel (invert_board board) rack.

Definition mid_row : Z := Z.quot NUM_BOARD_ROWS 2 + 1.
Definition mid_col : Z := Z.quot NUM_BOARD_COLS 2 + 1.

(** The two assignments to [min_across_word_length] in the loop of the first
    move. *)
Definition opening_assign (board : SquareGrid) (c : Z) : SquareGrid :=
  let board :=
    board_alter (set_min_across_word_length (mid_col - c + 1)) board mid_row c in
  if c =? mid_col
  then board_alter (set_min_across_word_length 2) board mid_row mid_col
  else board.

(** One pass of the loop of the first move, over the local copy of the
    board and the shared state. *)
Definition opening_step (fuel : nat) (rack : list Z)
  (bs : SquareGrid * Search) (c : Z) : option (SquareGrid * Search) :=
  let '(board, st) := bs in
  let board := opening_assign board c in
  let curr_move := [] in
  let sqr := board_at board mid_row c in
  let min_word_length := min_across_word_length sqr in
  if worth_trying min_word_length then
    match extend_right fuel board rack global_trie_root sqr min_word_length
            curr_move st with
    | Some st => Some (board, st)
    | None => None
    end
  else Some (board, st).

Definition opening_search (fuel : nat) (board : SquareGrid) (rack : list Z)
  (st : Search) : option Search :=
  snd <$> fold_opt (opening_step fuel rack) (seqZ 1 mid_col) (board, st).

(** Whether the scan over the squares of the board meets a tile. *)
Definition has_tile (board : SquareGrid) : bool :=
  existsb (fun '(r, c) => occupied board r c) board_cells.

(** [find_best_move]; [st] holds what the caller's [best_move] and
    [best_pts] hold on entry. *)
Definition find_best_move (fuel : nat) (board : SquareGrid) (rack : list Z)
  (st : Search) : option Search :=
  if has_tile board then
    match find_best_across_move fuel board rack,
          find_best_down_move fuel board rack with
    | Some best_across_move, Some best_down_move =>
        let best_across_pts := calc_across_pts board best_across_move in
        let best_down_pts := calc_down_pts board best_down_move in
        if best_across_pts >? best_down_pts
        then Some (mkSearch best_across_move best_across_pts (calls st))
        else Some (mkSearch best_down_move best_down_pts (calls st))
    | _, _ => None
    end
  else opening_search fuel board rack st.

(** ** add_move_to_board *)

Definition place_squares (board : SquareGrid) (_move : list Square)
  : SquareGrid :=
  fold_left (fun board sq => board_alter (fun _ => sq) board (row sq) (col sq))
            _move board.

Definition add_move_to_board (board : SquareGrid) (_move : list Square)
  : SquareGrid :=
  update_min_across_word_length (update_down_cross_checks (place_squares board _move)).

(** ** Notions in which the properties are stated *)

(** [(r, c)] is a place inside the vectors of the board. *)
Definition in_board (board : SquareGrid) (r c : Z) : Prop :=
  0 <= r /\ 0 <= c /\
  exists rw, board !! Z.to_nat r = Some rw /\ (Z.to_nat c < length rw)%nat.

(** A place of the playing area, rows and columns 1 to 15. *)
Definition playable (r c : Z) : Prop :=
  1 <= r <= NUM_BOARD_ROWS /\ 1 <= c <= NUM_BOARD_COLS.

(** The [row] and [col] fields of every square agree with its place. *)
Definition coords_ok (board : SquareGrid) : Prop :=
  forall r c, in_board board r c ->
    row (board_at board r c) = r /\ col (board_at board r c) = c.

(** No row is longer than [w]. *)
Definition width_le (board : SquareGrid) (w : nat) : Prop :=
  forall rw, rw ∈ board -> (length rw <= w)%nat.

(** The number of squares of a move that lie on squares of type [ty]. *)
Definition count_type (board : SquareGrid) (ty : SquareType)
  (across_move : list Square) : Z :=
  Z.of_nat (length (filter
    (fun sq => SquareType_eqb (type (board_at board (row sq) (col sq))) ty = true)
    across_move)).

(** The bonus for a move of seven tiles or more. *)
Definition bingo (across_move : list Square) : Z :=
  if 7 <=? Z.of_nat (length across_move) then 50 else 0.

(** The places and letters of the squares of a move. *)
Definition placed (across_move : list Square) : list (Z * Z * ascii) :=
  map (fun sq => (row sq, col sq, letter sq)) across_move.

(** The number of columns between a square of the middle row and the centre
    square. *)
Definition distance_to_centre (c : Z) : Z := Z.abs (mid_col - c).

(** The local board of [find_best_move] after the passes of the loop of the
    first move for the columns 1 to [c]. *)
Definition opening_boards (board : SquareGrid) (c : Z) : SquareGrid :=
  fold_left opening_assign (seqZ 1 c) board.

(** The call of [extend_right] that the loop of the first move makes for
    column [c]. *)
Definition opening_call (fuel : nat) (board : SquareGrid)
  (rack : list Z) (st : Search) (c : Z) : option Search :=
  let board' := opening_boards board c in
  extend_right fuel board' rack global_trie_root (board_at board' mid_row c)
    (if c =? mid_col then 2 else distance_to_centre c + 1) [] st.

(** *** The calls of the search *)

(** The square that a call looks at. *)
Definition square_of (board : SquareGrid) (cl : Call) : Square :=
  board_at board (row (call_square cl)) (col (call_square cl)).

(** A call has reached a complete move: its square is inside the board and
    empty, its node ends a word and its move is long enough. This is the
    test under which [extend_right] scores the move. *)
Definition complete_move (board : SquareGrid) (cl : Call) : bool :=
  let sqr := square_of board cl in
  negb (SquareType_eqb (type sqr) outside) && is_dot (letter sqr)
  && is_terminal_node (call_node cl)
  && long_enough (call_move cl) (call_min cl).

(** The shared state once a call has been entered and, on a complete move,
    the move has been scored. *)
Definition arrive (board : SquareGrid) (cl : Call) (st : Search) : Search :=
  let st := enter st cl in
  if complete_move board cl then record_move board (call_move cl) st else st.

(** What one pass of the loop over the children lays for [child]: the index
    of the rack from which the tile is taken and the letter written on the
    square, if the pass lays a tile at all. *)
Definition tentative (rack : list Z) (sqr : Square) (child : TrieNode)
  : option (Z * ascii) :=
  let child_letter := node_letter child in
  let child_letter_index := letter_index child_letter in
  if (0 <? vec_at 0 rack child_letter_index)
     && vec_at false (down_cross_check sqr) child_letter_index
  then Some (child_letter_index, child_letter)
  else if (0 <? vec_at 0 rack 26)
          && vec_at false (down_cross_check sqr) child_letter_index
  then Some (26, tolower child_letter)
  else None.

(** The recursive calls that the loop over the children makes on the empty
    square [sqr], in the order in which it makes them. *)
Definition subcalls (board : SquareGrid) (rack : list Z) (node : TrieNode)
  (sqr : Square) (min_word_length : Z) (curr_move : list Square) : list Call :=
  omap
    (fun child =>
       match tentative rack sqr child with
       | Some (i, ltr) =>
           Some (mkCall (vec_alter Z.pred rack i) child
                   (board_at board (row sqr) (col sqr + 1)) min_word_length
                   (add_sqr_to_move (row sqr) (col sqr) ltr curr_move))
       | None => None
       end)
    (children node).

(** The recursive calls that a call makes, in order. *)
Definition callees (board : SquareGrid) (cl : Call) : list Call :=
  let sqr := square_of board cl in
  if SquareType_eqb (type sqr) outside then []
  else if is_dot (letter sqr) then
    subcalls board (call_rack cl) (call_node cl) sqr (call_min cl) (call_move cl)
  else
    let child_index :=
      index_of (call_node cl) (letter_index (toupper (letter sqr))) in
    if negb (child_index =? -1) then
      [mkCall (call_rack cl) (child_at (call_node cl) child_index)
         (board_at board (row (call_square cl)) (col (call_square cl) + 1))
         (call_min cl) (call_move cl)]
    else [].

(** [extend_right] on the arguments that a [Call] records. *)
Definition run_call (fuel : nat) (board : SquareGrid) (st : Search) (cl : Call)
  : option Search :=
  extend_right fuel board (call_rack cl) (call_node cl) (call_square cl)
    (call_min cl) (call_move cl) st.

(** The letter that a call has just laid. *)
Definition laid_letter (cl : Call) : ascii :=
  letter (last_square (call_move cl)).

(** The letters of a move, in the order in which they were laid. *)
Definition spelled (across_move : list Square) : string :=
  string_of_list_ascii (map letter across_move).

(** The search came back and none of its calls reached a complete move. *)
Definition no_complete_call (board : SquareGrid) (o : option Search) : bool :=
  match o with
  | Some s => forallb (fun cl => negb (complete_move board cl)) (calls s)
  | None => false
  end.

(** The searches that [find_best_move] runs come back and none of their
    calls reached a complete move. *)
Definition no_complete_search (fuel : nat) (board : SquareGrid) (rack : list Z)
  : bool :=
  if has_tile board then
    no_complete_call board (across_search fuel board rack)
    && no_complete_call (invert_board board)
         (across_search fuel (invert_board board) rack)
  else
    no_complete_call board
      (opening_search fuel board rack (mkSearch [] 0 [])).

(** [s] comes after [st], and if none of the calls made in between reached
    a complete move on [board], the best move is the one of [st]. *)
Definition quiet (board : list (list Square)) (st s : Search) : Prop :=
  exists new, calls s = calls st ++ new /\
    (forallb (fun cl => negb (complete_move board cl)) new = true ->
     best_move s = best_move st /\ best_pts s = best_pts st).

(** What the loop of the first move keeps: the local board differs from
    [board] in minimum lengths only, and the shared state is [quiet]. *)
Definition opening_inv (board : list (list Square)) (st : Search)
  (bs : list (list Square) * Search) : Prop :=
  ((forall r c, type (board_at bs.1 r c) = type (board_at board r c)) /\
   (forall r c, letter (board_at bs.1 r c) = letter (board_at board r c))) /\
  quiet board st bs.2.

(** *** Where a recorded move ends *)

(** The column at which a walk to the right over tiles, begun in column [c]
    of row [r], comes to a halt; [n] bounds the squares walked over, as in
    [scan_pts]. *)
Fixpoint end_of_tiles (board : SquareGrid) (r : Z) (n : nat) (c : Z) : Z :=
  match n with
  | O => c
  | S k =>
      if holds_tile (board_at board r c)
      then end_of_tiles board r k (c + 1)
      else c
  end.

(** The square after the primary word of a move: the square on which the
    scan of [calc_across_pts] to the right of the last square of the move
    ends. *)
Definition square_after (board : SquareGrid) (across_move : list Square)
  : Square :=
  let r := row (first_square across_move) in
  let c := col (last_square across_move) + 1 in
  board_at board r (end_of_tiles board r (cols_from board r c) c).

(** The primary word of the move ends before a square of the board that is
    empty. *)
Definition ends_inside (board : SquareGrid) (across_move : list Square)
  : bool :=
  let sq := square_after board across_move in
  negb (SquareType_eqb (type sq) outside) && is_dot (letter sq).

(** Where the tiles laid by a call lie: all in the row of its square, the
    last one to the left of the square, with nothing but tiles in between. *)
Definition trail (board : SquareGrid) (cl : Call) : Prop :=
  let r := row (call_square cl) in
  let c := col (call_square cl) in
  call_move cl = [] \/
  (Forall (fun sq => row sq = r) (call_move cl) /\
   0 <= col (last_square (call_move cl)) < c /\
   forall c', col (last_square (call_move cl)) < c' < c ->
              holds_tile (board_at board r c') = true).

(** A check of [coords_ok] that runs. *)
Fixpoint row_okb (i j : Z) (rw : list Square) : bool :=
  match rw with
  | [] => true
  | sq :: rw' => (row sq =? i) && (col sq =? j) && row_okb i (j + 1) rw'
  end.

Fixpoint rows_okb (i : Z) (board : SquareGrid) : bool :=
  match board with
  | [] => true
  | rw :: board' => row_okb i 0 rw && rows_okb (i + 1) board'
  end.

Definition coords_okb (board : SquareGrid) : bool := rows_okb 0 board.

(** A check of [width_le] that runs. *)
Definition width_leb (board : SquareGrid) (w : nat) : bool :=
  forallb (fun rw => (length rw <=? w)%nat) board.

(** The invariant of the scan of a row: the tiles lie where they lay on
    [board0], and the vectors keep their sizes. *)
Definition same_tiles (board0 board : SquareGrid) : Prop :=
  (forall r c, occupied board r c = occupied board0 r c) /\
  (forall r c, in_board board r c <-> in_board board0 r c).

(** The number of tiles on a rack. *)
Definition rack_total (rack : list Z) : Z := foldr Z.add 0 rack.

(** The points kept are the points of the move kept, and no complete move
    reached so far scores more. *)
Definition best_so_far (board : list (list Square)) (st : Search) : Prop :=
  best_pts st = calc_across_pts board (best_move st) /\
  Forall (fun cl => complete_move board cl = true ->
                    calc_across_pts board (call_move cl) <= best_pts st)
         (calls st).

(** The tiles on the rack of a call and the tiles of its move make up [t]
    tiles. *)
Definition holds_tiles (t : Z) (cl : Call) : Prop :=
  Forall (Z.le 0) (call_rack cl) /\
  rack_total (call_rack cl) + Z.of_nat (length (call_move cl)) = t.

(** *** The trie as a set of words *)

(** The child of [node] for the letter of index [i], looked up as the search
    looks it up for a tile on the board: [letter_indexes[i]], then
    [children[...]]. *)
Definition child_for (node : TrieNode) (i : Z) : option TrieNode :=
  let child_index := index_of node i in
  if child_index =? -1 then None else Some (child_at node child_index).

(** The node reached from [node] along the letters of [word]. *)
Fixpoint walk (node : TrieNode) (word : string) : option TrieNode :=
  match word with
  | EmptyString => Some node
  | String ch rest =>
      match child_for node (letter_index ch) with
      | Some child => walk child rest
      | None => None
      end
  end.

(** [word] leads from [node] to a node that ends a word. *)
Definition stores (node : TrieNode) (word : string) : bool :=
  match walk node word with
  | Some n => is_terminal_node n
  | None => false
  end.

(** The shape that [insert_into_trie] keeps: 26 indexes; an index that is
    not -1 is the place of a child with that letter; every child is indexed
    under its own letter; and so on below. *)
Inductive wf_node : TrieNode -> Prop :=
  | wf_node_intro node :
      length (letter_indexes node) = 26%nat ->
      (forall i, index_of node i <> -1 ->
         exists child, 0 <= index_of node i /\
           children node !! Z.to_nat (index_of node i) = Some child /\
           letter_index (node_letter child) = i) ->
      (forall n child, children node !! n = Some child ->
         index_of node (letter_index (node_letter child)) = Z.of_nat n) ->
      Forall wf_node (children node) ->
      wf_node node.

(** The two steps of [insert_into_trie] at one node: the child for [ch] is
    added if there is none, and the child with index [k] is replaced. *)
Definition ensure_child (curr_node : TrieNode) (ch : ascii) : TrieNode :=
  if index_of curr_node (letter_index ch) =? -1 then
    mkTrieNode (node_letter curr_node) (is_terminal_node curr_node)
      (children curr_node ++ [new_node ch])
      (vec_set (letter_indexes curr_node) (letter_index ch)
         (Z.of_nat (length (children curr_node))))
  else curr_node.

Definition alter_child (f : TrieNode -> TrieNode) (node : TrieNode) (k : Z)
  : TrieNode :=
  mkTrieNode (node_letter node) (is_terminal_node node)
    (vec_alter f (children node) k) (letter_indexes node).

(** *** The word that a move spells *)

(** The letter in column [c] of row [r] once the move is laid: the letter
    of the square of the move in that column, or else the letter on the
    board. *)
Definition letter_at (board : SquareGrid) (across_move : list Square)
  (r c : Z) : ascii :=
  match List.find (fun sq => col sq =? c) across_move with
  | Some sq => letter sq
  | None => letter (board_at board r c)
  end.

(** The letters of the [n] columns of row [r] from column [c] on, in capital
    letters, once the move is laid. *)
Fixpoint letters_between (board : SquareGrid) (across_move : list Square)
  (r : Z) (n : nat) (c : Z) : string :=
  match n with
  | O => EmptyString
  | S k =>
      String (toupper (letter_at board across_move r c))
             (letters_between board across_move r k (c + 1))
  end.

(** A call that began in column [c0] of row [r] has read, from the trie, the
    letters that lie between [c0] and its square once its move is laid. *)
Definition spelling (board : SquareGrid) (r c0 : Z) (cl : Call) : Prop :=
  wf_node (call_node cl) /\
  row (call_square cl) = r /\
  c0 <= col (call_square cl) /\
  Forall (fun sq => row sq = r /\ c0 <= col sq < col (call_square cl))
    (call_move cl) /\
  walk global_trie_root
    (letters_between board (call_move cl) r
       (Z.to_nat (col (call_square cl) - c0)) c0)
  = Some (call_node cl).

(** The squares of the move lie in one row, and the move, laid on the
    board, spells a word of the trie in a stretch of that row that holds all
    its squares. *)
Definition spells_word (board : SquareGrid) (across_move : list Square)
  : Prop :=
  exists r c0 n,
    Forall (fun sq => row sq = r /\ c0 <= col sq < c0 + Z.of_nat n)
      across_move /\
    stores global_trie_root (letters_between board across_move r n c0) = true.

(** The boards agree in what the scans over tiles read: letters, types and
    the sizes of the vectors. *)
Definition same_squares (board0 board : SquareGrid) : Prop :=
  (forall r c, letter (board_at board r c) = letter (board_at board0 r c)) /\
  (forall r c, type (board_at board r c) = type (board_at board0 r c)) /\
  length board = length board0 /\
  (forall r c, in_board board r c <-> in_board board0 r c).

(** What the pass for the square [(r, c)] leaves in its cross-check set. *)
Definition cross_check_done (board0 : list (list Square)) (r c : Z)
  (cc : list bool) : Prop :=
  let above := above_of board0 r c in
  let below := below_of board0 r c in
  if is_dot (letter (board_at board0 r c))
     && negb (is_empty_string above && is_empty_string below)
  then forall k, (26 <= length (down_cross_check (board_at board0 r c)))%nat ->
                 0 <= k < 26 ->
                 vec_at false cc k = word_found (test_word above (65 + k) below)
  else cc = down_cross_check (board_at board0 r c).

(** *** The shape of a move *)

(** Every square of the move names an empty square of row [r] of the
    board. *)
Definition on_empty_squares (board : SquareGrid) (r : Z)
  (across_move : list Square) : Prop :=
  Forall
    (fun sq =>
       row sq = r /\
       holds_tile (board_at board r (col sq)) = false /\
       SquareType_eqb (type (board_at board r (col sq))) outside = false)
    across_move.

(** The columns of the squares of the move grow from one square to the
    next. *)
Definition cols_increase (across_move : list Square) : Prop :=
  forall (i j : nat) si sj,
    across_move !! i = Some si -> across_move !! j = Some sj ->
    (i < j)%nat -> col si < col sj.

(** The square of the move that comes to lie on the place [(r, c)]: the
    last one that names it. *)
Definition laid_on (_move : list Square) (r c : Z) : option Square :=
  List.find (fun sq => (row sq =? r) && (col sq =? c)) (rev _move).

(** The move of a call lies on empty squares of row [r], in growing
    columns, to the left of the square of the call. *)
Definition shape (board : SquareGrid) (r : Z) (cl : Call) : Prop :=
  row (call_square cl) = r /\
  on_empty_squares board r (call_move cl) /\
  cols_increase (call_move cl) /\
  Forall (fun sq => col sq < col (call_square cl)) (call_move cl).

(** *** The slots of the rack *)

(** The character that [fill_rack] counts in the slot [i] of the rack: the
    capital letter of that index, and the star in the slot 26. *)
Definition tile_char (i : Z) : ascii :=
  if i =? 26 then "*"%char else char_of (65 + i).

(** *** The rules of the game *)

(** The tiles on the places of a board: the letter on each place, [dot]
    where there is none. *)
Definition tiles_of (board : SquareGrid) (r c : Z) : ascii :=
  letter (board_at board r c).

(** The same tiles with rows and columns exchanged. *)
Definition transpose (tiles : Z -> Z -> ascii) (r c : Z) : ascii := tiles c r.

(** The tiles once the squares of the move are laid. *)
Definition lay_on (tiles : Z -> Z -> ascii) (_move : list Square) (r c : Z)
  : ascii :=
  match List.find (fun sq => (row sq =? r) && (col sq =? c)) _move with
  | Some sq => letter sq
  | None => tiles r c
  end.

(** The [n] letters of row [r] from column [c] on, read as capitals. *)
Fixpoint word_across (tiles : Z -> Z -> ascii) (r : Z) (n : nat) (c : Z)
  : string :=
  match n with
  | O => EmptyString
  | S k => String (toupper (tiles r c)) (word_across tiles r k (c + 1))
  end.

(** A whole word of row [r]: the [n] places from column [c] on hold tiles,
    the place before them and the place after them hold none. *)
Definition run_across (tiles : Z -> Z -> ascii) (r c : Z) (n : nat) : Prop :=
  tiles r (c - 1) = dot /\ tiles r (c + Z.of_nat n) = dot /\
  forall k, c <= k < c + Z.of_nat n -> tiles r k <> dot.

(** The slot of the rack that a tile comes from: a capital letter from the
    slot of the letter, a small letter, which is a blank, from the slot
    26. *)
Definition tile_slot (ch : ascii) : option Z :=
  if isupper ch then Some (letter_index ch)
  else if islower ch then Some 26
  else None.

(** The number of tiles of the move that come from the slot [i]. *)
Definition tiles_from (i : Z) (_move : list Square) : nat :=
  length (filter (fun sq => tile_slot (letter sq) = Some i) _move).

(** Every square of the move holds a tile of the rack, and no slot gives
    more tiles than it has. *)
Definition from_rack (rack : list Z) (_move : list Square) : Prop :=
  Forall (fun sq => is_Some (tile_slot (letter sq))) _move /\
  forall i, (0 < tiles_from i _move)%nat ->
            Z.of_nat (tiles_from i _move) <= vec_at 0 rack i.

(** The move is joined to the tiles on the board: its word holds one of
    them, or one of its squares has one right above or below. On a board
    without tiles the word lies in the row [cr], covers the column [cc] and
    has two tiles or more. *)
Definition joined (tiles : Z -> Z -> ascii) (cr cc : Z) (r c : Z) (n : nat)
  (_move : list Square) : Prop :=
  ((exists r' c', tiles r' c' <> dot) ->
   (exists k, c <= k < c + Z.of_nat n /\ tiles r k <> dot) \/
   (exists sq, In sq _move /\
      (tiles (r - 1) (col sq) <> dot \/ tiles (r + 1) (col sq) <> dot))) /\
  ((forall r' c', tiles r' c' = dot) ->
   r = cr /\ c <= cc < c + Z.of_nat n /\ (2 <= length _move)%nat).

(** A legal move that lays its tiles in one row. The squares of the move
    are squares of that row, empty and no two the same, and their tiles
    come from the rack. Once they are laid, the squares lie in a whole word
    of the row, which is a word of the lexicon; every square with a tile
    right above or below lies in a whole word of its column, which is a
    word of the lexicon; and the move is joined to the tiles on the board,
    or is a first move over the centre [(cr, cc)]. *)
Definition legal_across (tiles : Z -> Z -> ascii) (cr cc : Z) (rack : list Z)
  (_move : list Square) : Prop :=
  exists r c n,
    _move <> [] /\
    Forall (fun sq => row sq = r /\ playable r (col sq) /\
                      tiles r (col sq) = dot /\
                      c <= col sq < c + Z.of_nat n) _move /\
    NoDup (map col _move) /\
    from_rack rack _move /\
    run_across (lay_on tiles _move) r c n /\
    In (word_across (lay_on tiles _move) r n c) global_words /\
    (forall sq, In sq _move ->
       tiles (r - 1) (col sq) <> dot \/ tiles (r + 1) (col sq) <> dot ->
       exists r0 m,
         r0 <= r < r0 + Z.of_nat m /\
         run_across (transpose (lay_on tiles _move)) (col sq) r0 m /\
         In (word_across (transpose (lay_on tiles _move)) (col sq) m r0)
            global_words) /\
    joined tiles cr cc r c n _move.

(** A legal move: one that lays its tiles in a row, or one that lays them
    in a column, which is a move in a row of the board with rows and
    columns exchanged. *)
Definition legal_move (tiles : Z -> Z -> ascii) (rack : list Z)
  (_move : list Square) : Prop :=
  legal_across tiles mid_row mid_col rack _move \/
  legal_across (transpose tiles) mid_col mid_row rack (invert_move _move).

(** The squares of rows and columns 1 to 15 are squares of the game; every
    other place is outside and holds no tile. *)
Definition bordered (board : SquareGrid) : Prop :=
  forall r c,
    (playable r c -> type (board_at board r c) <> outside) /\
    (~ playable r c ->
     type (board_at board r c) = outside /\ letter (board_at board r c) = dot).

(** *** What the search keeps of the rules *)

(** For a call of the search begun in column [c0] of row [r] with the rack
    [rack]: the tiles of its move come from the rack, each of them is in
    the cross-check set of its square, and the squares from column [c0] to
    the square of the call hold a tile once the move is laid. *)
Definition lawful (board : SquareGrid) (rack : list Z) (r c0 : Z) (cl : Call)
  : Prop :=
  Forall (fun sq => is_Some (tile_slot (letter sq))) (call_move cl) /\
  (forall i, vec_at 0 (call_rack cl) i
             + Z.of_nat (tiles_from i (call_move cl)) = vec_at 0 rack i) /\
  (forall i, (0 < tiles_from i (call_move cl))%nat ->
             0 <= vec_at 0 (call_rack cl) i) /\
  Forall (fun sq =>
            vec_at false (down_cross_check (board_at board r (col sq)))
              (letter_index (toupper (letter sq))) = true) (call_move cl) /\
  forall k, c0 <= k < col (call_square cl) ->
            lay_on (tiles_of board) (call_move cl) r k <> dot.

(** The squares next to the place [(r, c)] that
    [update_min_across_word_length] looks at: whether there is a tile above,
    below, to the right or on it. *)
Definition next_to_tile (board : SquareGrid) (r c : Z) : bool :=
  occupied board (r - 1) c || occupied board (r + 1) c
  || occupied board r (c + 1) || occupied board r c.

(** [m] tiles laid from column [c] of row [r] on reach the tiles of the
    board, and fewer do not: the first [m - 1] places are not next to a
    tile and the next one is. *)
Definition reaches (board : SquareGrid) (r c m : Z) : Prop :=
  1 <= m /\ c + m - 1 <= NUM_BOARD_COLS /\
  (forall k, c <= k < c + m - 1 -> next_to_tile board r k = false) /\
  next_to_tile board r (c + m - 1) = true.

(** The cross-check sets of the empty squares with a tile right above or
    below allow no letter that does not make a word with the tiles above
    and below. *)
Definition cross_checks_sound (board : SquareGrid) : Prop :=
  forall r c k,
    playable r c -> is_dot (letter (board_at board r c)) = true ->
    is_empty_string (above_of board r c)
    && is_empty_string (below_of board r c) = false ->
    0 <= k < 26 ->
    vec_at false (down_cross_check (board_at board r c)) k = true ->
    word_found (test_word (above_of board r c) (65 + k) (below_of board r c))
    = true.

(** What the search keeps for the calls that it makes after it began on
    the square [(r, c)] with the minimum length [m]. A call whose square is
    beyond the squares of the board returns at once, and nothing is kept
    for it. *)
Definition anchored (board : SquareGrid) (rack : list Z) (r c m : Z)
  (cl : Call) : Prop :=
  call_min cl = m /\
  (in_board board (row (call_square cl)) (col (call_square cl)) ->
   spelling board r c cl /\ shape board r cl /\ lawful board rack r c cl).

(** Every call of the list that reached a complete move on [board] reached
    a legal move for the tiles [tiles] and the centre [(cr, cc)]. *)
Definition calls_legal (board : SquareGrid) (tiles : Z -> Z -> ascii)
  (cr cc : Z) (rack : list Z) (l : list Call) : Prop :=
  Forall (fun cl => complete_move board cl = true ->
                    legal_across tiles cr cc rack (call_move cl)) l.

(** A check of [bordered] that runs: the squares of the game are not
    outside, and the other squares of the vectors are outside and empty. *)
Definition playableb (r c : Z) : bool :=
  (1 <=? r) && (r <=? NUM_BOARD_ROWS) && (1 <=? c) && (c <=? NUM_BOARD_COLS).

Fixpoint row_borderedb (i j : Z) (rw : list Square) : bool :=
  match rw with
  | [] => true
  | sq :: rw' =>
      (playableb i j
       || SquareType_eqb (type sq) outside && is_dot (letter sq))
      && row_borderedb i (j + 1) rw'
  end.

Fixpoint rows_borderedb (i : Z) (board : SquareGrid) : bool :=
  match board with
  | [] => true
  | rw :: board' => row_borderedb i 0 rw && rows_borderedb (i + 1) board'
  end.

Definition borderedb (board : SquareGrid) : bool :=
  forallb
    (fun '(r, c) => negb (SquareType_eqb (type (board_at board r c)) outside))
    board_cells
  && rows_borderedb 0 board.

(** The move kept is the empty move or the move of a call of the list that
    reached a complete move on [board]. *)
Definition best_is_complete (board : SquareGrid) (s : Search) : Prop :=
  best_move s = [] \/
  exists cl, cl ∈ calls s /\ complete_move board cl = true /\
             call_move cl = best_move s.

End Scrabble.

(** * Data to run the program on *)

(** A board as [read_board_data] builds it from a layout: 15 by 15 squares
    inside a border of squares of type [outside], no tile laid. *)
Definition on_border (r c : Z) : bool :=
  (r =? 0) || (r =? 16) || (c =? 0) || (c =? 16).

Definition fresh_square (layout : Z -> Z -> SquareType) (r c : Z) : Square :=
  if on_border r c
  then mkSquare outside all_invalid dot r c 0
  else mkSquare (layout r c) all_valid dot r c 0.

Definition fresh_board (layout : Z -> Z -> SquareType) : list (list Square) :=
  map (fun r => map (fresh_square layout r) (seqZ 0 17)) (seqZ 0 17).

Definition plain_layout (r c : Z) : SquareType := regular.

(** Plain squares but for a double word square in the centre and a triple
    word square to its right. *)
Definition bonus_layout (r c : Z) : SquareType :=
  if (r =? 8) && (c =? 8) then double_word
  else if (r =? 8) && (c =? 9) then triple_word
  else regular.

(** [board[r][c].letter = ch], as [read_test_game_data] and the console
    loop lay tiles. *)
Definition lay (board : list (list Square)) (r c : Z) (ch : ascii)
  : list (list Square) :=
  board_alter (set_letter ch) board r c.

(** The points of the letters A to Z and of the blank. *)
Definition standard_points : list Z :=
  [1; 3; 3; 2; 1; 4; 2; 4; 1; 8; 5; 1; 3; 1; 1; 3; 10; 1; 1; 1; 1; 4; 4; 8; 4;
   10; 0].

Definition standard_tiles : list Tile :=
  imap (fun i p => mkTile (char_of (65 + Z.of_nat i)) p 1) standard_points.

(** The board with the single tile A on its centre square. *)
Definition tile_at_centre : list (list Square) :=
  lay (fresh_board plain_layout) 8 8 "A"%char.

(** The same tile on a board with the bonus squares of [bonus_layout]. *)
Definition bonus_board : list (list Square) := fresh_board bonus_layout.

(** The standard tiles, with the words BAT, BA and AT. *)
Definition bat_game : Globals :=
  mkGlobals ["BAT"; "BA"; "AT"]%string standard_tiles regular 0.

(** A move that lays A on the double word square and T on the triple word
    square of [bonus_board]. *)
Definition at_move : list Square :=
  @add_sqr_to_move bat_game 8 9 "T"%char
    (@add_sqr_to_move bat_game 8 8 "A"%char []).

(** [tile_at_centre] as the console loop hands it to [find_best_move], its
    cross-checks and minimum lengths brought up to date. *)
Definition bat_board : list (list Square) :=
  update_min_across_word_length
    (@update_down_cross_checks bat_game tile_at_centre).

Definition bat_rack : list Z := fill_rack "BT".

Definition no_best : Search := mkSearch [] 0 [].

(** The standard tiles with the single word CAT, and the board with the tile
    A on its centre brought up to date for it. *)
Definition cat_game : Globals :=
  mkGlobals ["CAT"]%string standard_tiles regular 0.

Definition cat_board : list (list Square) :=
  update_min_across_word_length
    (@update_down_cross_checks cat_game tile_at_centre).

(** The standard tiles with the words BAT and ACT, which the lexicon hands
    out in this order. *)
Definition bat_act_game : Globals :=
  mkGlobals ["BAT"; "ACT"]%string standard_tiles regular 0.

(** * Properties *)

(** ** Vectors and boards *)

Lemma vec_at_alter_eq {A} (d : A) f v i :
  0 <= i -> (Z.to_nat i < length v)%nat ->
  vec_at d (vec_alter f v i) i = f (vec_at d v i).
Proof.
  intros Hi Hlen. unfold vec_at, vec_alter.
  destruct (Z.ltb_spec i 0); [lia|].
  rewrite list_lookup_alter_eq.
  destruct (lookup_lt_is_Some_2 v (Z.to_nat i) Hlen) as [x Hx].
  by rewrite Hx.
Qed.

Lemma vec_at_alter_ne {A} (d : A) f v i j :
  i <> j -> vec_at d (vec_alter f v i) j = vec_at d v j.
Proof.
  intros Hne. unfold vec_at, vec_alter.
  destruct (Z.ltb_spec j 0); [done|].
  destruct (Z.ltb_spec i 0); [done|].
  rewrite list_lookup_alter_ne; [done|lia].
Qed.

Lemma length_vec_alter {A} (f : A -> A) v i :
  length (vec_alter f v i) = length v.
Proof. unfold vec_alter. destruct (i <? 0); [done|apply length_alter]. Qed.

(** What [f] leaves alone in every element stays as it was at every index. *)
Lemma vec_at_alter_proj {A X} (P : A -> X) (d : A) f v i j :
  (forall x, P (f x) = P x) ->
  P (vec_at d (vec_alter f v i) j) = P (vec_at d v j).
Proof.
  intros Hf. unfold vec_at, vec_alter.
  destruct (Z.ltb_spec j 0); [done|].
  destruct (Z.ltb_spec i 0); [done|].
  destruct (decide (Z.to_nat i = Z.to_nat j)) as [->|Hne].
  - rewrite list_lookup_alter_eq. destruct (v !! Z.to_nat j); simpl; auto.
  - by rewrite list_lookup_alter_ne.
Qed.

Lemma in_board_at board r c :
  in_board board r c ->
  exists rw, board !! Z.to_nat r = Some rw /\
             rw !! Z.to_nat c = Some (board_at board r c).
Proof.
  intros (Hr & Hc & rw & Hrw & Hlen). exists rw. split; [done|].
  unfold board_at, vec_at.
  destruct (Z.ltb_spec r 0); [lia|]. destruct (Z.ltb_spec c 0); [lia|].
  rewrite Hrw. simpl.
  destruct (lookup_lt_is_Some_2 rw (Z.to_nat c) Hlen) as [x Hx].
  by rewrite Hx.
Qed.

Lemma board_at_alter_eq f board r c :
  in_board board r c ->
  board_at (board_alter f board r c) r c = f (board_at board r c).
Proof.
  intros (Hr & Hc & rw & Hrw & Hlen). unfold board_at, board_alter.
  rewrite vec_at_alter_eq; [|done|by eapply lookup_lt_Some].
  rewrite vec_at_alter_eq; [done|done|].
  unfold vec_at. destruct (Z.ltb_spec r 0); [lia|]. by rewrite Hrw.
Qed.

Lemma board_at_alter_ne f board r c r' c' :
  r <> r' \/ c <> c' ->
  board_at (board_alter f board r c) r' c' = board_at board r' c'.
Proof.
  intros Hne. unfold board_at, board_alter.
  destruct (decide (r = r')) as [<-|Hr].
  - destruct Hne as [|Hc]; [done|].
    unfold vec_at at 2 4, vec_alter at 1.
    destruct (Z.ltb_spec r 0); [done|].
    rewrite list_lookup_alter_eq.
    destruct (board !! Z.to_nat r) as [rw|]; simpl; [|done].
    by apply vec_at_alter_ne.
  - by rewrite vec_at_alter_ne.
Qed.

Lemma board_at_alter_proj {X} (P : Square -> X) f board r c r' c' :
  (forall s, P (f s) = P s) ->
  P (board_at (board_alter f board r c) r' c') = P (board_at board r' c').
Proof.
  intros Hf. unfold board_at, board_alter.
  unfold vec_at at 2 4, vec_alter at 1.
  destruct (Z.ltb_spec r' 0); [done|].
  destruct (Z.ltb_spec r 0); [done|].
  destruct (decide (Z.to_nat r = Z.to_nat r')) as [->|Hne].
  - rewrite list_lookup_alter_eq.
    destruct (board !! Z.to_nat r') as [rw|]; simpl; [|done].
    by apply vec_at_alter_proj.
  - by rewrite list_lookup_alter_ne.
Qed.

Lemma in_board_alter f board r c r' c' :
  in_board (board_alter f board r c) r' c' <-> in_board board r' c'.
Proof.
  unfold in_board, board_alter. unfold vec_alter at 1.
  destruct (Z.ltb_spec r 0); [done|].
  destruct (decide (Z.to_nat r = Z.to_nat r')) as [Heq|Hne].
  - rewrite <- Heq, list_lookup_alter_eq.
    destruct (board !! Z.to_nat r) as [rw|]; simpl.
    + split; intros (? & ? & rw' & [= <-] & Hl); repeat split; try done.
      * exists rw. split; [done|]. by rewrite length_vec_alter in Hl.
      * eexists. split; [done|]. by rewrite length_vec_alter.
    + split; intros (? & ? & rw' & [=] & _).
  - by rewrite list_lookup_alter_ne.
Qed.

(** ** Loops *)

(** A fold keeps what each of its passes keeps. *)
Lemma fold_left_keeps {A B} (f : A -> B -> A) (Inv : A -> Prop) l :
  (forall a y, y ∈ l -> Inv a -> Inv (f a y)) ->
  forall a, Inv a -> Inv (fold_left f l a).
Proof.
  induction l as [|x l IH]; intros Hf a Ha; simpl; [done|].
  apply IH.
  - intros a' y Hy. apply Hf. by right.
  - apply Hf; [by left|done].
Qed.

(** If the pass for [x] establishes [Post] and no other pass undoes it,
    [Post] holds after a fold over a list in which [x] occurs. *)
Lemma fold_left_settles {A B} `{EqDecision B} (f : A -> B -> A)
  (Inv Post : A -> Prop) (x : B) l :
  (forall a y, Inv a -> Inv (f a y)) ->
  (forall a, Inv a -> Post (f a x)) ->
  (forall a y, y <> x -> Inv a -> Post a -> Post (f a y)) ->
  forall a, Inv a -> x ∈ l \/ Post a -> Post (fold_left f l a).
Proof.
  intros Hinv Hx Hy.
  induction l as [|y l IH]; intros a Ha Hor; simpl.
  - destruct Hor as [Hin|]; [by apply elem_of_nil in Hin|done].
  - apply IH; [by apply Hinv|].
    destruct (decide (y = x)) as [->|Hne]; [right; by apply Hx|].
    destruct Hor as [Hin|Hpost].
    + apply elem_of_cons in Hin as [->|]; [done|by left].
    + right. by apply Hy.
Qed.

Lemma fold_opt_cons {A B} (f : A -> B -> option A) x l a :
  fold_opt f (x :: l) a
  = match f a x with Some a' => fold_opt f l a' | None => None end.
Proof. reflexivity. Qed.

Lemma fold_opt_inv {A B} (f : A -> B -> option A) (Inv : A -> Prop) l :
  (forall a x a', x ∈ l -> Inv a -> f a x = Some a' -> Inv a') ->
  forall a a', Inv a -> fold_opt f l a = Some a' -> Inv a'.
Proof.
  induction l as [|x l IH]; intros Hf a a' Ha.
  - by intros [= <-].
  - rewrite fold_opt_cons. destruct (f a x) as [a1|] eqn:E; [|done].
    apply IH.
    + intros a2 y a3 Hy. apply Hf. by right.
    + eapply Hf; [by left|done|done].
Qed.

Lemma fold_opt_is_Some {A B} (f : A -> B -> option A) l :
  (forall a x, x ∈ l -> is_Some (f a x)) ->
  forall a, is_Some (fold_opt f l a).
Proof.
  induction l as [|x l IH]; intros Hf a; [by eexists|].
  rewrite fold_opt_cons. destruct (Hf a x) as [a' ->]; [by left|].
  apply IH. intros a2 y Hy. apply Hf. by right.
Qed.

Lemma fold_opt_ext {A B} (f g : A -> B -> option A) l :
  (forall a x, x ∈ l -> f a x = g a x) ->
  forall a, fold_opt f l a = fold_opt g l a.
Proof.
  induction l as [|x l IH]; intros Hfg a; [done|].
  rewrite !fold_opt_cons, <- Hfg by (by left).
  destruct (f a x); [|done]. apply IH. intros a' y Hy. apply Hfg. by right.
Qed.


Lemma forallb_pointwise {A} (f g : A -> bool) l :
  (forall x, f x = g x) -> forallb f l = forallb g l.
Proof.
  intros Hfg. induction l as [|x l IH]; [done|]. simpl. by rewrite Hfg, IH.
Qed.


(** If the one pass for [x] turns [Before] into [Post] and the other passes
    keep both, [Post] holds after a fold over a list in which [x] occurs
    once. *)
Lemma fold_left_once {A B} `{EqDecision B} (f : A -> B -> A)
  (Before Post : A -> Prop) (x : B) l :
  (forall a y, y <> x -> Before a -> Before (f a y)) ->
  (forall a, Before a -> Post (f a x)) ->
  (forall a y, y <> x -> Post a -> Post (f a y)) ->
  NoDup l -> x ∈ l ->
  forall a, Before a -> Post (fold_left f l a).
Proof.
  intros Hb Hx Hp. induction l as [|y l IH]; intros Hnd Hin a Ha.
  - by apply elem_of_nil in Hin.
  - apply NoDup_cons in Hnd as [Hy Hnd]. simpl.
    destruct (decide (y = x)) as [->|Hne].
    + apply (fold_left_keeps f Post); [|by apply Hx].
      intros a' z Hz. apply Hp. by intros ->.
    + apply IH; [done| |by apply Hb].
      apply elem_of_cons in Hin as [->|]; done.
Qed.

(** ** update_min_across_word_length *)

(** Every pass writes [min_across_word_length] and nothing else. *)
Lemma min_length_step_proj {X} (P : Square -> X) r st c r' c' :
  (forall m s, P (set_min_across_word_length m s) = P s) ->
  P (board_at (fst (min_length_step r st c)) r' c') = P (board_at (fst st) r' c').
Proof.
  intros HP. destruct st as [board m]. unfold min_length_step.
  repeat case_match; simpl; by apply board_at_alter_proj.
Qed.

Lemma min_length_step_occupied r st c r' c' :
  occupied (fst (min_length_step r st c)) r' c' = occupied (fst st) r' c'.
Proof.
  unfold occupied. f_equal. f_equal.
  by apply (min_length_step_proj letter).
Qed.

Lemma min_length_step_in_board r st c r' c' :
  in_board (fst (min_length_step r st c)) r' c' <-> in_board (fst st) r' c'.
Proof.
  destruct st as [board m]. unfold min_length_step.
  repeat case_match; simpl; apply in_board_alter.
Qed.

Lemma min_length_step_other r st c r' c' :
  r <> r' \/ c <> c' ->
  board_at (fst (min_length_step r st c)) r' c' = board_at (fst st) r' c'.
Proof.
  intros Hne. destruct st as [board m]. unfold min_length_step.
  repeat case_match; simpl; by apply board_at_alter_ne.
Qed.

Lemma min_length_step_right_of_tile r st c :
  in_board (fst st) r c -> occupied (fst st) r (c - 1) = true ->
  min_across_word_length (board_at (fst (min_length_step r st c)) r c) = -1.
Proof.
  intros Hin Hocc. destruct st as [board m]. simpl in *.
  unfold min_length_step. rewrite Hocc. simpl.
  by rewrite board_at_alter_eq.
Qed.

Lemma same_tiles_refl board : same_tiles board board.
Proof. by split. Qed.

Lemma min_length_step_same_tiles board0 r st c :
  same_tiles board0 (fst st) -> same_tiles board0 (fst (min_length_step r st c)).
Proof.
  intros [Ho Hi]. split; intros r' c'.
  - by rewrite min_length_step_occupied.
  - by rewrite min_length_step_in_board.
Qed.

Lemma update_min_row_same_tiles board0 board r :
  same_tiles board0 board -> same_tiles board0 (update_min_row board r).
Proof.
  intros H. unfold update_min_row.
  apply (fold_left_keeps (min_length_step r) (fun st => same_tiles board0 (fst st))); [|done].
  intros st c _. apply min_length_step_same_tiles.
Qed.

Lemma update_min_row_other board r r' c' :
  r <> r' ->
  board_at (update_min_row board r) r' c' = board_at board r' c'.
Proof.
  intros Hne. unfold update_min_row.
  apply (fold_left_keeps (min_length_step r)
           (fun st => board_at (fst st) r' c' = board_at board r' c')); [|done].
  intros st c _ <-. apply min_length_step_other. by left.
Qed.

Lemma update_min_row_right_of_tile board r c :
  1 <= c <= NUM_BOARD_COLS ->
  in_board board r c -> occupied board r (c - 1) = true ->
  min_across_word_length (board_at (update_min_row board r) r c) = -1.
Proof.
  intros Hc Hin Hocc. unfold update_min_row.
  apply (fold_left_settles (min_length_step r)
           (fun st => same_tiles board (fst st))
           (fun st => min_across_word_length (board_at (fst st) r c) = -1) c).
  - intros st y. apply min_length_step_same_tiles.
  - intros st [Ho Hi]. apply min_length_step_right_of_tile.
    + by apply Hi.
    + by rewrite Ho.
  - intros st y Hy _ <-. f_equal. apply min_length_step_other. by right.
  - apply same_tiles_refl.
  - left. unfold cols_right_to_left. apply elem_of_reverse, elem_of_seqZ. lia.
Qed.

(** C2, as amended: after [update_min_across_word_length], every playable
    square whose left neighbour holds a tile, that is every square
    immediately to the right of a tile, has minimum length -1. *)
Theorem update_min_right_of_tile board r c :
  playable r c -> in_board board r c -> occupied board r (c - 1) = true ->
  min_across_word_length
    (board_at (update_min_across_word_length board) r c) = -1.
Proof.
  intros [Hr Hc] Hin Hocc. unfold update_min_across_word_length.
  apply (fold_left_settles update_min_row (same_tiles board)
           (fun b => min_across_word_length (board_at b r c) = -1) r).
  - intros b y. apply update_min_row_same_tiles.
  - intros b [Ho Hi]. apply update_min_row_right_of_tile; [done|by apply Hi|by rewrite Ho].
  - intros b y Hy _ <-. f_equal. by apply update_min_row_other.
  - apply same_tiles_refl.
  - left. apply elem_of_seqZ. unfold NUM_BOARD_ROWS in *. lia.
Qed.

Ltac in_board_tac :=
  repeat split; try lia;
  eexists; split; [vm_compute; reflexivity | vm_compute; lia].

Lemma update_min_right_of_tile_witness :
  min_across_word_length
    (board_at (update_min_across_word_length tile_at_centre) 8 9) = -1.
Proof.
  apply update_min_right_of_tile.
  - unfold playable, NUM_BOARD_ROWS, NUM_BOARD_COLS. lia.
  - in_board_tac.
  - reflexivity.
Defined.

(** C2, as stated, fails: the square immediately to the left of the tile at
    (8, 8) gets 1, not -1. *)
Lemma left_of_tile_not_minus_one :
  ~ (forall board r c,
       playable r c -> in_board board r c -> occupied board r (c + 1) = true ->
       min_across_word_length
         (board_at (update_min_across_word_length board) r c) = -1).
Proof.
  intros H. specialize (H tile_at_centre 8 7).
  assert (Hmin : min_across_word_length
            (board_at (update_min_across_word_length tile_at_centre) 8 7) = 1)
    by (vm_compute; reflexivity).
  rewrite H in Hmin; [discriminate| | |].
  - unfold playable, NUM_BOARD_ROWS, NUM_BOARD_COLS. lia.
  - in_board_tac.
  - reflexivity.
Qed.

(** ** calc_across_pts *)

Section Scorer.
Context {G : Globals}.

Lemma times_each_pow k n pts : 0 <= n -> times_each k n pts = pts * k ^ n.
Proof.
  intros Hn. unfold times_each.
  rewrite <- (Z2Nat.id n) at 2 by done.
  induction (Z.to_nat n) as [|m IH]; simpl Nat.iter.
  - simpl. lia.
  - rewrite IH, Nat2Z.inj_succ, Z.pow_succ_r by lia. lia.
Qed.

Lemma count_type_cons board ty sq across_move :
  count_type board ty (sq :: across_move) =
  (if SquareType_eqb (type (board_at board (row sq) (col sq))) ty then 1 else 0)
  + count_type board ty across_move.
Proof.
  unfold count_type. rewrite filter_cons.
  destruct (SquareType_eqb _ ty) eqn:E; case_decide; try done; simpl length; lia.
Qed.

Lemma count_type_nonneg board ty across_move :
  0 <= count_type board ty across_move.
Proof. unfold count_type. lia. Qed.

(** The two counters of the loop over the move count the double word and the
    triple word squares under it. *)
Lemma score_square_counts board across_move : forall t,
  num_double_word (fold_left (score_square board) across_move t)
    = num_double_word t + count_type board double_word across_move /\
  num_triple_word (fold_left (score_square board) across_move t)
    = num_triple_word t + count_type board triple_word across_move.
Proof.
  induction across_move as [|sq m IH]; intros t.
  - unfold count_type. simpl. lia.
  - simpl fold_left. destruct (IH (score_square board t sq)) as [-> ->].
    rewrite !count_type_cons. unfold score_square.
    destruct (type (board_at board (row sq) (col sq))); simpl; lia.
Qed.

(** C5: the word bonuses compound. With [d] double word and [t] triple word
    squares under the tiles of a move, [calc_across_pts] multiplies the
    points of the primary word by [2 ^ d * 3 ^ t]; one square of each kind
    multiplies them by 6. *)
Theorem calc_across_pts_compounds board across_move :
  (0 < length across_move)%nat ->
  let d := count_type board double_word across_move in
  let t := count_type board triple_word across_move in
  calc_across_pts board across_move
    = row_pts_before_bonus board across_move * (2 ^ d * 3 ^ t)
      + total_cross_pts (move_totals board across_move) + bingo across_move
  /\ (d = 1 -> t = 1 ->
      calc_across_pts board across_move
        = row_pts_before_bonus board across_move * 6
          + total_cross_pts (move_totals board across_move)
          + bingo across_move).
Proof.
  intros Hlen d t.
  assert (Heq : calc_across_pts board across_move
    = row_pts_before_bonus board across_move * (2 ^ d * 3 ^ t)
      + total_cross_pts (move_totals board across_move) + bingo across_move).
  { destruct across_move as [|sq m]; [simpl in Hlen; lia|].
    unfold calc_across_pts, bingo.
    destruct (score_square_counts board (sq :: m) (mkTotals 0 0 0 0)) as [Hd Ht].
    fold (move_totals board (sq :: m)) in Hd, Ht. simpl in Hd, Ht.
    rewrite Hd, Ht.
    rewrite !times_each_pow by apply count_type_nonneg.
    fold d t. rewrite !Z.add_0_l. destruct (7 <=? _); ring. }
  split; [done|].
  intros Hd Ht. rewrite Heq, Hd, Ht. reflexivity.
Qed.

End Scorer.


Lemma calc_across_pts_compounds_witness :
  @calc_across_pts bat_game bonus_board at_move
  = @row_pts_before_bonus bat_game bonus_board at_move * 6
    + total_cross_pts (@move_totals bat_game bonus_board at_move)
    + bingo at_move.
Proof.
  apply (@calc_across_pts_compounds bat_game bonus_board at_move);
    [simpl; lia | reflexivity | reflexivity].
Defined.

(** ** find_best_move on a board with tiles *)

Lemma elem_of_board_cells r c : (r, c) ∈ board_cells <-> playable r c.
Proof.
  unfold board_cells, playable. rewrite list_elem_of_bind. split.
  - intros (r' & Hc & Hr). apply list_elem_of_bind in Hc as (c' & Hrc & Hc).
    apply list_elem_of_singleton in Hrc as [= -> ->].
    apply elem_of_seqZ in Hr, Hc. lia.
  - intros [Hr Hc]. exists r. split; [|apply elem_of_seqZ; lia].
    apply list_elem_of_bind. exists c. split; [by apply list_elem_of_singleton|].
    apply elem_of_seqZ; lia.
Qed.

Lemma has_tile_true board :
  has_tile board = true <-> exists r c, playable r c /\ occupied board r c = true.
Proof.
  unfold has_tile. rewrite existsb_exists. split.
  - intros ([r c] & Hin & Hocc). exists r, c. split; [|done].
    by apply elem_of_board_cells, list_elem_of_In.
  - intros (r & c & Hp & Hocc). exists (r, c). split; [|done].
    by apply list_elem_of_In, elem_of_board_cells.
Qed.

Section Select.
Context {G : Globals}.

(** C3, as amended: on a board with a tile, [find_best_move] returns the
    across move when its points are strictly higher than those of the down
    move, and the down move otherwise; on equal points it returns the down
    (vertical) move. *)
Theorem find_best_move_selects fuel board rack st best_across_move best_down_move :
  (exists r c, playable r c /\ occupied board r c = true) ->
  find_best_across_move fuel board rack = Some best_across_move ->
  find_best_down_move fuel board rack = Some best_down_move ->
  let best_across_pts := calc_across_pts board best_across_move in
  let best_down_pts := calc_down_pts board best_down_move in
  exists s, find_best_move fuel board rack st = Some s /\
    (best_down_pts < best_across_pts ->
       best_move s = best_across_move /\ best_pts s = best_across_pts) /\
    (best_across_pts <= best_down_pts ->
       best_move s = best_down_move /\ best_pts s = best_down_pts).
Proof.
  intros Htile Ha Hd pa pd. apply has_tile_true in Htile.
  unfold find_best_move. rewrite Htile, Ha, Hd. fold pa pd.
  destruct (Z.gtb_spec pa pd); eexists; (split; [reflexivity|]); simpl;
    split; intros; (done || lia).
Qed.

End Select.

Lemma find_best_move_selects_witness :
  exists s, @find_best_move bat_game 18 bat_board bat_rack no_best = Some s /\
    placed (best_move s) = [(7, 8, "B"%char); (9, 8, "T"%char)] /\
    best_pts s = 5.
Proof.
  destruct (@find_best_move_selects bat_game 18 bat_board bat_rack no_best
              (@add_sqr_to_move bat_game 8 9 "T"%char
                 (@add_sqr_to_move bat_game 8 7 "B"%char []))
              (@add_sqr_to_move bat_game 9 8 "T"%char
                 (@add_sqr_to_move bat_game 7 8 "B"%char [])))
    as (s & Hs & _ & Hle).
  - exists 8, 8. split; [unfold playable, NUM_BOARD_ROWS, NUM_BOARD_COLS; lia|vm_compute; reflexivity].
  - vm_compute. reflexivity.
  - vm_compute. reflexivity.
  - exists s. split; [exact Hs|].
    destruct Hle as [Hm Hp]; [vm_compute; discriminate|].
    rewrite Hm, Hp. split; vm_compute; reflexivity.
Defined.

(** C3, as stated, fails: with the tile A on the centre, the words BAT, BA
    and AT and the rack B, T, the across and the down move both score 5 and
    [find_best_move] returns the down move. *)
Lemma tie_returns_down_move :
  exists best_across_move best_down_move s,
    @find_best_across_move bat_game 18 bat_board bat_rack = Some best_across_move /\
    @find_best_down_move bat_game 18 bat_board bat_rack = Some best_down_move /\
    @calc_across_pts bat_game bat_board best_across_move
      = @calc_down_pts bat_game bat_board best_down_move /\
    placed best_across_move = [(8, 7, "B"%char); (8, 9, "T"%char)] /\
    @find_best_move bat_game 18 bat_board bat_rack no_best = Some s /\
    placed (best_move s) = [(7, 8, "B"%char); (9, 8, "T"%char)] /\
    best_move s <> best_across_move.
Proof.
  do 3 eexists.
  split; [vm_compute; reflexivity|].
  split; [vm_compute; reflexivity|].
  split; [vm_compute; reflexivity|].
  split; [vm_compute; reflexivity|].
  split; [vm_compute; reflexivity|].
  split; [vm_compute; reflexivity|].
  vm_compute. discriminate.
Qed.

(** ** The first move *)

Lemma mid_col_eq : mid_col = 8.
Proof. reflexivity. Qed.

Lemma mid_row_eq : mid_row = 8.
Proof. reflexivity. Qed.

Lemma opening_assign_in_board board c r' c' :
  in_board (opening_assign board c) r' c' <-> in_board board r' c'.
Proof.
  unfold opening_assign. case_match; rewrite ?in_board_alter; done.
Qed.

Lemma opening_assign_min board c :
  in_board board mid_row c ->
  min_across_word_length (board_at (opening_assign board c) mid_row c)
  = if c =? mid_col then 2 else mid_col - c + 1.
Proof.
  intros Hin. unfold opening_assign.
  destruct (Z.eqb_spec c mid_col) as [->|Hne].
  - rewrite board_at_alter_eq; [done|]. by apply in_board_alter.
  - by rewrite board_at_alter_eq.
Qed.

Lemma opening_boards_in_board board n r' c' :
  in_board (opening_boards board n) r' c' <-> in_board board r' c'.
Proof.
  unfold opening_boards.
  apply (fold_left_keeps opening_assign
           (fun b => in_board b r' c' <-> in_board board r' c')); [|done].
  intros b y _ <-. apply opening_assign_in_board.
Qed.

Lemma opening_boards_succ board c :
  0 <= c -> opening_boards board (c + 1) = opening_assign (opening_boards board c) (c + 1).
Proof.
  intros Hc. unfold opening_boards.
  rewrite seqZ_app by lia. rewrite fold_left_app.
  rewrite (seqZ_cons (1 + c)) by lia. rewrite seqZ_nil by lia. simpl.
  by rewrite Z.add_comm.
Qed.

Section Opening.
Context {G : Globals}.

(** One pass of the loop, seen from the column it handles. *)
Lemma opening_step_call fuel rack board st c :
  in_board board mid_row c -> 1 <= c <= mid_col ->
  opening_step fuel rack (board, st) c
  = if c =? 1 then Some (opening_assign board c, st)
    else
      let board' := opening_assign board c in
      let m := if c =? mid_col then 2 else distance_to_centre c + 1 in
      (fun st' => (board', st')) <$>
      extend_right fuel board' rack global_trie_root
        (board_at board' mid_row c) m [] st.
Proof.
  intros Hin Hc. unfold opening_step.
  rewrite opening_assign_min by done.
  unfold distance_to_centre. rewrite mid_col_eq in *.
  destruct (Z.eqb_spec c 1) as [->|Hne1]; [done|].
  destruct (Z.eqb_spec c 8) as [->|Hnem].
  - simpl. destruct (extend_right _ _ _ _ _ _ _ _); reflexivity.
  - replace (Z.abs (8 - c)) with (8 - c) by lia.
    replace (worth_trying (8 - c + 1)) with true.
    + simpl. destruct (extend_right _ _ _ _ _ _ _ _); reflexivity.
    + unfold worth_trying, NUM_RACK_TILES. symmetry. apply andb_true_iff. split; [lia|].
      apply negb_true_iff. lia.
Qed.

Lemma opening_call_eq fuel board rack st c :
  opening_call fuel board rack st c
  = extend_right fuel (opening_boards board c) rack global_trie_root
      (board_at (opening_boards board c) mid_row c)
      (if c =? mid_col then 2 else distance_to_centre c + 1) [] st.
Proof. reflexivity. Qed.

Lemma opening_fold fuel board rack :
  (forall c, 1 <= c <= mid_col -> in_board board mid_row c) ->
  forall (n : nat) k st, 1 <= k -> k + Z.of_nat n <= mid_col ->
  snd <$> fold_opt (opening_step fuel rack) (seqZ (k + 1) (Z.of_nat n))
            (opening_boards board k, st)
  = fold_opt (opening_call fuel board rack) (seqZ (k + 1) (Z.of_nat n)) st.
Proof.
  intros Hin. induction n as [|n IH]; intros k st Hk Hn.
  - reflexivity.
  - rewrite seqZ_cons by lia. rewrite !fold_opt_cons.
    rewrite opening_step_call; [|apply opening_boards_in_board, Hin; lia|lia].
    destruct (Z.eqb_spec (k + 1) 1); [lia|].
    rewrite opening_call_eq, <- opening_boards_succ by lia.
    cbv zeta.
    destruct (extend_right _ _ _ _ _ _ _ _) as [st'|]; [|reflexivity].
    simpl. replace (Z.pred (Z.of_nat (S n))) with (Z.of_nat n) by lia.
    replace (Z.succ (k + 1)) with ((k + 1) + 1) by lia.
    apply IH; lia.
Qed.

(** C6, as amended: on a board without tiles the square in column [c] of
    the middle row is given the minimum length [distance + 1], the centre
    square 2, and [find_best_move] calls [extend_right] from the squares of
    the columns 2 to 8 of the middle row and from no other (column 1 would
    need 8 tiles). *)
Theorem opening_search_calls fuel board rack st :
  has_tile board = false ->
  (forall c, 1 <= c <= mid_col -> in_board board mid_row c) ->
  (forall c, 1 <= c <= mid_col ->
     min_across_word_length
       (board_at (opening_boards board c) mid_row c)
     = if c =? mid_col then 2 else distance_to_centre c + 1) /\
  find_best_move fuel board rack st
  = fold_opt (opening_call fuel board rack) (seqZ 2 (mid_col - 1)) st.
Proof.
  intros Hempty Hin. split.
  - intros c Hc. replace c with ((c - 1) + 1) at 1 by lia.
    rewrite opening_boards_succ by lia.
    replace (c - 1 + 1) with c by lia.
    rewrite opening_assign_min by (apply opening_boards_in_board, Hin; lia).
    unfold distance_to_centre. destruct (c =? mid_col); [done|lia].
  - unfold find_best_move, opening_search. rewrite Hempty.
    rewrite mid_col_eq. rewrite (seqZ_cons 1 8) by lia. rewrite fold_opt_cons.
    rewrite opening_step_call; [|apply Hin; rewrite mid_col_eq; lia
                                |rewrite mid_col_eq; lia].
    simpl (1 =? 1). cbv iota.
    change (opening_assign board 1) with (opening_boards board 1).
    apply (opening_fold fuel board rack Hin 7 1 st); rewrite ?mid_col_eq; lia.
Qed.

End Opening.

Lemma opening_search_calls_witness :
  @find_best_move bat_game 18 (fresh_board plain_layout) bat_rack no_best
  = fold_opt (@opening_call bat_game 18 (fresh_board plain_layout) bat_rack)
      (seqZ 2 (mid_col - 1)) no_best.
Proof.
  apply (@opening_search_calls bat_game 18 (fresh_board plain_layout) bat_rack no_best).
  - vm_compute. reflexivity.
  - intros c Hc. rewrite mid_col_eq in Hc. rewrite mid_row_eq.
    repeat split; try lia.
    eexists. split; [vm_compute; reflexivity|]. simpl. lia.
Defined.

(** C6, as stated, fails: the square next to the centre is at distance 1
    and is given the minimum length 2. *)
Lemma opening_min_is_not_distance :
  ~ (forall c, 1 <= c < mid_col ->
       min_across_word_length
         (board_at (opening_boards (fresh_board plain_layout) c) mid_row c)
       = distance_to_centre c).
Proof.
  intros H. specialize (H 7 ltac:(rewrite mid_col_eq; lia)).
  vm_compute in H. discriminate.
Qed.


(** ** Stale cross-checks *)

(** C1 fails on the code: [invert_board] hands [swap_squares bat_board] to
    [update_down_cross_checks]. On the board that comes back, the empty
    square (8, 7) has no tile above and none below, yet T is not marked
    legal there: the set it carried over from the square (7, 8) of the board
    before the swap is left as it was. *)
Lemma update_down_cross_checks_leaves_stale_set :
  let board := @update_down_cross_checks bat_game (swap_squares bat_board) in
  letter (board_at board 8 7) = dot /\
  above_of board 8 7 = EmptyString /\
  below_of board 8 7 = EmptyString /\
  vec_at false (down_cross_check (board_at board 8 7)) (letter_index "T") = false.
Proof. vm_compute. repeat split; reflexivity. Qed.

(** What the stale sets cost: with the single word CAT and the rack C, T the
    across search lays C and T around the A, the down search finds no move. *)
Lemma stale_set_hides_down_move :
  placed <$> @find_best_across_move cat_game 18 cat_board (fill_rack "CT")
    = Some [(8, 7, "C"%char); (8, 9, "T"%char)] /\
  @find_best_down_move cat_game 18 cat_board (fill_rack "CT") = Some [].
Proof. split; vm_compute; reflexivity. Qed.

(** ** add_move_to_board *)

(** C8 fails on the code: [add_move_to_board] assigns whole squares, so the
    type of a square on which a tile is laid becomes whatever the type field
    of the square of the move holds, which [add_sqr_to_move] never sets. The
    double word square and the triple word square under this move end up
    with one and the same type. *)
Lemma add_move_to_board_overwrites_type :
  type (board_at bonus_board 8 8) = double_word /\
  type (board_at bonus_board 8 9) = triple_word /\
  forall ty n,
    let G := mkGlobals [] standard_tiles ty n in
    let _move := add_sqr_to_move 8 9 "T" (add_sqr_to_move 8 8 "A" []) in
    let board := add_move_to_board bonus_board _move in
    type (board_at board 8 8) = ty /\ type (board_at board 8 9) = ty.
Proof.
  split; [reflexivity|]. split; [reflexivity|].
  intros ty n. destruct ty; vm_compute; split; reflexivity.
Qed.

(** ** The search: backtracking *)

Lemma vec_alter_undo {A} (f g : A -> A) v i :
  (forall x, g (f x) = x) -> vec_alter g (vec_alter f v i) i = v.
Proof.
  intros Hgf. unfold vec_alter. destruct (i <? 0); [done|].
  rewrite list_alter_alter_eq. apply list_alter_id. intros x. apply Hgf.
Qed.

Lemma rack_restored (rack : list Z) i :
  vec_alter Z.succ (vec_alter Z.pred rack i) i = rack.
Proof. apply vec_alter_undo. intros x. lia. Qed.

Section Backtracking.
Context {G : Globals}.

Lemma move_restored r c ltr curr_move :
  pop_back (add_sqr_to_move r c ltr curr_move) = curr_move.
Proof. unfold pop_back, add_sqr_to_move. apply removelast_last. Qed.

(** One pass of the loop is the call it makes, if it makes one, and leaves
    the rack and the move as it found them. *)
Lemma try_child_tentative self board sqr rack curr_move st child :
  try_child self board sqr (rack, curr_move, st) child
  = match tentative rack sqr child with
    | Some (i, ltr) =>
        (fun st' => (rack, curr_move, st')) <$>
        self (vec_alter Z.pred rack i) child
             (board_at board (row sqr) (col sqr + 1))
             (add_sqr_to_move (row sqr) (col sqr) ltr curr_move) st
    | None => Some (rack, curr_move, st)
    end.
Proof.
  unfold try_child, tentative.
  destruct (_ && _).
  - destruct (self _ _ _ _ _); simpl; [|done].
    by rewrite move_restored, rack_restored.
  - destruct (_ && _); [|done].
    destruct (self _ _ _ _ _); simpl; [|done].
    by rewrite move_restored, rack_restored.
Qed.

Lemma children_loop_subcalls self board sqr min_word_length rack curr_move :
  forall nodes st,
  fold_opt (try_child self board sqr) nodes (rack, curr_move, st)
  = (fun st' => (rack, curr_move, st')) <$>
    fold_opt
      (fun st cl =>
         self (call_rack cl) (call_node cl) (call_square cl) (call_move cl) st)
      (omap
         (fun child =>
            match tentative rack sqr child with
            | Some (i, ltr) =>
                Some (mkCall (vec_alter Z.pred rack i) child
                        (board_at board (row sqr) (col sqr + 1)) min_word_length
                        (add_sqr_to_move (row sqr) (col sqr) ltr curr_move))
            | None => None
            end) nodes) st.
Proof.
  induction nodes as [|child nodes IH]; intros st; [done|].
  rewrite fold_opt_cons, try_child_tentative. simpl omap.
  destruct (tentative rack sqr child) as [[i ltr]|]; simpl.
  - destruct (self _ _ _ _ _) as [st'|]; simpl; [apply IH|done].
  - apply IH.
Qed.

Lemma subcalls_min board rack node sqr min_word_length curr_move cl :
  cl ∈ subcalls board rack node sqr min_word_length curr_move ->
  call_min cl = min_word_length.
Proof.
  unfold subcalls. rewrite list_elem_of_omap. intros (child & _ & Hcl).
  destruct (tentative rack sqr child) as [[i ltr]|]; [|done].
  by injection Hcl as <-.
Qed.

(** A call enters, scores the move if it is complete, and then makes its
    recursive calls one after the other. *)
Lemma extend_right_unfold fuel board cl st :
  run_call (S fuel) board st cl
  = fold_opt (run_call fuel board) (callees board cl) (arrive board cl st).
Proof.
  destruct cl as [rack node cs m mv]. unfold run_call at 1, callees, arrive,
    complete_move, square_of. simpl.
  destruct (SquareType_eqb _ outside); [done|]. simpl.
  destruct (is_dot _); simpl.
  - rewrite (children_loop_subcalls _ board _ m).
    fold (subcalls board rack node (board_at board (row cs) (col cs)) m mv).
    rewrite (fold_opt_ext _ (run_call fuel board)).
    + by destruct (fold_opt _ _ _).
    + intros st' cl Hcl. unfold run_call.
      by rewrite (subcalls_min _ _ _ _ _ _ _ Hcl).
  - destruct (negb _); [|done]. simpl.
    unfold run_call. simpl. by destruct (extend_right _ _ _ _ _ _ _ _).
Qed.

(** What every call keeps, the search keeps. *)
Theorem search_invariant board (Pre : Call -> Prop) (Inv : Search -> Prop) :
  (forall cl c', Pre cl -> c' ∈ callees board cl -> Pre c') ->
  (forall cl st, Pre cl -> Inv st -> Inv (arrive board cl st)) ->
  forall fuel cl st st',
    Pre cl -> Inv st -> run_call fuel board st cl = Some st' -> Inv st'.
Proof.
  intros Hpre Hinv. induction fuel as [|fuel IH]; intros cl st st' Hcl Hst.
  - by destruct cl.
  - rewrite extend_right_unfold.
    apply (fold_opt_inv (run_call fuel board) Inv); [|by apply Hinv].
    intros s c' s' Hc' Hs. apply IH; [by eapply Hpre|done].
Qed.

(** *** Termination on a board whose squares know their places *)

Lemma not_outside_in_board board r c :
  SquareType_eqb (type (board_at board r c)) outside = false ->
  in_board board r c.
Proof.
  unfold board_at, vec_at, in_board.
  destruct (Z.ltb_spec r 0); [by destruct (c <? 0)|].
  destruct (board !! Z.to_nat r) as [rw|] eqn:Hrw; simpl;
    [|by destruct (c <? 0)].
  destruct (Z.ltb_spec c 0); [done|].
  destruct (rw !! Z.to_nat c) as [sq|] eqn:Hsq; simpl; [|done].
  intros _. repeat split; try done. exists rw. split; [done|].
  by eapply lookup_lt_Some.
Qed.

Lemma board_at_cases board r c :
  in_board board r c \/ board_at board r c = sentinel.
Proof.
  unfold board_at, vec_at, in_board.
  destruct (Z.ltb_spec r 0); [right; by destruct (c <? 0)|].
  destruct (board !! Z.to_nat r) as [rw|] eqn:Hrw; simpl;
    [|right; by destruct (c <? 0)].
  destruct (Z.ltb_spec c 0); [by right|].
  destruct (rw !! Z.to_nat c) as [sq|] eqn:Hsq; simpl; [|by right].
  left. repeat split; try done. exists rw. split; [done|].
  by eapply lookup_lt_Some.
Qed.

(** The place at which a call looks, when it is a place of the board. *)
Lemma in_board_square board r c :
  coords_ok board ->
  in_board board (row (board_at board r c)) (col (board_at board r c)) ->
  in_board board r c /\
  row (board_at board r c) = r /\ col (board_at board r c) = c.
Proof.
  intros Hok Hin. destruct (board_at_cases board r c) as [Hrc|Hs].
  - split; [done|]. by apply Hok.
  - rewrite Hs in Hin. destruct Hin as (Hr & _). simpl in Hr. lia.
Qed.

Lemma callees_square board cl c' :
  coords_ok board -> c' ∈ callees board cl ->
  in_board board (row (call_square cl)) (col (call_square cl)) /\
  call_square c'
  = board_at board (row (call_square cl)) (col (call_square cl) + 1).
Proof.
  intros Hok. unfold callees, square_of.
  destruct (SquareType_eqb _ outside) eqn:Hout; [by intros ?%elem_of_nil|].
  apply not_outside_in_board in Hout as Hin.
  destruct (Hok _ _ Hin) as [Hr Hc]. split; [done|].
  destruct (is_dot _).
  - unfold subcalls in H. apply list_elem_of_omap in H as (child & _ & H).
    destruct (tentative _ _ child) as [[i ltr]|]; [|done].
    injection H as <-. simpl. by rewrite Hr, Hc.
  - destruct (negb _); [|by apply elem_of_nil in H].
    by apply list_elem_of_singleton in H as ->.
Qed.

Lemma in_board_col board w r c :
  width_le board w -> in_board board r c -> 0 <= c < Z.of_nat w.
Proof.
  intros Hw (_ & Hc & rw & Hrw & Hlen).
  assert (length rw <= w)%nat by (apply Hw; by eapply list_elem_of_lookup_2).
  lia.
Qed.

Lemma run_call_returns_from board w :
  coords_ok board -> width_le board w ->
  forall fuel cl st,
    (0 < fuel)%nat ->
    (in_board board (row (call_square cl)) (col (call_square cl)) ->
     Z.of_nat w - col (call_square cl) < Z.of_nat fuel) ->
    is_Some (run_call fuel board st cl).
Proof.
  intros Hok Hw. induction fuel as [|fuel IH]; intros cl st Hpos Hfuel; [lia|].
  rewrite extend_right_unfold. apply fold_opt_is_Some.
  intros s c' Hc'. destruct (callees_square _ _ _ Hok Hc') as [Hin Hsq].
  specialize (Hfuel Hin). pose proof (in_board_col _ _ _ _ Hw Hin).
  apply IH; [lia|]. rewrite Hsq. intros Hin'.
  apply in_board_square in Hin' as (Hin' & _ & ->); [|done].
  pose proof (in_board_col _ _ _ _ Hw Hin'). lia.
Qed.

(** With more fuel than the board is wide, every call returns. *)
Theorem run_call_returns board w fuel cl st :
  coords_ok board -> width_le board w -> (w < fuel)%nat ->
  is_Some (run_call fuel board st cl).
Proof.
  intros Hok Hw Hfuel. apply (run_call_returns_from board w); [done|done|lia|].
  intros Hin. pose proof (in_board_col _ _ _ _ Hw Hin). lia.
Qed.

End Backtracking.

(** ** The search: racks *)

Lemma rack_after_take (rack : list Z) i :
  Forall (Z.le 0) rack -> 0 < vec_at 0 rack i ->
  Forall (Z.le 0) (vec_alter Z.pred rack i).
Proof.
  intros Hrack Hpos. unfold vec_alter, vec_at in *.
  destruct (i <? 0); [done|].
  apply Forall_alter; [done|]. intros x Hx _. rewrite Hx in Hpos. simpl in Hpos. lia.
Qed.

Lemma tentative_has_tile rack sqr child i ltr :
  tentative rack sqr child = Some (i, ltr) -> 0 < vec_at 0 rack i.
Proof.
  unfold tentative.
  destruct (vec_at false (down_cross_check sqr) _);
    rewrite ?andb_true_r, ?andb_false_r; [|intros [=]].
  destruct (Z.ltb_spec 0 (vec_at 0 rack (letter_index (node_letter child)))).
  - by intros [= <- _].
  - destruct (Z.ltb_spec 0 (vec_at 0 rack 26)); intros Heq; inversion Heq.
    by subst.
Qed.

Section Racks.
Context {G : Globals}.

Lemma calls_arrive board cl st : calls (arrive board cl st) = calls st ++ [cl].
Proof.
  unfold arrive, record_move. destruct (complete_move board cl); [|done].
  by destruct (_ >? _).
Qed.

Lemma callees_rack board cl c' :
  Forall (Z.le 0) (call_rack cl) -> c' ∈ callees board cl ->
  Forall (Z.le 0) (call_rack c').
Proof.
  intros Hrack. unfold callees.
  destruct (SquareType_eqb _ outside); [by intros ?%elem_of_nil|].
  destruct (is_dot _).
  - unfold subcalls. intros (child & _ & H)%list_elem_of_omap.
    destruct (tentative _ _ child) as [[i ltr]|] eqn:E; [|done].
    injection H as <-. simpl. apply rack_after_take; [done|].
    by eapply tentative_has_tile.
  - destruct (negb _); [|by intros ?%elem_of_nil].
    by intros ->%list_elem_of_singleton.
Qed.

(** C9: from a rack without a negative count, no call of the search is
    entered with a negative count on its rack; and every pass of the loop
    over the children, and so the loop, leaves the rack and the move of
    the call as they were before it. *)
Theorem extend_right_backtracks fuel board rack node curr_square
  min_word_length curr_move st st' :
  Forall (Z.le 0) rack ->
  Forall (fun cl => Forall (Z.le 0) (call_rack cl)) (calls st) ->
  extend_right fuel board rack node curr_square min_word_length curr_move st
    = Some st' ->
  Forall (fun cl => Forall (Z.le 0) (call_rack cl)) (calls st') /\
  (forall self sqr nodes rack0 move0 st0 rack1 move1 st1,
     fold_opt (try_child self board sqr) nodes (rack0, move0, st0)
       = Some (rack1, move1, st1) ->
     rack1 = rack0 /\ move1 = move0).
Proof.
  intros Hrack Hcalls Hrun. split.
  - revert Hrun.
    change (extend_right fuel board rack node curr_square min_word_length
              curr_move st)
      with (run_call fuel board st
              (mkCall rack node curr_square min_word_length curr_move)).
    apply (search_invariant board
             (fun cl => Forall (Z.le 0) (call_rack cl))
             (fun st => Forall (fun cl => Forall (Z.le 0) (call_rack cl))
                          (calls st))); [| |done|done].
    + intros cl c'. apply callees_rack.
    + intros cl s Hcl Hs. rewrite calls_arrive.
      apply Forall_app. split; [done|by constructor].
  - intros self sqr nodes rack0 move0 st0 rack1 move1 st1.
    rewrite (children_loop_subcalls self board sqr 0).
    destruct (fold_opt _ _ _); [|done]. by intros [= <- <- _].
Qed.

End Racks.

Lemma extend_right_backtracks_witness :
  exists st',
    @extend_right bat_game 18 bat_board bat_rack (@global_trie_root bat_game)
      (board_at bat_board 8 7) 1 [] no_best = Some st' /\
    Forall (fun cl => Forall (Z.le 0) (call_rack cl)) (calls st').
Proof.
  destruct (@extend_right bat_game 18 bat_board bat_rack (@global_trie_root bat_game)
      (board_at bat_board 8 7) 1 [] no_best) as [st'|] eqn:E;
    [|vm_compute in E; discriminate].
  exists st'. split; [reflexivity|].
  apply (@extend_right_backtracks bat_game 18 bat_board bat_rack
           (@global_trie_root bat_game) (board_at bat_board 8 7) 1 [] no_best st').
  - vm_compute. repeat constructor; discriminate.
  - constructor.
  - exact E.
Defined.

(** ** The search: the best move and the order of the calls *)

Section Order.
Context {G : Globals}.

Lemma arrive_improves board cl st :
  best_pts st <= best_pts (arrive board cl st) /\
  (best_pts (arrive board cl st) = best_pts st ->
   best_move (arrive board cl st) = best_move st).
Proof.
  unfold arrive, record_move. destruct (complete_move board cl); [|done].
  simpl. destruct (Z.gtb_spec (calc_across_pts board (call_move cl)) (best_pts st));
    simpl; split; (done || lia).
Qed.

(** The best move is replaced only by a move with strictly more points. *)
Lemma run_call_improves fuel board cl st st' :
  run_call fuel board st cl = Some st' ->
  best_pts st <= best_pts st' /\
  (best_pts st' = best_pts st -> best_move st' = best_move st).
Proof.
  apply (search_invariant board (fun _ => True)
           (fun s => best_pts st <= best_pts s /\
                     (best_pts s = best_pts st -> best_move s = best_move st)));
    [done| |done|done].
  intros c s _ [Hle Heq]. destruct (arrive_improves board c s) as [Hle' Heq'].
  split; [lia|]. intros E. rewrite Heq', Heq; (done || lia).
Qed.

Lemma subcalls_nodes board rack node sqr min_word_length curr_move :
  map call_node (subcalls board rack node sqr min_word_length curr_move)
    `sublist_of` children node.
Proof.
  unfold subcalls. induction (children node) as [|child nodes IH]; [done|].
  simpl. destruct (tentative rack sqr child) as [[i ltr]|]; simpl.
  - by apply sublist_skip.
  - by apply sublist_cons.
Qed.

Lemma subcalls_letter board rack node sqr min_word_length curr_move cl :
  cl ∈ subcalls board rack node sqr min_word_length curr_move ->
  let child_letter := node_letter (call_node cl) in
  if 0 <? vec_at 0 rack (letter_index child_letter)
  then laid_letter cl = child_letter
  else laid_letter cl = tolower child_letter /\ 0 < vec_at 0 rack 26.
Proof.
  unfold subcalls. intros (child & _ & H)%list_elem_of_omap.
  unfold tentative in H.
  destruct (vec_at false (down_cross_check sqr) _);
    rewrite ?andb_true_r, ?andb_false_r in H; [|done].
  unfold laid_letter, last_square, add_sqr_to_move.
  destruct (Z.ltb_spec 0 (vec_at 0 rack (letter_index (node_letter child)))) as [Hpos|Hnone].
  - injection H as <-. cbn [call_move call_node].
    destruct (Z.ltb_spec 0 (vec_at 0 rack (letter_index (node_letter child))));
      [|lia].
    unfold add_sqr_to_move. by rewrite last_last.
  - destruct (Z.ltb_spec 0 (vec_at 0 rack 26)); [|done].
    injection H as <-. cbn [call_move call_node].
    destruct (Z.ltb_spec 0 (vec_at 0 rack (letter_index (node_letter child))));
      [lia|].
    unfold add_sqr_to_move. by rewrite last_last.
Qed.

(** C4, as amended: the search keeps one best move and replaces it only by
    a move with strictly more points, so of moves with equal points the one
    found first stays. On an empty square it makes its recursive calls for
    the children of the trie node in the order in which the node stores
    them (the order in which the letters were first inserted), and for each
    child it lays the real letter when the rack holds one, a blank only
    when the rack holds none. *)
Theorem extend_right_search_order fuel board rack node curr_square
  min_word_length curr_move st :
  let cl := mkCall rack node curr_square min_word_length curr_move in
  let sqr := board_at board (row curr_square) (col curr_square) in
  let made := subcalls board rack node sqr min_word_length curr_move in
  (forall st',
     extend_right fuel board rack node curr_square min_word_length curr_move st
       = Some st' ->
     best_pts st <= best_pts st' /\
     (best_pts st' = best_pts st -> best_move st' = best_move st)) /\
  (SquareType_eqb (type sqr) outside = false -> is_dot (letter sqr) = true ->
   extend_right (S fuel) board rack node curr_square min_word_length curr_move st
     = fold_opt (run_call fuel board) made (arrive board cl st)) /\
  map call_node made `sublist_of` children node /\
  (forall c', c' ∈ made ->
     let child_letter := node_letter (call_node c') in
     if 0 <? vec_at 0 rack (letter_index child_letter)
     then laid_letter c' = child_letter
     else laid_letter c' = tolower child_letter /\ 0 < vec_at 0 rack 26).
Proof.
  intros cl sqr made. repeat split.
  - by apply (run_call_improves fuel board cl st st').
  - by apply (run_call_improves fuel board cl st st').
  - intros Hin Hdot.
    change (extend_right (S fuel) board rack node curr_square min_word_length
              curr_move st) with (run_call (S fuel) board st cl).
    rewrite extend_right_unfold. unfold callees, square_of. simpl.
    fold sqr. by rewrite Hin, Hdot.
  - apply subcalls_nodes.
  - intros c'. apply subcalls_letter.
Qed.

End Order.

Lemma extend_right_search_order_witness :
  let board := fresh_board plain_layout in
  let rack := fill_rack "AB*" in
  let root := @global_trie_root bat_act_game in
  @extend_right bat_act_game 18 board rack root (board_at board 8 8) 2 [] no_best
  = fold_opt (@run_call bat_act_game 17 board)
      (@subcalls bat_act_game board rack root (board_at board 8 8) 2 [])
      (@arrive bat_act_game board (mkCall rack root (board_at board 8 8) 2 []) no_best).
Proof.
  intros board rack root.
  apply (@extend_right_search_order bat_act_game 17 board rack root
           (board_at board 8 8) 2 [] no_best); vm_compute; reflexivity.
Defined.

(** C4, as stated, fails: with the words BAT and ACT inserted in this order
    and the rack A, B and a blank, the search lays B on the first square
    before it lays A, and it never lays the blank there. *)
Lemma children_not_tried_alphabetically :
  let board := fresh_board plain_layout in
  let rack := fill_rack "AB*" in
  let root := @global_trie_root bat_act_game in
  map laid_letter
    (@subcalls bat_act_game board rack root (board_at board 8 8) 2 [])
    = ["B"%char; "A"%char] /\
  exists st',
    @extend_right bat_act_game 18 board rack root (board_at board 8 8) 2 []
      no_best = Some st' /\
    map (fun cl => spelled (call_move cl)) (calls st')
    = [""; "B"; "BA"; "BAt"; "A"; "Ac"]%string.
Proof.
  split; [vm_compute; reflexivity|].
  eexists. split; vm_compute; reflexivity.
Qed.

(** ** The search: when no call reaches a complete move *)


Section NoMove.
Context {G : Globals}.


Lemma quiet_refl board st : quiet board st st.
Proof. exists []. by rewrite app_nil_r. Qed.

Lemma quiet_arrive board st s cl :
  quiet board st s -> quiet board st (arrive board cl s).
Proof.
  intros (new & Hcalls & Hbest). exists (new ++ [cl]). split.
  - by rewrite calls_arrive, Hcalls, app_assoc.
  - rewrite forallb_app. intros (Hnew & Hcl)%andb_true_iff.
    simpl in Hcl. rewrite andb_true_r in Hcl. apply negb_true_iff in Hcl.
    unfold arrive. rewrite Hcl. simpl. by apply Hbest.
Qed.

Lemma run_call_quiet fuel board cl st st' :
  run_call fuel board st cl = Some st' -> quiet board st st'.
Proof.
  apply (search_invariant board (fun _ => True) (quiet board st));
    [done| |done|apply quiet_refl].
  intros c s _. apply quiet_arrive.
Qed.

Lemma across_search_quiet fuel board rack s :
  across_search fuel board rack = Some s ->
  quiet board (mkSearch [] 0 []) s.
Proof.
  unfold across_search.
  apply (fold_opt_inv _ (quiet board (mkSearch [] 0 []))); [|apply quiet_refl].
  intros a [r c] a' _ Ha. destruct (worth_trying _).
  - intros Hrun.
    apply (run_call_quiet fuel board (mkCall rack global_trie_root
             (board_at board r c) (min_across_word_length (board_at board r c)) [])) in Hrun.
    destruct Ha as (n1 & Hc1 & Hb1), Hrun as (n2 & Hc2 & Hb2).
    exists (n1 ++ n2). split; [by rewrite Hc2, Hc1, app_assoc|].
    rewrite forallb_app. intros (H1 & H2)%andb_true_iff.
    destruct (Hb1 H1) as [<- <-]. by apply Hb2.
  - by intros [= <-].
Qed.

Lemma no_complete_call_across fuel board rack :
  no_complete_call board (across_search fuel board rack) = true ->
  find_best_across_move fuel board rack = Some [].
Proof.
  unfold no_complete_call, find_best_across_move.
  destruct (across_search fuel board rack) as [s|] eqn:E; [|done].
  intros Hnone. apply across_search_quiet in E as (new & Hcalls & Hbest).
  simpl in Hcalls. rewrite Hcalls in Hnone.
  destruct (Hbest Hnone) as [Hm _]. simpl. by rewrite Hm.
Qed.

Lemma opening_assign_proj {X} (P : Square -> X) board c r' c' :
  (forall m s, P (set_min_across_word_length m s) = P s) ->
  P (board_at (opening_assign board c) r' c') = P (board_at board r' c').
Proof.
  intros HP. unfold opening_assign.
  destruct (c =? mid_col); rewrite ?board_at_alter_proj; done.
Qed.

Lemma opening_boards_proj {X} (P : Square -> X) board n r' c' :
  (forall m s, P (set_min_across_word_length m s) = P s) ->
  P (board_at (opening_boards board n) r' c') = P (board_at board r' c').
Proof.
  intros HP. unfold opening_boards.
  apply (fold_left_keeps opening_assign
           (fun b => P (board_at b r' c') = P (board_at board r' c'))); [|done].
  intros b y _ <-. by apply opening_assign_proj.
Qed.

Lemma complete_move_opening board b cl :
  (forall r c, type (board_at b r c) = type (board_at board r c)) ->
  (forall r c, letter (board_at b r c) = letter (board_at board r c)) ->
  complete_move b cl = complete_move board cl.
Proof.
  intros Ht Hl. unfold complete_move, square_of. by rewrite Ht, Hl.
Qed.

Lemma quiet_same_squares board b st s :
  (forall r c, type (board_at b r c) = type (board_at board r c)) ->
  (forall r c, letter (board_at b r c) = letter (board_at board r c)) ->
  quiet b st s -> quiet board st s.
Proof.
  intros Ht Hl (new & Hcalls & Hbest). exists new. split; [done|].
  intros Hnone. apply Hbest. rewrite <- Hnone. apply forallb_pointwise.
  intros cl. f_equal. by apply complete_move_opening.
Qed.

Lemma quiet_trans board st s s' :
  quiet board st s -> quiet board s s' -> quiet board st s'.
Proof.
  intros (n1 & Hc1 & Hb1) (n2 & Hc2 & Hb2).
  exists (n1 ++ n2). split; [by rewrite Hc2, Hc1, app_assoc|].
  rewrite forallb_app. intros (H1 & H2)%andb_true_iff.
  destruct (Hb1 H1) as [<- <-]. by apply Hb2.
Qed.


Lemma opening_step_quiet fuel board rack st bs c bs' :
  opening_inv board st bs -> opening_step fuel rack bs c = Some bs' ->
  opening_inv board st bs'.
Proof.
  destruct bs as [b1 s1], bs' as [b2 s2]. intros [[Ht Hl] Hq]. simpl in *.
  assert (Ht' : forall r c0, type (board_at (opening_assign b1 c) r c0)
                             = type (board_at board r c0)).
  { intros r c0. by rewrite (opening_assign_proj type). }
  assert (Hl' : forall r c0, letter (board_at (opening_assign b1 c) r c0)
                             = letter (board_at board r c0)).
  { intros r c0. by rewrite (opening_assign_proj letter). }
  unfold opening_step. destruct (worth_trying _).
  - destruct (extend_right _ _ _ _ _ _ _ _) as [s3|] eqn:Hrun; [|done].
    intros ?; simplify_eq. split; [done|]. simpl.
    apply (quiet_trans board st s1 s2); [done|].
    apply (quiet_same_squares board (opening_assign b1 c)); [done|done|].
    by apply (run_call_quiet fuel _ (mkCall rack global_trie_root
             (board_at (opening_assign b1 c) mid_row c)
             (min_across_word_length
                (board_at (opening_assign b1 c) mid_row c)) [])).
  - intros ?; by simplify_eq.
Qed.

Lemma opening_search_quiet fuel board rack st s :
  opening_search fuel board rack st = Some s -> quiet board st s.
Proof.
  unfold opening_search.
  destruct (fold_opt _ _ _) as [[b' s']|] eqn:E; [|done]. intros [= <-].
  assert (Hend : opening_inv board st (b', s')).
  { eapply (fold_opt_inv _ (opening_inv board st)); [| |exact E].
    - intros a x a' _. apply opening_step_quiet.
    - repeat split. apply quiet_refl. }
  apply Hend.
Qed.

Lemma no_complete_search_no_move fuel board rack :
  no_complete_search fuel board rack = true ->
  (exists s, find_best_move fuel board rack (mkSearch [] 0 []) = Some s /\
             best_move s = [] /\ best_pts s = 0) /\
  calc_across_pts board [] = 0.
Proof.
  intros Hnone. split; [|done].
  unfold no_complete_search in Hnone. unfold find_best_move.
  destruct (has_tile board).
  - apply andb_true_iff in Hnone as [Ha Hd].
    apply no_complete_call_across in Ha, Hd.
    unfold find_best_down_move. rewrite Ha, Hd. simpl.
    unfold calc_down_pts. simpl. by eexists.
  - unfold no_complete_call in Hnone.
    destruct (opening_search fuel board rack _) as [s|] eqn:E; [|done].
    exists s. split; [done|].
    apply opening_search_quiet in E as (new & Hcalls & Hbest).
    simpl in Hcalls. rewrite Hcalls in Hnone. by apply Hbest.
Qed.

End NoMove.


(** ** Boards whose squares know their places *)

Lemma row_okb_lookup i rw : forall j (m : nat) sq,
  row_okb i j rw = true -> rw !! m = Some sq ->
  row sq = i /\ col sq = j + Z.of_nat m.
Proof.
  induction rw as [|s rw IH]; intros j m sq Hok Hm; [done|].
  simpl in Hok. apply andb_true_iff in Hok as [Hs Hrest].
  apply andb_true_iff in Hs as [Hr Hc].
  destruct m as [|m].
  - injection Hm as <-. lia.
  - simpl in Hm. destruct (IH (j + 1) m sq Hrest Hm). lia.
Qed.

Lemma rows_okb_lookup board : forall i (n : nat) rw,
  rows_okb i board = true -> board !! n = Some rw ->
  row_okb (i + Z.of_nat n) 0 rw = true.
Proof.
  induction board as [|r0 board IH]; intros i n rw Hok Hn; [done|].
  simpl in Hok. apply andb_true_iff in Hok as [H0 Hrest].
  destruct n as [|n].
  - injection Hn as <-. by rewrite Z.add_0_r.
  - simpl in Hn. replace (i + Z.of_nat (S n)) with (i + 1 + Z.of_nat n) by lia.
    by apply IH.
Qed.

Lemma coords_okb_ok board : coords_okb board = true -> coords_ok board.
Proof.
  intros Hok r c Hin. pose proof Hin as (Hr & Hc & _).
  destruct (in_board_at _ _ _ Hin) as (rw & Hrw & Hsq).
  pose proof (rows_okb_lookup _ _ _ _ Hok Hrw) as Hrow.
  destruct (row_okb_lookup _ _ _ _ _ Hrow Hsq). lia.
Qed.

Lemma width_leb_ok board w : width_leb board w = true -> width_le board w.
Proof.
  unfold width_leb, width_le. rewrite forallb_forall.
  intros H rw Hrw. apply list_elem_of_In in Hrw. apply H in Hrw.
  by apply Nat.leb_le.
Qed.

(** ** The search: where a recorded move ends *)

Lemma end_of_tiles_walk board r c : forall (n : nat) c0,
  c0 <= c -> c - c0 <= Z.of_nat n ->
  (forall c', c0 <= c' < c -> holds_tile (board_at board r c') = true) ->
  holds_tile (board_at board r c) = false ->
  end_of_tiles board r n c0 = c.
Proof.
  induction n as [|n IH]; intros c0 Hle Hn Htiles Hend; simpl.
  - lia.
  - destruct (decide (c0 = c)) as [->|Hne]; [by rewrite Hend|].
    rewrite Htiles by lia. apply IH; try lia; [|done].
    intros c' Hc'. apply Htiles. lia.
Qed.

Section Ends.
Context {G : Globals}.

(** The recursive calls of a call, one case for a call on an empty square
    and one for a call on a tile. *)
Lemma callees_cases board cl c' :
  c' ∈ callees board cl ->
  let sqr := square_of board cl in
  SquareType_eqb (type sqr) outside = false /\
  ((is_dot (letter sqr) = true /\
    exists ltr, call_move c'
                = add_sqr_to_move (row sqr) (col sqr) ltr (call_move cl)) \/
   (is_dot (letter sqr) = false /\ call_move c' = call_move cl)).
Proof.
  intros H sqr. unfold callees in H. fold sqr in H.
  destruct (SquareType_eqb (type sqr) outside); [by apply elem_of_nil in H|].
  split; [done|]. destruct (is_dot (letter sqr)).
  - left. split; [done|]. unfold subcalls in H.
    apply list_elem_of_omap in H as (child & _ & H).
    destruct (tentative _ _ child) as [[i ltr]|]; [|done].
    exists ltr. by injection H as <-.
  - right. split; [done|]. destruct (negb _); [|by apply elem_of_nil in H].
    by apply list_elem_of_singleton in H as ->.
Qed.

Lemma callees_trail board cl c' :
  coords_ok board ->
  (in_board board (row (call_square cl)) (col (call_square cl)) -> trail board cl) ->
  c' ∈ callees board cl ->
  in_board board (row (call_square c')) (col (call_square c')) -> trail board c'.
Proof.
  intros Hok Hpre Hc' Hin'.
  destruct (callees_square _ _ _ Hok Hc') as [Hin Hsq].
  destruct (callees_cases _ _ _ Hc') as [Hout Hcase].
  specialize (Hpre Hin). unfold square_of in *.
  destruct (Hok _ _ Hin) as [Hr Hc].
  rewrite Hsq in Hin'. apply in_board_square in Hin' as (_ & Hr' & Hc'c); [|done].
  unfold trail. rewrite Hsq, Hr', Hc'c.
  set (r := row (call_square cl)) in *. set (c := col (call_square cl)) in *.
  destruct Hcase as [[Hdot [ltr ->]]|[Hdot ->]].
  - right. unfold add_sqr_to_move, last_square. rewrite last_last. simpl.
    rewrite Hr, Hc. destruct Hin as (_ & ? & _). repeat split; try lia.
    apply Forall_app. split; [|by repeat constructor].
    destruct Hpre as [->|[Hrow _]]; [constructor|done].
  - destruct Hpre as [Hnil|(Hrow & Hlast & Htiles)]; [by left|right].
    repeat split; try done; try lia.
    intros c0 Hc0. destruct (decide (c0 = c)) as [->|Hne]; [|apply Htiles; lia].
    unfold holds_tile. by rewrite Hdot, Hout.
Qed.

Lemma complete_move_ends_inside board cl :
  coords_ok board ->
  (in_board board (row (call_square cl)) (col (call_square cl)) -> trail board cl) ->
  complete_move board cl = true ->
  call_move cl = [] \/ ends_inside board (call_move cl) = true.
Proof.
  intros Hok Hpre Hcomplete. unfold complete_move, square_of in Hcomplete.
  apply andb_true_iff in Hcomplete as [Hcomplete _].
  apply andb_true_iff in Hcomplete as [Hcomplete _].
  apply andb_true_iff in Hcomplete as [Hout Hdot].
  apply negb_true_iff in Hout. pose proof (not_outside_in_board _ _ _ Hout) as Hin.
  destruct (Hpre Hin) as [Hnil|(Hrow & Hlast & Htiles)]; [by left|right].
  set (r := row (call_square cl)) in *. set (c := col (call_square cl)) in *.
  assert (Hfirst : row (first_square (call_move cl)) = r).
  { destruct (call_move cl) as [|sq mv]; [|by inversion Hrow].
    simpl in Hlast. lia. }
  unfold ends_inside, square_after. rewrite Hfirst.
  rewrite (end_of_tiles_walk board r c).
  - by rewrite Hout, Hdot.
  - lia.
  - unfold cols_from. destruct Hin as (Hr & Hc & rw & Hrw & Hlen).
    unfold vec_at. destruct (Z.ltb_spec r 0); [lia|]. rewrite Hrw. simpl. lia.
  - intros c' Hc'. apply Htiles. lia.
  - unfold holds_tile. by rewrite Hdot.
Qed.

Lemma arrive_ends_inside board cl st :
  coords_ok board ->
  (in_board board (row (call_square cl)) (col (call_square cl)) -> trail board cl) ->
  best_move st = [] \/ ends_inside board (best_move st) = true ->
  best_move (arrive board cl st) = [] \/
  ends_inside board (best_move (arrive board cl st)) = true.
Proof.
  intros Hok Hpre Hst. unfold arrive.
  destruct (complete_move board cl) eqn:Hcomplete; [|done].
  unfold record_move. destruct (_ >? _); [|done]. simpl.
  by apply complete_move_ends_inside.
Qed.

(** C10: a call on a square of type [outside] returns at once, the best
    move untouched; and on a board whose squares know their places, every
    move that the search records as the best one ends before an empty
    square of the board: a move whose primary word runs up to the border is
    never recorded. *)
Theorem recorded_move_ends_inside fuel board rack node curr_square
  min_word_length st st' :
  coords_ok board ->
  best_move st = [] \/ ends_inside board (best_move st) = true ->
  extend_right fuel board rack node curr_square min_word_length [] st
    = Some st' ->
  (best_move st' = [] \/ ends_inside board (best_move st') = true) /\
  (forall fuel' cl s,
     SquareType_eqb (type (square_of board cl)) outside = true ->
     run_call (S fuel') board s cl = Some (enter s cl)).
Proof.
  intros Hok Hst Hrun. split.
  - revert Hrun.
    change (extend_right fuel board rack node curr_square min_word_length [] st)
      with (run_call fuel board st
              (mkCall rack node curr_square min_word_length [])).
    apply (search_invariant board
             (fun cl => in_board board (row (call_square cl))
                          (col (call_square cl)) -> trail board cl)
             (fun s => best_move s = [] \/
                       ends_inside board (best_move s) = true));
      [| | |done].
    + intros cl c'. by apply callees_trail.
    + intros cl s. by apply arrive_ends_inside.
    + intros _. by left.
  - intros fuel' cl s Hout. rewrite extend_right_unfold.
    unfold callees, arrive, complete_move. by rewrite Hout.
Qed.

End Ends.

Lemma recorded_move_ends_inside_witness :
  exists st',
    @extend_right bat_game 18 bat_board bat_rack (@global_trie_root bat_game)
      (board_at bat_board 8 7) 1 [] no_best = Some st' /\
    (best_move st' = [] \/ ends_inside bat_board (best_move st') = true).
Proof.
  destruct (@extend_right bat_game 18 bat_board bat_rack
              (@global_trie_root bat_game) (board_at bat_board 8 7) 1 []
              no_best) as [st'|] eqn:E; [|vm_compute in E; discriminate].
  exists st'. split; [reflexivity|].
  apply (@recorded_move_ends_inside bat_game 18 bat_board bat_rack
           (@global_trie_root bat_game) (board_at bat_board 8 7) 1 no_best st').
  - apply coords_okb_ok. vm_compute. reflexivity.
  - left. reflexivity.
  - exact E.
Defined.

(** ** The search: fuel *)


Ltac playable_tac := unfold playable, NUM_BOARD_ROWS, NUM_BOARD_COLS; lia.

Section Fuel.
Context {G : Globals}.




Lemma across_search_returns fuel board w rack :
  coords_ok board -> width_le board w -> (w < fuel)%nat ->
  is_Some (across_search fuel board rack).
Proof.
  intros Hok Hw Hfuel. unfold across_search. apply fold_opt_is_Some.
  intros st [r c] _. destruct (worth_trying _); [|by eexists].
  by apply (run_call_returns board w fuel
              (mkCall rack global_trie_root (board_at board r c)
                 (min_across_word_length (board_at board r c)) [])).
Qed.

(** On a board whose squares know their places, a call of [extend_right]
    returns as soon as the fuel exceeds the width of the board: the
    recursion of the source ends. *)
Theorem extend_right_returns fuel board w rack node curr_square
  min_word_length curr_move st :
  coords_ok board -> width_le board w -> (w < fuel)%nat ->
  is_Some (extend_right fuel board rack node curr_square min_word_length
             curr_move st).
Proof.
  intros Hok Hw Hfuel.
  by apply (run_call_returns board w fuel
              (mkCall rack node curr_square min_word_length curr_move) st).
Qed.

End Fuel.


Lemma extend_right_returns_witness :
  is_Some (@extend_right bat_game 18 bat_board bat_rack
             (@global_trie_root bat_game) (board_at bat_board 8 7) 1 [] no_best).
Proof.
  apply (@extend_right_returns bat_game 18 bat_board 17).
  - apply coords_okb_ok. vm_compute. reflexivity.
  - apply width_leb_ok. vm_compute. reflexivity.
  - lia.
Defined.

(** ** What the passes over the board keep *)

Lemma width_le_in_board board w :
  width_le board w <-> forall r c, in_board board r c -> c < Z.of_nat w.
Proof.
  split.
  - intros Hw r c Hin. by destruct (in_board_col _ _ _ _ Hw Hin).
  - intros H rw Hrw. apply list_elem_of_lookup in Hrw as [n Hn].
    destruct (decide (length rw <= w)%nat) as [|Hgt]; [done|].
    assert (in_board board (Z.of_nat n) (Z.of_nat w)) as Hin.
    { repeat split; try lia. exists rw. rewrite !Nat2Z.id. split; [done|lia]. }
    apply H in Hin. lia.
Qed.

Section Keeps.
Context {G : Globals}.

Lemma update_square_cross_check_proj {X} (P : Square -> X) board r c r' c' :
  (forall cc s, P (set_down_cross_check cc s) = P s) ->
  P (board_at (update_square_cross_check board r c) r' c')
  = P (board_at board r' c').
Proof.
  intros HP. unfold update_square_cross_check.
  destruct (is_dot _); [|done]. destruct (_ && _); [done|].
  by apply board_at_alter_proj.
Qed.

Lemma update_square_cross_check_in_board board r c r' c' :
  in_board (update_square_cross_check board r c) r' c' <-> in_board board r' c'.
Proof.
  unfold update_square_cross_check.
  destruct (is_dot _); [|done]. destruct (_ && _); [done|].
  apply in_board_alter.
Qed.

(** [update_down_cross_checks] writes cross-check sets and nothing else. *)
Lemma update_down_cross_checks_proj {X} (P : Square -> X) board r' c' :
  (forall cc s, P (set_down_cross_check cc s) = P s) ->
  P (board_at (update_down_cross_checks board) r' c') = P (board_at board r' c').
Proof.
  intros HP. unfold update_down_cross_checks.
  apply (fold_left_keeps _ (fun b => P (board_at b r' c') = P (board_at board r' c')));
    [|done].
  intros b r _ Hb.
  apply (fold_left_keeps _ (fun b => P (board_at b r' c') = P (board_at board r' c')));
    [|done].
  intros b0 c _ <-. by apply update_square_cross_check_proj.
Qed.

Lemma update_down_cross_checks_in_board board r' c' :
  in_board (update_down_cross_checks board) r' c' <-> in_board board r' c'.
Proof.
  unfold update_down_cross_checks.
  apply (fold_left_keeps _ (fun b => in_board b r' c' <-> in_board board r' c'));
    [|done].
  intros b r _ Hb.
  apply (fold_left_keeps _ (fun b => in_board b r' c' <-> in_board board r' c'));
    [|done].
  intros b0 c _ <-. apply update_square_cross_check_in_board.
Qed.

End Keeps.

(** [update_min_across_word_length] writes minimum lengths and nothing
    else. *)
Lemma update_min_row_proj {X} (P : Square -> X) board r r' c' :
  (forall m s, P (set_min_across_word_length m s) = P s) ->
  P (board_at (update_min_row board r) r' c') = P (board_at board r' c').
Proof.
  intros HP. unfold update_min_row.
  apply (fold_left_keeps (min_length_step r)
           (fun st => P (board_at st.1 r' c') = P (board_at board r' c')));
    [|done].
  intros st c _ <-. by apply min_length_step_proj.
Qed.

Lemma update_min_across_word_length_proj {X} (P : Square -> X) board r' c' :
  (forall m s, P (set_min_across_word_length m s) = P s) ->
  P (board_at (update_min_across_word_length board) r' c')
  = P (board_at board r' c').
Proof.
  intros HP. unfold update_min_across_word_length.
  apply (fold_left_keeps update_min_row
           (fun b => P (board_at b r' c') = P (board_at board r' c'))); [|done].
  intros b r _ <-. by apply update_min_row_proj.
Qed.

Lemma update_min_across_word_length_same_tiles board :
  same_tiles board (update_min_across_word_length board).
Proof.
  unfold update_min_across_word_length.
  apply (fold_left_keeps update_min_row (same_tiles board));
    [|apply same_tiles_refl].
  intros b r _. apply update_min_row_same_tiles.
Qed.

(** ** swap_squares *)

Lemma swap_squares_in_board board r' c' :
  in_board (swap_squares board) r' c' <-> in_board board r' c'.
Proof.
  unfold swap_squares.
  apply (fold_left_keeps _ (fun b => in_board b r' c' <-> in_board board r' c'));
    [|done].
  intros b [r c] _ <-. apply in_board_alter.
Qed.

Lemma swap_squares_playable board r c :
  playable r c -> in_board board r c ->
  board_at (swap_squares board) r c = set_row_col r c (board_at board c r).
Proof.
  intros Hp Hin. unfold swap_squares.
  apply (fold_left_settles
           (fun inverted_board '(r, c) =>
              board_alter (fun _ => set_row_col r c (board_at board c r))
                inverted_board r c)
           (fun b => in_board b r c)
           (fun b => board_at b r c = set_row_col r c (board_at board c r))
           (r, c)).
  - intros b [r0 c0] Hb. by apply in_board_alter.
  - intros b Hb. by rewrite board_at_alter_eq.
  - intros b [r0 c0] Hne _ <-. apply board_at_alter_ne.
    destruct (decide (r0 = r)) as [->|]; [|by left].
    destruct (decide (c0 = c)) as [->|]; [done|by right].
  - done.
  - left. by apply elem_of_board_cells.
Qed.

Lemma swap_squares_border board r c :
  ~ playable r c -> board_at (swap_squares board) r c = board_at board r c.
Proof.
  intros Hp. unfold swap_squares.
  apply (fold_left_keeps _ (fun b => board_at b r c = board_at board r c));
    [|done].
  intros b [r0 c0] Hin%elem_of_board_cells <-. apply board_at_alter_ne.
  destruct (decide (r0 = r)) as [->|]; [|by left].
  destruct (decide (c0 = c)) as [->|]; [done|by right].
Qed.

Lemma playable_dec r c : playable r c \/ ~ playable r c.
Proof. unfold playable. lia. Qed.

Lemma swap_squares_coords_ok board :
  coords_ok board -> coords_ok (swap_squares board).
Proof.
  intros Hok r c Hin. apply (proj1 (swap_squares_in_board _ _ _)) in Hin.
  destruct (playable_dec r c) as [Hp|Hp].
  - rewrite swap_squares_playable by done. by split.
  - rewrite swap_squares_border by done. by apply Hok.
Qed.

(** ** invert_board *)

Section Invert.
Context {G : Globals}.

Lemma invert_board_in_board board r c :
  in_board (invert_board board) r c <-> in_board board r c.
Proof.
  unfold invert_board.
  destruct (update_min_across_word_length_same_tiles
              (update_down_cross_checks (swap_squares board))) as [_ Hin].
  by rewrite Hin, update_down_cross_checks_in_board, swap_squares_in_board.
Qed.

Lemma invert_board_proj {X} (P : Square -> X) board r c :
  (forall m s, P (set_min_across_word_length m s) = P s) ->
  (forall cc s, P (set_down_cross_check cc s) = P s) ->
  P (board_at (invert_board board) r c) = P (board_at (swap_squares board) r c).
Proof.
  intros Hm Hcc. unfold invert_board.
  by rewrite update_min_across_word_length_proj, update_down_cross_checks_proj.
Qed.

Lemma invert_board_coords_ok board :
  coords_ok board -> coords_ok (invert_board board).
Proof.
  intros Hok r c Hin. apply (proj1 (invert_board_in_board _ _ _)) in Hin.
  rewrite (invert_board_proj row), (invert_board_proj col) by done.
  by apply swap_squares_coords_ok, swap_squares_in_board.
Qed.

Lemma invert_board_width_le board w :
  width_le board w -> width_le (invert_board board) w.
Proof.
  rewrite !width_le_in_board. intros Hw r c Hin.
  apply (Hw r c). by apply invert_board_in_board.
Qed.

Lemma opening_step_returns fuel w rack (bs : list (list Square) * Search) c :
  coords_ok bs.1 -> width_le bs.1 w -> (w < fuel)%nat ->
  exists bs', opening_step fuel rack bs c = Some bs' /\
              coords_ok bs'.1 /\ width_le bs'.1 w.
Proof.
  destruct bs as [b st]. simpl. intros Hok Hw Hfuel.
  assert (Hok' : coords_ok (opening_assign b c)).
  { intros r c0 Hin. apply (proj1 (opening_assign_in_board _ _ _ _)) in Hin.
    rewrite (opening_assign_proj row), (opening_assign_proj col) by done.
    by apply Hok. }
  assert (Hw' : width_le (opening_assign b c) w).
  { apply width_le_in_board. intros r c0 Hin. apply (proj1 (opening_assign_in_board _ _ _ _)) in Hin.
    revert Hin. by apply width_le_in_board. }
  unfold opening_step. destruct (worth_trying _); [|by eexists].
  destruct (run_call_returns (opening_assign b c) w fuel
              (mkCall rack global_trie_root (board_at (opening_assign b c) mid_row c)
                 (min_across_word_length (board_at (opening_assign b c) mid_row c)) [])
              st Hok' Hw' Hfuel) as [st' Hst'].
  unfold run_call in Hst'. simpl in Hst'. rewrite Hst'. by eexists.
Qed.

(** On a board whose squares know their places, [find_best_move] returns
    as soon as the fuel exceeds the width of the board. *)
Theorem find_best_move_returns fuel board w rack st :
  coords_ok board -> width_le board w -> (w < fuel)%nat ->
  is_Some (find_best_move fuel board rack st).
Proof.
  intros Hok Hw Hfuel. unfold find_best_move. destruct (has_tile board).
  - unfold find_best_down_move, find_best_across_move.
    destruct (across_search_returns fuel board w rack Hok Hw Hfuel) as [s ->].
    destruct (across_search_returns fuel (invert_board board) w rack
                (invert_board_coords_ok _ Hok) (invert_board_width_le _ _ Hw)
                Hfuel) as [s' ->].
    simpl. by destruct (_ >? _).
  - unfold opening_search.
    assert (H : forall l bs, coords_ok bs.1 -> width_le bs.1 w ->
              is_Some (fold_opt (opening_step fuel rack) l bs)).
    { induction l as [|c l IH]; intros bs Hb1 Hb2; [by eexists|].
      rewrite fold_opt_cons.
      destruct (opening_step_returns fuel w rack bs c Hb1 Hb2 Hfuel)
        as (bs' & -> & Hb1' & Hb2').
      by apply IH. }
    destruct (H (seqZ 1 mid_col) (board, st) Hok Hw) as [bs ->]. by eexists.
Qed.

(** [update_down_cross_checks] and [update_min_across_word_length] move no
    tile: the first keeps letter, type, place and minimum length of every
    square, the second letter, type, place and cross-check set. *)
Theorem updates_keep_squares board r c :
  let sq := board_at board r c in
  let sq1 := board_at (update_down_cross_checks board) r c in
  let sq2 := board_at (update_min_across_word_length board) r c in
  (letter sq1 = letter sq /\ type sq1 = type sq /\ row sq1 = row sq /\
   col sq1 = col sq /\
   min_across_word_length sq1 = min_across_word_length sq) /\
  (letter sq2 = letter sq /\ type sq2 = type sq /\ row sq2 = row sq /\
   col sq2 = col sq /\ down_cross_check sq2 = down_cross_check sq).
Proof.
  intros sq sq1 sq2. unfold sq, sq1, sq2.
  rewrite !update_down_cross_checks_proj by done.
  rewrite !update_min_across_word_length_proj by done.
  done.
Qed.

End Invert.

Lemma find_best_move_returns_witness :
  is_Some (@find_best_move bat_game 18 bat_board bat_rack no_best).
Proof.
  apply (@find_best_move_returns bat_game 18 bat_board 17).
  - apply coords_okb_ok. vm_compute. reflexivity.
  - apply width_leb_ok. vm_compute. reflexivity.
  - lia.
Defined.

(** ** The search: the best move is the best of the moves reached *)

Section Best.
Context {G : Globals}.

Lemma arrive_best_so_far board cl st :
  best_so_far board st -> best_so_far board (arrive board cl st).
Proof.
  intros [Hpts Hall]. unfold best_so_far. rewrite calls_arrive.
  unfold arrive, record_move.
  destruct (complete_move board cl) eqn:Hc.
  - destruct (Z.gtb_spec (calc_across_pts board (call_move cl)) (best_pts (enter st cl)));
      simpl in *.
    + split; [done|]. apply Forall_app. split.
      * eapply Forall_impl; [exact Hall|]. simpl. intros c Hc' Hcc. specialize (Hc' Hcc). lia.
      * repeat constructor. lia.
    + split; [done|]. apply Forall_app. split; [done|].
      repeat constructor. intros _. lia.
  - simpl. split; [done|]. apply Forall_app. split; [done|].
    repeat constructor. by rewrite Hc.
Qed.

Lemma run_call_best_so_far fuel board cl st st' :
  best_so_far board st -> run_call fuel board st cl = Some st' ->
  best_so_far board st'.
Proof.
  intros Hst. apply (search_invariant board (fun _ => True) (best_so_far board));
    [done| |done|done].
  intros c s _. apply arrive_best_so_far.
Qed.

(** The move that [find_best_across_move] returns scores at least as much
    as every complete move that the search reached, and the points kept
    with it are its points. *)
Theorem across_search_best fuel board rack s :
  across_search fuel board rack = Some s ->
  best_pts s = calc_across_pts board (best_move s) /\
  forall cl, cl ∈ calls s -> complete_move board cl = true ->
    calc_across_pts board (call_move cl) <= calc_across_pts board (best_move s).
Proof.
  intros Hrun.
  assert (H : best_so_far board s).
  { revert Hrun. unfold across_search.
    apply (fold_opt_inv _ (best_so_far board)).
    - intros st [r c] st' _ Hst. destruct (worth_trying _).
      + apply (run_call_best_so_far fuel board
                 (mkCall rack global_trie_root (board_at board r c)
                    (min_across_word_length (board_at board r c)) []) st st' Hst).
      + by intros [= <-].
    - split; [done|constructor]. }
  destruct H as [Hpts Hall]. split; [done|].
  intros cl Hcl Hc. rewrite <- Hpts.
  rewrite Forall_forall in Hall. by apply Hall.
Qed.

End Best.

Lemma across_search_best_witness :
  exists s, @across_search bat_game 18 bat_board bat_rack = Some s /\
            best_pts s = @calc_across_pts bat_game bat_board (best_move s).
Proof.
  destruct (@across_search bat_game 18 bat_board bat_rack) as [s|] eqn:E;
    [|vm_compute in E; discriminate].
  exists s. split; [reflexivity|].
  apply (@across_search_best bat_game 18 bat_board bat_rack s). exact E.
Defined.

(** ** The search: the tiles of the rack *)

Lemma rack_total_nonneg rack : Forall (Z.le 0) rack -> 0 <= rack_total rack.
Proof. induction 1; simpl; lia. Qed.

Lemma rack_total_take rack i :
  0 < vec_at 0 rack i ->
  rack_total (vec_alter Z.pred rack i) = rack_total rack - 1.
Proof.
  unfold vec_at, vec_alter, rack_total. destruct (Z.ltb_spec i 0); [lia|].
  generalize (Z.to_nat i). clear. intros n. revert n.
  induction rack as [|x rack IH]; intros [|n]; simpl; try lia.
  intros Hpos. pose proof (IH n Hpos) as IHn. unfold alter in IHn. lia.
Qed.

Section Tiles.
Context {G : Globals}.

Lemma callees_holds_tiles board t cl c' :
  holds_tiles t cl -> c' ∈ callees board cl -> holds_tiles t c'.
Proof.
  intros [Hnn Htot]. unfold callees.
  destruct (SquareType_eqb _ outside); [by intros ?%elem_of_nil|].
  destruct (is_dot _).
  - unfold subcalls. intros (child & _ & H)%list_elem_of_omap.
    destruct (tentative _ _ child) as [[i ltr]|] eqn:E; [|done].
    injection H as <-. apply tentative_has_tile in E.
    split; simpl.
    + by apply rack_after_take.
    + rewrite rack_total_take by done. unfold add_sqr_to_move.
      rewrite length_app. simpl. lia.
  - destruct (negb _); [|by intros ?%elem_of_nil].
    by intros ->%list_elem_of_singleton.
Qed.

Lemma run_call_tiles fuel board t cl st st' :
  holds_tiles t cl -> Z.of_nat (length (best_move st)) <= t ->
  run_call fuel board st cl = Some st' ->
  Z.of_nat (length (best_move st')) <= t.
Proof.
  apply (search_invariant board (holds_tiles t)
           (fun s => Z.of_nat (length (best_move s)) <= t)).
  - intros c c'. apply callees_holds_tiles.
  - intros c s [Hnn Htot] Hs. unfold arrive, record_move.
    destruct (complete_move board c); [|done].
    destruct (_ >? _); [|done]. simpl.
    pose proof (rack_total_nonneg _ Hnn). lia.
Qed.

(** The move that the search returns lays no more tiles than the rack
    holds. *)
Theorem across_search_tiles fuel board rack s :
  Forall (Z.le 0) rack -> across_search fuel board rack = Some s ->
  Z.of_nat (length (best_move s)) <= rack_total rack.
Proof.
  intros Hnn. unfold across_search.
  apply (fold_opt_inv _ (fun s => Z.of_nat (length (best_move s)) <= rack_total rack)).
  - intros st [r c] st' _ Hst. destruct (worth_trying _).
    + apply (run_call_tiles fuel board (rack_total rack)
               (mkCall rack global_trie_root (board_at board r c)
                  (min_across_word_length (board_at board r c)) []) st st');
        [|done].
      split; [done|]. simpl. lia.
    + by intros [= <-].
  - simpl. by apply rack_total_nonneg.
Qed.

End Tiles.

Lemma across_search_tiles_witness :
  exists s, @across_search bat_game 18 bat_board bat_rack = Some s /\
            Z.of_nat (length (best_move s)) <= rack_total bat_rack.
Proof.
  destruct (@across_search bat_game 18 bat_board bat_rack) as [s|] eqn:E;
    [|vm_compute in E; discriminate].
  exists s. split; [reflexivity|].
  apply (@across_search_tiles bat_game 18 bat_board bat_rack s); [|exact E].
  vm_compute. repeat constructor; discriminate.
Defined.

(** ** The trie *)

Lemma insert_into_trie_cons node ch rest :
  insert_into_trie node (String ch rest)
  = alter_child (fun child => insert_into_trie child rest)
      (ensure_child node ch)
      (index_of (ensure_child node ch) (letter_index ch)).
Proof. reflexivity. Qed.

Lemma insert_into_trie_letter node word :
  node_letter (insert_into_trie node word) = node_letter node.
Proof.
  destruct word as [|ch rest]; [done|].
  rewrite insert_into_trie_cons. unfold alter_child, ensure_child. simpl.
  by destruct (_ =? _).
Qed.

Lemma vec_at_range {A} (d : A) v i :
  ~ (0 <= i < Z.of_nat (length v)) -> vec_at d v i = d.
Proof.
  intros Hi. unfold vec_at. destruct (Z.ltb_spec i 0); [done|].
  rewrite lookup_ge_None_2; [done|lia].
Qed.

Lemma vec_at_lookup {A} (d : A) v i x :
  0 <= i -> v !! Z.to_nat i = Some x -> vec_at d v i = x.
Proof.
  intros Hi Hx. unfold vec_at. destruct (Z.ltb_spec i 0); [lia|]. by rewrite Hx.
Qed.

Lemma index_of_range node i :
  length (letter_indexes node) = 26%nat -> ~ (0 <= i < 26) ->
  index_of node i = -1.
Proof. intros Hlen Hi. apply vec_at_range. lia. Qed.

Lemma index_of_new ch i : index_of (new_node ch) i = -1.
Proof.
  unfold index_of, new_node, no_indexes, vec_at; cbn [letter_indexes].
  destruct (i <? 0); [done|].
  destruct (replicate 26 (-1) !! Z.to_nat i) eqn:E; [|done].
  by apply lookup_replicate in E as [-> _].
Qed.

Lemma wf_node_new ch : wf_node (new_node ch).
Proof.
  constructor.
  - done.
  - intros i Hi. by rewrite index_of_new in Hi.
  - intros n child H. done.
  - constructor.
Qed.

Lemma child_for_new ch i : child_for (new_node ch) i = None.
Proof. unfold child_for. by rewrite index_of_new. Qed.

Lemma stores_new ch w : stores (new_node ch) w = false.
Proof.
  unfold stores. destruct w as [|c w]; [done|]. simpl.
  by rewrite child_for_new.
Qed.

(** *** Adding the child for a letter *)

Lemma ensure_child_spec node ch :
  wf_node node -> 0 <= letter_index ch < 26 ->
  let node1 := ensure_child node ch in
  wf_node node1 /\
  is_terminal_node node1 = is_terminal_node node /\
  node_letter node1 = node_letter node /\
  (forall i, i <> letter_index ch -> child_for node1 i = child_for node i) /\
  child_for node1 (letter_index ch)
  = Some (default (new_node ch) (child_for node (letter_index ch))).
Proof.
  intros Hwf Hli node1. unfold node1, ensure_child.
  destruct (Z.eqb_spec (index_of node (letter_index ch)) (-1)) as [Hnone|Hsome].
  - inversion Hwf as [? Hlen Hidx Hch Hsub]; subst.
    set (li := letter_index ch) in *.
    set (node' := mkTrieNode _ _ _ _).
    assert (Hset : forall i, index_of node' i
              = if decide (i = li) then Z.of_nat (length (children node))
                else index_of node i).
    { intros i. unfold index_of, node'. simpl. unfold vec_set. case_decide as E.
      - subst i. rewrite vec_at_alter_eq; [done|lia|lia].
      - by rewrite vec_at_alter_ne. }
    split; [|split; [done|split; [done|split]]].
    + constructor; simpl.
      * unfold vec_set. by rewrite length_vec_alter.
      * intros i Hi. rewrite Hset in *. case_decide as E.
        -- subst i. exists (new_node ch). rewrite Nat2Z.id. split; [lia|].
           split; [|done]. by rewrite lookup_app_r, Nat.sub_diag.
        -- destruct (Hidx i Hi) as (child & H0 & Hlook & Hlet).
           exists child. split; [done|]. split; [|done].
           by apply lookup_app_l_Some.
      * intros n child Hn. rewrite Hset.
        apply lookup_app_Some in Hn as [Hn|[Hge Hn]].
        -- pose proof (Hch n child Hn) as Hc. case_decide as E; [|done].
           rewrite E, Hnone in Hc. lia.
        -- apply list_lookup_singleton_Some in Hn as [Hn <-]. simpl.
           fold li. rewrite decide_True by done. lia.
      * apply Forall_app. split; [done|].
        constructor; [apply wf_node_new|constructor].
    + intros i Hi. unfold child_for. rewrite Hset, decide_False by done.
      destruct (Z.eqb_spec (index_of node i) (-1)); [done|].
      destruct (Hidx i ltac:(done)) as (child & H0 & Hlook & _).
      f_equal. unfold child_at, node'. simpl.
      rewrite (vec_at_lookup _ _ _ child); [|done|by apply lookup_app_l_Some].
      by rewrite (vec_at_lookup _ _ _ child).
    + unfold child_for at 1. rewrite Hset, decide_True by done.
      destruct (Z.eqb_spec (Z.of_nat (length (children node))) (-1)); [lia|].
      f_equal. unfold child_for. fold li. rewrite Hnone. simpl.
      unfold child_at, node'. simpl.
      apply vec_at_lookup; [lia|]. by rewrite Nat2Z.id, lookup_app_r, Nat.sub_diag.
  - split; [done|split; [done|split; [done|split; [done|]]]].
    unfold child_for. destruct (Z.eqb_spec (index_of node (letter_index ch)) (-1));
      done.
Qed.

(** *** Replacing a child *)

Lemma child_for_Some node i child :
  wf_node node -> child_for node i = Some child ->
  0 <= index_of node i /\
  children node !! Z.to_nat (index_of node i) = Some child /\
  letter_index (node_letter child) = i.
Proof.
  intros Hwf. inversion Hwf as [? Hlen Hidx Hch Hsub]; subst.
  unfold child_for. destruct (Z.eqb_spec (index_of node i) (-1)); [done|].
  intros [= <-]. destruct (Hidx i ltac:(done)) as (child & H0 & Hlook & Hlet).
  unfold child_at. by rewrite (vec_at_lookup _ _ _ child).
Qed.

Lemma lookup_vec_alter {A} (f : A -> A) v k n :
  vec_alter f v k !! n
  = if decide (0 <= k /\ Z.to_nat k = n) then f <$> v !! n else v !! n.
Proof.
  unfold vec_alter. destruct (Z.ltb_spec k 0).
  - rewrite decide_False; [done|lia].
  - case_decide as E.
    + destruct E as [_ <-]. apply list_lookup_alter_eq.
    + apply list_lookup_alter_ne. lia.
Qed.

Lemma alter_child_spec f node li child :
  wf_node node -> child_for node li = Some child ->
  (forall c, node_letter (f c) = node_letter c) -> wf_node (f child) ->
  let node2 := alter_child f node (index_of node li) in
  wf_node node2 /\
  is_terminal_node node2 = is_terminal_node node /\
  child_for node2 li = Some (f child) /\
  (forall i, i <> li -> child_for node2 i = child_for node i).
Proof.
  intros Hwf Hchild Hletter Hwfc node2.
  destruct (child_for_Some _ _ _ Hwf Hchild) as (Hk & Hlook & Hlet).
  inversion Hwf as [? Hlen Hidx Hch Hsub]; subst.
  set (k := index_of node (letter_index (node_letter child))) in *.
  assert (Hlook2 : forall n, children node2 !! n
            = if decide (n = Z.to_nat k) then Some (f child)
              else children node !! n).
  { intros n. unfold node2, alter_child. simpl. rewrite lookup_vec_alter.
    case_decide as E1; case_decide as E2; try done.
    - destruct E1 as [_ <-]. by rewrite Hlook.
    - destruct E1 as [_ E1]. by rewrite E1 in E2.
    - subst n. exfalso. apply E1. by split. }
  split; [|split; [done|split]].
  - constructor.
    + done.
    + intros i Hi. change (index_of node2 i) with (index_of node i) in *.
      destruct (Hidx i Hi) as (c & H0 & Hc & Hcl).
      rewrite Hlook2. case_decide as E.
      * exists (f child). split; [done|]. split; [done|].
        rewrite Hletter. rewrite E, Hlook in Hc. by injection Hc as <-.
      * by exists c.
    + intros n c. rewrite Hlook2. case_decide as E.
      * intros [= <-]. rewrite Hletter.
        change (index_of node2 ?i) with (index_of node i). subst n. fold k. lia.
      * apply Hch.
    + unfold node2, alter_child. simpl. unfold vec_alter.
      destruct (k <? 0); [done|].
      apply Forall_alter; [done|]. intros c Hc _.
      rewrite Hlook in Hc. by injection Hc as <-.
  - unfold child_for. change (index_of node2 ?i) with (index_of node i).
    fold k. destruct (Z.eqb_spec k (-1)); [lia|]. f_equal.
    unfold child_at. apply vec_at_lookup; [done|].
    by rewrite Hlook2, decide_True.
  - intros i Hi. unfold child_for.
    change (index_of node2 i) with (index_of node i).
    destruct (Z.eqb_spec (index_of node i) (-1)) as [|Hsome]; [done|]. f_equal.
    destruct (Hidx i Hsome) as (c & H0 & Hc & Hcl).
    unfold child_at. rewrite (vec_at_lookup _ _ _ c); [|done|].
    + by rewrite (vec_at_lookup _ _ _ c).
    + rewrite Hlook2, decide_False; [done|].
      intros E. apply Z2Nat.inj in E; [|done|done].
      rewrite E, Hlook in Hc. injection Hc as <-. congruence.
Qed.

(** *** Insertion and lookup *)

Lemma code_inj c1 c2 : code c1 = code c2 -> c1 = c2.
Proof.
  unfold code. intros H. apply N2Z.inj in H.
  rewrite <- (ascii_N_embedding c1), <- (ascii_N_embedding c2). by rewrite H.
Qed.

Lemma letter_index_inj c1 c2 : letter_index c1 = letter_index c2 -> c1 = c2.
Proof. unfold letter_index. intros H. apply code_inj. lia. Qed.

Lemma isupper_index ch : isupper ch = true -> 0 <= letter_index ch < 26.
Proof.
  unfold isupper, letter_index. intros [H1 H2]%andb_true_iff.
  apply Z.leb_le in H1, H2. lia.
Qed.

Lemma child_for_wf node i child :
  wf_node node -> child_for node i = Some child -> wf_node child.
Proof.
  intros Hwf Hchild. destruct (child_for_Some _ _ _ Hwf Hchild) as (_ & Hlook & _).
  inversion Hwf as [? _ _ _ Hsub]; subst.
  rewrite Forall_lookup in Hsub. by eapply Hsub.
Qed.

Lemma stores_cons node ch w :
  stores node (String ch w)
  = match child_for node (letter_index ch) with
    | Some child => stores child w
    | None => false
    end.
Proof. unfold stores. simpl. by destruct (child_for _ _). Qed.

Lemma insert_into_trie_spec word : forall node,
  wf_node node -> all_uppercase word = true ->
  wf_node (insert_into_trie node word) /\
  forall w, stores (insert_into_trie node word) w
            = if String.eqb w word then true else stores node w.
Proof.
  induction word as [|ch rest IH]; intros node Hwf Hup.
  - split.
    + inversion Hwf; subst. by constructor.
    + intros [|c w]; [done|]. by rewrite !stores_cons.
  - simpl in Hup. apply andb_true_iff in Hup as [Hch Hrest].
    apply isupper_index in Hch.
    rewrite insert_into_trie_cons.
    destruct (ensure_child_spec node ch Hwf Hch) as (Hwf1 & Ht1 & _ & Hoth1 & Hli1).
    set (node1 := ensure_child node ch) in *.
    set (child0 := default (new_node ch) (child_for node (letter_index ch))) in *.
    assert (Hwf0 : wf_node child0).
    { unfold child0. destruct (child_for node (letter_index ch)) eqn:E; simpl.
      - by eapply child_for_wf.
      - apply wf_node_new. }
    destruct (IH child0 Hwf0 Hrest) as [Hwfi Hsti].
    destruct (alter_child_spec (fun child => insert_into_trie child rest) node1
                (letter_index ch) child0 Hwf1 Hli1
                (fun c => insert_into_trie_letter c rest) Hwfi)
      as (Hwf2 & Ht2 & Hli2 & Hoth2).
    split; [done|].
    intros [|c w].
    + unfold stores. simpl. by rewrite Ht1.
    + rewrite !stores_cons. simpl.
      destruct (Ascii.eqb_spec c ch) as [->|Hne].
      * rewrite Hli2, Hsti. destruct (String.eqb w rest); [done|].
        unfold child0. destruct (child_for node (letter_index ch)); simpl; [done|].
        apply stores_new.
      * assert (letter_index c <> letter_index ch)
          by (intros E; by apply letter_index_inj in E).
        by rewrite Hoth2, Hoth1.
Qed.

Lemma eligible_uppercase str : eligible str = true -> all_uppercase str = true.
Proof. unfold eligible. by intros [_ H]%andb_true_iff. Qed.

Section Lexicon.
Context {G : Globals}.

Lemma create_word_trie_fold words : forall node,
  wf_node node ->
  let root := fold_left
    (fun root str => if eligible str then insert_into_trie root str else root)
    words node in
  wf_node root /\
  forall w, stores root w
            = stores node w || existsb (fun str => eligible str && String.eqb w str) words.
Proof.
  induction words as [|str words IH]; intros node Hwf; simpl.
  - split; [done|]. intros w. by rewrite orb_false_r.
  - destruct (eligible str) eqn:E.
    + destruct (insert_into_trie_spec str node Hwf (eligible_uppercase _ E))
        as [Hwf' Hst'].
      destruct (IH _ Hwf') as [Hwf2 Hst2]. split; [done|].
      intros w. rewrite Hst2, Hst'. simpl.
      destruct (String.eqb w str); simpl; [by rewrite orb_true_r|done].
    + destruct (IH _ Hwf) as [Hwf2 Hst2]. split; [done|].
      intros w. by rewrite Hst2.
Qed.

Lemma global_trie_root_spec w :
  wf_node global_trie_root /\
  (stores global_trie_root w = true <->
   In w global_words /\ eligible w = true).
Proof.
  destruct (create_word_trie_fold global_words (new_node "*") (wf_node_new _))
    as [Hwf Hst].
  split; [done|].
  unfold global_trie_root, create_word_trie. rewrite Hst, stores_new. simpl.
  rewrite existsb_exists. split.
  - intros (str & Hin & [He Heq]%andb_true_iff).
    apply String.eqb_eq in Heq as ->. done.
  - intros [Hin He]. exists w. split; [done|].
    by rewrite He, String.eqb_refl.
Qed.

(** The trie stores the words of the lexicon that are longer than two
    letters and made of capital letters, and no other word; and it has the
    shape that the two ways of reading it rely on. *)
Theorem create_word_trie_stores w :
  wf_node global_trie_root /\
  (stores global_trie_root w = true <->
   In w global_words /\ eligible w = true).
Proof. apply global_trie_root_spec. Qed.

End Lexicon.

(** Inserting a word of capital letters keeps the shape of the trie, makes
    the word one of its words and changes nothing for any other word. *)
Theorem insert_into_trie_stores node word w :
  wf_node node -> all_uppercase word = true ->
  wf_node (insert_into_trie node word) /\
  stores (insert_into_trie node word) w
  = if String.eqb w word then true else stores node w.
Proof.
  intros Hwf Hup. destruct (insert_into_trie_spec word node Hwf Hup) as [H1 H2].
  split; [exact H1|apply H2].
Qed.

Lemma insert_into_trie_stores_witness :
  stores (insert_into_trie (@global_trie_root bat_act_game) "CAB") "CAB"
  = true.
Proof.
  apply (insert_into_trie_stores (@global_trie_root bat_act_game) "CAB" "CAB").
  - apply (@global_trie_root_spec bat_act_game EmptyString).
  - reflexivity.
Defined.


(** Inserting a word a second time changes nothing. *)
Theorem insert_into_trie_idempotent word : forall node,
  wf_node node -> all_uppercase word = true ->
  insert_into_trie (insert_into_trie node word) word
  = insert_into_trie node word.
Proof.
  induction word as [|ch rest IH]; intros node Hwf Hup; [done|].
  simpl in Hup. apply andb_true_iff in Hup as [Hch Hrest].
  apply isupper_index in Hch.
  rewrite (insert_into_trie_cons node).
  destruct (ensure_child_spec node ch Hwf Hch) as (Hwf1 & Ht1 & _ & Hoth1 & Hli1).
  set (node1 := ensure_child node ch) in *.
  set (child0 := default (new_node ch) (child_for node (letter_index ch))) in *.
  assert (Hwf0 : wf_node child0).
  { unfold child0. destruct (child_for node (letter_index ch)) eqn:E; simpl.
    - by eapply child_for_wf.
    - apply wf_node_new. }
  destruct (child_for_Some _ _ _ Hwf1 Hli1) as (Hk & Hlook & _).
  set (k := index_of node1 (letter_index ch)) in *.
  set (node2 := alter_child _ node1 k).
  rewrite insert_into_trie_cons.
  assert (Hk2 : index_of node2 (letter_index ch) = k) by done.
  assert (He : ensure_child node2 ch = node2).
  { unfold ensure_child. rewrite Hk2.
    destruct (Z.eqb_spec k (-1)); [lia|done]. }
  rewrite He, Hk2. unfold node2, alter_child. simpl. f_equal.
  unfold vec_alter. destruct (Z.ltb_spec k 0); [lia|].
  rewrite list_alter_alter_eq. apply list_alter_ext; [|done].
  intros c Hc. rewrite Hlook in Hc. injection Hc as <-. simpl. by apply IH.
Qed.

Lemma insert_into_trie_idempotent_witness :
  insert_into_trie (insert_into_trie (@global_trie_root bat_act_game) "CAB") "CAB"
  = insert_into_trie (@global_trie_root bat_act_game) "CAB".
Proof.
  apply insert_into_trie_idempotent.
  - apply (@global_trie_root_spec bat_act_game EmptyString).
  - reflexivity.
Defined.

(** ** The search: the word of a move *)

Lemma toupper_upper ch : isupper ch = true -> toupper ch = ch.
Proof.
  destruct ch as [[] [] [] [] [] [] [] []]; vm_compute; (done || discriminate).
Qed.

Lemma toupper_tolower ch : isupper ch = true -> toupper (tolower ch) = ch.
Proof.
  destruct ch as [[] [] [] [] [] [] [] []]; vm_compute; (done || discriminate).
Qed.

Lemma index_isupper ch : 0 <= letter_index ch < 26 -> isupper ch = true.
Proof.
  unfold isupper, letter_index. intros H. apply andb_true_iff.
  split; apply Z.leb_le; lia.
Qed.

Lemma walk_snoc node w ch :
  walk node (w ++ String ch EmptyString)
  = match walk node w with
    | Some n => child_for n (letter_index ch)
    | None => None
    end.
Proof.
  revert node. induction w as [|c w IH]; intros node; simpl.
  - by destruct (child_for _ _).
  - destruct (child_for node (letter_index c)); [apply IH|done].
Qed.

Lemma letters_between_snoc board mv r n : forall c,
  letters_between board mv r (S n) c
  = (letters_between board mv r n c
     ++ String (toupper (letter_at board mv r (c + Z.of_nat n))) EmptyString)%string.
Proof.
  induction n as [|n IH]; intros c.
  - simpl. by rewrite Z.add_0_r.
  - change (letters_between board mv r (S (S n)) c)
      with (String (toupper (letter_at board mv r c))
              (letters_between board mv r (S n) (c + 1))).
    rewrite IH. replace (c + Z.of_nat (S n)) with (c + 1 + Z.of_nat n) by lia.
    reflexivity.
Qed.

Lemma letters_between_ext board mv mv' r n : forall c,
  (forall c', c <= c' < c + Z.of_nat n ->
     letter_at board mv' r c' = letter_at board mv r c') ->
  letters_between board mv' r n c = letters_between board mv r n c.
Proof.
  induction n as [|n IH]; intros c H; [done|]. simpl.
  rewrite H by lia. f_equal. apply IH. intros c' Hc'. apply H. lia.
Qed.

Lemma find_col_none (mv : list Square) c :
  Forall (fun sq => col sq <> c) mv ->
  List.find (fun sq => col sq =? c) mv = None.
Proof.
  induction 1 as [|sq mv Hsq _ IH]; [done|]. simpl.
  destruct (Z.eqb_spec (col sq) c); [done|apply IH].
Qed.

Lemma letter_at_snoc_old board mv sq r c :
  col sq <> c -> letter_at board (mv ++ [sq]) r c = letter_at board mv r c.
Proof.
  intros Hne. unfold letter_at.
  induction mv as [|s mv IH]; simpl.
  - destruct (Z.eqb_spec (col sq) c); done.
  - destruct (col s =? c); [done|apply IH].
Qed.

Lemma letter_at_snoc_new board mv sq r :
  Forall (fun s => col s <> col sq) mv ->
  letter_at board (mv ++ [sq]) r (col sq) = letter sq.
Proof.
  intros H. unfold letter_at.
  induction H as [|s mv Hs _ IH]; simpl.
  - by rewrite Z.eqb_refl.
  - destruct (Z.eqb_spec (col s) (col sq)); [done|apply IH].
Qed.

Lemma letter_at_board board mv r c :
  Forall (fun s => col s <> c) mv ->
  letter_at board mv r c = letter (board_at board r c).
Proof. intros H. unfold letter_at. by rewrite find_col_none. Qed.

Section Spelling.
Context {G : Globals}.

Lemma subcalls_child board rack node sqr min_word_length curr_move c' :
  c' ∈ subcalls board rack node sqr min_word_length curr_move ->
  exists n ltr,
    children node !! n = Some (call_node c') /\
    (ltr = node_letter (call_node c') \/ ltr = tolower (node_letter (call_node c'))) /\
    call_move c' = add_sqr_to_move (row sqr) (col sqr) ltr curr_move.
Proof.
  unfold subcalls. intros (child & Hchild & H)%list_elem_of_omap.
  apply list_elem_of_lookup in Hchild as [n Hn].
  unfold tentative in H.
  destruct (_ && _).
  - injection H as <-. exists n, (node_letter child). simpl. auto.
  - destruct (_ && _); [|done].
    injection H as <-. exists n, (tolower (node_letter child)). simpl. auto.
Qed.

Lemma child_in_list node n child :
  wf_node node -> children node !! n = Some child ->
  wf_node child /\ isupper (node_letter child) = true /\
  child_for node (letter_index (node_letter child)) = Some child.
Proof.
  intros Hwf Hn. inversion Hwf as [? Hlen Hidx Hch Hsub]; subst.
  pose proof (Hch n child Hn) as Hi.
  split; [|split].
  - rewrite Forall_lookup in Hsub. by eapply Hsub.
  - apply index_isupper.
    destruct (decide (0 <= letter_index (node_letter child) < 26)); [done|].
    rewrite index_of_range in Hi by done. lia.
  - unfold child_for. rewrite Hi.
    destruct (Z.eqb_spec (Z.of_nat n) (-1)); [lia|]. f_equal.
    unfold child_at. apply vec_at_lookup; [lia|]. by rewrite Nat2Z.id.
Qed.

Lemma callees_spelling board r c0 cl c' :
  coords_ok board ->
  (in_board board (row (call_square cl)) (col (call_square cl)) ->
   spelling board r c0 cl) ->
  c' ∈ callees board cl ->
  in_board board (row (call_square c')) (col (call_square c')) ->
  spelling board r c0 c'.
Proof.
  intros Hok Hpre Hc' Hin'.
  destruct (callees_square _ _ _ Hok Hc') as [Hin Hsq].
  destruct (Hpre Hin) as (Hwf & Hrow & Hc0 & Hall & Hwalk).
  destruct (Hok _ _ Hin) as [Hr Hc].
  rewrite Hsq in Hin'. apply in_board_square in Hin' as (_ & Hr' & Hc'c); [|done].
  unfold spelling. rewrite Hsq, Hr', Hc'c.
  set (c := col (call_square cl)) in *.
  replace (Z.to_nat (c + 1 - c0)) with (S (Z.to_nat (c - c0))) by lia.
  rewrite letters_between_snoc, walk_snoc.
  replace (c0 + Z.of_nat (Z.to_nat (c - c0))) with c by lia.
  assert (Hcols : Forall (fun s => col s <> c) (call_move cl)).
  { eapply Forall_impl; [exact Hall|]. simpl. intros s [_ Hs]. lia. }
  unfold callees, square_of in Hc'. fold c in Hc'.
  destruct (SquareType_eqb _ outside); [by apply elem_of_nil in Hc'|].
  destruct (is_dot _).
  - apply subcalls_child in Hc' as (n & ltr & Hn & Hltr & Hmv).
    destruct (child_in_list _ _ _ Hwf Hn) as (Hwfc & Hup & Hfor).
    rewrite Hmv. unfold add_sqr_to_move. rewrite Hr, Hc. fold c.
    set (sq := mkSquare _ _ ltr _ c _).
    split; [done|]. split; [done|]. split; [lia|]. split.
    + apply Forall_app. split.
      * eapply Forall_impl; [exact Hall|]. simpl. intros s [? ?].
        split; [done|lia].
      * constructor; [|done]. simpl. split; [by rewrite <- Hrow|lia].
    + rewrite (letters_between_ext board (call_move cl)).
      * rewrite Hwalk.
        rewrite (letter_at_snoc_new board (call_move cl) sq) by done. simpl.
        destruct Hltr as [->| ->].
        -- by rewrite toupper_upper.
        -- by rewrite toupper_tolower.
      * intros c1 Hc1. apply letter_at_snoc_old. simpl. lia.
  - destruct (negb _) eqn:Hk; [|by apply elem_of_nil in Hc'].
    apply list_elem_of_singleton in Hc' as ->. simpl.
    assert (Hfor : child_for (call_node cl)
                     (letter_index (toupper (letter (board_at board (row (call_square cl)) c))))
                   = Some (child_at (call_node cl)
                             (index_of (call_node cl)
                                (letter_index (toupper (letter (board_at board (row (call_square cl)) c))))))).
    { unfold child_for. apply negb_true_iff in Hk. by rewrite Hk. }
    split; [by eapply child_for_wf|]. split; [done|]. split; [lia|]. split.
    + eapply Forall_impl; [exact Hall|]. simpl. intros s [? ?].
      split; [done|lia].
    + rewrite Hwalk, letter_at_board by done.
      by rewrite <- Hrow.
Qed.

Lemma arrive_spells board r c0 cl st :
  (in_board board (row (call_square cl)) (col (call_square cl)) ->
   spelling board r c0 cl) ->
  best_move st = [] \/ spells_word board (best_move st) ->
  best_move (arrive board cl st) = [] \/
  spells_word board (best_move (arrive board cl st)).
Proof.
  intros Hpre Hst. unfold arrive.
  destruct (complete_move board cl) eqn:Hcomplete; [|done].
  unfold record_move. destruct (_ >? _); [|done]. simpl. right.
  unfold complete_move, square_of in Hcomplete.
  apply andb_true_iff in Hcomplete as [Hcomplete _].
  apply andb_true_iff in Hcomplete as [Hcomplete Hterm].
  apply andb_true_iff in Hcomplete as [Hout _].
  apply negb_true_iff, not_outside_in_board in Hout.
  destruct (Hpre Hout) as (Hwf & Hrow & Hc0 & Hall & Hwalk).
  exists r, c0, (Z.to_nat (col (call_square cl) - c0)). split.
  - eapply Forall_impl; [exact Hall|]. simpl. intros s [? ?].
    split; [done|lia].
  - unfold stores. by rewrite Hwalk.
Qed.

(** Every move that the search over the squares of the board records lies
    in one row and, laid on the board, spells in a stretch of that row that
    holds all its squares a word of the lexicon that is longer than two
    letters. *)
Theorem across_search_spells fuel board rack s :
  coords_ok board -> across_search fuel board rack = Some s ->
  best_move s = [] \/
  exists r c0 n,
    Forall (fun sq => row sq = r /\ c0 <= col sq < c0 + Z.of_nat n)
      (best_move s) /\
    In (letters_between board (best_move s) r n c0) global_words /\
    eligible (letters_between board (best_move s) r n c0) = true.
Proof.
  intros Hok Hrun.
  assert (H : best_move s = [] \/ spells_word board (best_move s)).
  { revert Hrun. unfold across_search.
    apply (fold_opt_inv _ (fun s => best_move s = [] \/ spells_word board (best_move s)));
      [|by left].
    intros st [r c] st' _ Hst. destruct (worth_trying _); [|by intros [= <-]].
    set (cl := mkCall rack global_trie_root (board_at board r c)
                 (min_across_word_length (board_at board r c)) []).
    apply (search_invariant board
             (fun c1 => in_board board (row (call_square c1)) (col (call_square c1)) ->
                        spelling board (row (call_square cl)) (col (call_square cl)) c1)
             (fun s => best_move s = [] \/ spells_word board (best_move s))
             (fun c1 c2 H1 H2 => callees_spelling board _ _ c1 c2 Hok H1 H2)
             (fun c1 s1 H1 H2 => arrive_spells board _ _ c1 s1 H1 H2)
             fuel cl st st'); [|done].
    intros _. unfold spelling. simpl. rewrite Z.sub_diag. simpl.
    split; [apply (global_trie_root_spec EmptyString)|]. repeat split; try done; lia. }
  destruct H as [Hnil|(r & c0 & n & Hall & Hst)]; [by left|right].
  exists r, c0, n. split; [done|].
  by apply (global_trie_root_spec (letters_between board (best_move s) r n c0)).
Qed.

End Spelling.

Lemma across_search_spells_witness :
  exists s,
    @across_search bat_game 18 bat_board bat_rack = Some s /\
    (best_move s = [] \/
     exists r c0 n,
       Forall (fun sq => row sq = r /\ c0 <= col sq < c0 + Z.of_nat n)
      (best_move s) /\
       In (letters_between bat_board (best_move s) r n c0)
          (@global_words bat_game) /\
       eligible (letters_between bat_board (best_move s) r n c0) = true).
Proof.
  destruct (@across_search bat_game 18 bat_board bat_rack) as [s|] eqn:E;
    [|vm_compute in E; discriminate].
  exists s. split; [reflexivity|].
  apply (@across_search_spells bat_game 18 bat_board bat_rack s); [|exact E].
  apply coords_okb_ok. vm_compute. reflexivity.
Defined.

(** ** update_down_cross_checks: the sets it writes *)


Lemma length_board_alter f board r c :
  length (board_alter f board r c) = length board.
Proof. unfold board_alter. apply length_vec_alter. Qed.

Lemma same_squares_refl board : same_squares board board.
Proof. unfold same_squares. tauto. Qed.

Lemma above_fragment_same board0 board c n : forall acc,
  same_squares board0 board ->
  above_fragment board c n acc = above_fragment board0 c n acc.
Proof.
  intros acc (Hl & Ht & _). revert acc.
  induction n as [|n IH]; intros acc; [done|]. simpl.
  unfold holds_tile. rewrite Hl, Ht.
  destruct (_ && _); [apply IH|done].
Qed.

Lemma below_fragment_same board0 board c n : forall r acc,
  same_squares board0 board ->
  below_fragment board c n r acc = below_fragment board0 c n r acc.
Proof.
  intros r acc (Hl & Ht & _). revert r acc.
  induction n as [|n IH]; intros r acc; [done|]. simpl.
  unfold holds_tile. rewrite Hl, Ht.
  destruct (_ && _); [apply IH|done].
Qed.

Lemma fragments_same board0 board r c :
  same_squares board0 board ->
  above_of board r c = above_of board0 r c /\
  below_of board r c = below_of board0 r c.
Proof.
  intros H. unfold above_of, below_of, rows_from.
  rewrite (above_fragment_same board0), (below_fragment_same board0) by done.
  destruct H as (_ & _ & -> & _). done.
Qed.

Section CrossChecks.
Context {G : Globals}.

Lemma update_square_cross_check_same board0 board r c :
  same_squares board0 board ->
  same_squares board0 (update_square_cross_check board r c).
Proof.
  intros (Hl & Ht & Hlen & Hin). unfold update_square_cross_check.
  destruct (is_dot _); [|done]. destruct (_ && _); [done|].
  split; [|split; [|split]].
  - intros r' c'. by rewrite (board_at_alter_proj letter).
  - intros r' c'. by rewrite (board_at_alter_proj type).
  - by rewrite length_board_alter.
  - intros r' c'. by rewrite in_board_alter.
Qed.

(** The loop over the 26 letters writes, for each letter, whether the word
    made with it is in the lexicon. *)
Lemma check_letters_at above below cc k :
  (26 <= length cc)%nat -> 0 <= k < 26 ->
  vec_at false (check_letters above below cc) k
  = word_found (test_word above (65 + k) below).
Proof.
  intros Hlen Hk. unfold check_letters.
  apply (fold_left_settles
           (fun cc t => vec_set cc (t - 65) (word_found (test_word above t below)))
           (fun cc => (26 <= length cc)%nat)
           (fun cc => vec_at false cc k = word_found (test_word above (65 + k) below))
           (65 + k)).
  - intros a y Ha. unfold vec_set. by rewrite length_vec_alter.
  - intros a Ha. unfold vec_set.
    replace (65 + k - 65) with k by lia.
    rewrite vec_at_alter_eq; [done|lia|lia].
  - intros a y Hy _ <-. unfold vec_set. apply vec_at_alter_ne. lia.
  - done.
  - left. apply elem_of_seqZ. lia.
Qed.

Lemma update_square_cross_check_other board r c r' c' :
  r <> r' \/ c <> c' ->
  board_at (update_square_cross_check board r c) r' c' = board_at board r' c'.
Proof.
  intros Hne. unfold update_square_cross_check.
  destruct (is_dot _); [|done]. destruct (_ && _); [done|].
  by apply board_at_alter_ne.
Qed.

Lemma update_square_cross_check_done board0 board r c :
  same_squares board0 board -> in_board board r c ->
  down_cross_check (board_at board r c) = down_cross_check (board_at board0 r c) ->
  cross_check_done board0 r c
    (down_cross_check (board_at (update_square_cross_check board r c) r c)).
Proof.
  intros Hsame Hin Hcc. unfold cross_check_done, update_square_cross_check.
  destruct (fragments_same board0 board r c Hsame) as [-> ->].
  destruct Hsame as (Hl & _). rewrite Hl.
  destruct (is_dot _); simpl; [|done].
  destruct (_ && _); simpl; [done|].
  intros k Hlen Hk. rewrite board_at_alter_eq by done. simpl.
  apply check_letters_at; [by rewrite Hcc|done].
Qed.

Lemma update_row_cross_check_keeps (P : list (list Square) -> Prop) board y :
  (forall b c0, P b -> P (update_square_cross_check b y c0)) ->
  P board ->
  P (fold_left (fun board c => update_square_cross_check board y c)
       (seqZ 1 NUM_BOARD_COLS) board).
Proof.
  intros Hstep. apply fold_left_keeps. intros b c0 _. apply Hstep.
Qed.

(** After [update_down_cross_checks], an empty playable square with a tile
    right above or right below it allows exactly the letters that make,
    with the tiles above and below, a word of the lexicon; every other
    playable square keeps the set it had. *)
Theorem update_down_cross_checks_sets board r c :
  playable r c -> in_board board r c ->
  cross_check_done board r c
    (down_cross_check (board_at (update_down_cross_checks board) r c)).
Proof.
  intros [Hr Hc] Hin. unfold update_down_cross_checks.
  set (Before := fun b : list (list Square) =>
         same_squares board b /\
         down_cross_check (board_at b r c) = down_cross_check (board_at board r c)).
  set (Post := fun b : list (list Square) =>
         same_squares board b /\
         cross_check_done board r c (down_cross_check (board_at b r c))).
  assert (Hother : forall (Q : list (list Square) -> Prop) y,
            y <> r ->
            (forall b c0, Q b -> Q (update_square_cross_check b y c0)) ->
            forall b, Q b ->
            Q (fold_left (fun board c => update_square_cross_check board y c)
                 (seqZ 1 NUM_BOARD_COLS) b)).
  { intros Q y _ Hstep b. by apply update_row_cross_check_keeps. }
  apply (fold_left_once
           (fun board r =>
              fold_left (fun board c => update_square_cross_check board r c)
                (seqZ 1 NUM_BOARD_COLS) board)
           Before Post r).
  - intros b y Hy. apply Hother; [done|].
    intros b0 c0 [Hs Hcc]. split; [by apply update_square_cross_check_same|].
    rewrite update_square_cross_check_other; [done|by left].
  - intros b Hb.
    apply (fold_left_once (fun board c => update_square_cross_check board r c)
             Before Post c); [| | |apply NoDup_seqZ| |done].
    + intros b0 y Hy [Hs Hcc]. split; [by apply update_square_cross_check_same|].
      rewrite update_square_cross_check_other; [done|by right].
    + intros b0 [Hs Hcc]. split; [by apply update_square_cross_check_same|].
      apply update_square_cross_check_done; [done| |done].
      destruct Hs as (_ & _ & _ & Hi). by apply Hi.
    + intros b0 y Hy [Hs Hd]. split; [by apply update_square_cross_check_same|].
      rewrite update_square_cross_check_other; [done|by right].
    + apply elem_of_seqZ. unfold NUM_BOARD_COLS in *. lia.
  - intros b y Hy. apply Hother; [done|].
    intros b0 c0 [Hs Hd]. split; [by apply update_square_cross_check_same|].
    rewrite update_square_cross_check_other; [done|by left].
  - apply NoDup_seqZ.
  - apply elem_of_seqZ. unfold NUM_BOARD_ROWS in *. lia.
  - split; [apply same_squares_refl|done].
Qed.

End CrossChecks.

Lemma update_down_cross_checks_sets_witness :
  cross_check_done (G := bat_game) tile_at_centre 7 8
    (down_cross_check
       (board_at (@update_down_cross_checks bat_game tile_at_centre) 7 8)).
Proof.
  apply (@update_down_cross_checks_sets bat_game); [playable_tac|in_board_tac].
Defined.

(** ** update_min_across_word_length: the values it writes *)

Lemma min_length_step_next_to_tile r st c :
  in_board st.1 r c -> occupied st.1 r (c - 1) = false ->
  occupied st.1 (r - 1) c || occupied st.1 (r + 1) c
  || occupied st.1 r (c + 1) || occupied st.1 r c = true ->
  min_across_word_length (board_at (min_length_step r st c).1 r c) = 1.
Proof.
  destruct st as [board m]. simpl. intros Hin Hleft Hnext.
  unfold min_length_step. rewrite Hleft, Hnext. simpl.
  by rewrite board_at_alter_eq.
Qed.

(** A playable square with an empty square to its left and a tile above,
    below, to its right or on it gets the minimum length 1. *)
Theorem update_min_next_to_tile board r c :
  playable r c -> in_board board r c ->
  occupied board r (c - 1) = false ->
  occupied board (r - 1) c || occupied board (r + 1) c
  || occupied board r (c + 1) || occupied board r c = true ->
  min_across_word_length
    (board_at (update_min_across_word_length board) r c) = 1.
Proof.
  intros [Hr Hc] Hin Hleft Hnext. unfold update_min_across_word_length.
  apply (fold_left_settles update_min_row (same_tiles board)
           (fun b => min_across_word_length (board_at b r c) = 1) r).
  - intros b y. apply update_min_row_same_tiles.
  - intros b [Ho Hi]. unfold update_min_row.
    apply (fold_left_settles (min_length_step r)
             (fun st => same_tiles board st.1)
             (fun st => min_across_word_length (board_at st.1 r c) = 1) c).
    + intros st y. apply min_length_step_same_tiles.
    + intros st [Ho' Hi']. apply min_length_step_next_to_tile.
      * by apply Hi'.
      * by rewrite Ho'.
      * by rewrite !Ho'.
    + intros st y Hy _ <-. f_equal. apply min_length_step_other. by right.
    + by split.
    + left. unfold cols_right_to_left. apply elem_of_reverse, elem_of_seqZ. lia.
  - intros b y Hy _ <-. f_equal. by apply update_min_row_other.
  - apply same_tiles_refl.
  - left. apply elem_of_seqZ. unfold NUM_BOARD_ROWS in *. lia.
Qed.

Lemma min_length_step_value r st c :
  in_board st.1 r c -> st.2 = -1 \/ 1 <= st.2 ->
  let st' := min_length_step r st c in
  (st'.2 = -1 \/ 1 <= st'.2) /\
  (min_across_word_length (board_at st'.1 r c) = -1 \/
   1 <= min_across_word_length (board_at st'.1 r c)).
Proof.
  destruct st as [board m]. simpl. intros Hin Hm.
  unfold min_length_step.
  destruct (occupied board r (c - 1)); simpl.
  - split; [done|]. rewrite board_at_alter_eq by done. by left.
  - destruct (_ || _); simpl.
    + split; [lia|]. rewrite board_at_alter_eq by done. simpl. lia.
    + destruct (Z.eqb_spec m (-1)); simpl.
      * split; [by left|]. rewrite board_at_alter_eq by done. by left.
      * split; [lia|]. rewrite board_at_alter_eq by done. simpl. lia.
Qed.

Lemma update_min_row_value board r c :
  1 <= c <= NUM_BOARD_COLS -> in_board board r c ->
  let v := min_across_word_length (board_at (update_min_row board r) r c) in
  v = -1 \/ 1 <= v.
Proof.
  intros Hc Hin. unfold update_min_row.
  apply (fold_left_settles (min_length_step r)
           (fun st => in_board st.1 r c /\ (st.2 = -1 \/ 1 <= st.2))
           (fun st => min_across_word_length (board_at st.1 r c) = -1 \/
                      1 <= min_across_word_length (board_at st.1 r c)) c).
  - intros st y [Hi Hm]. split; [by apply min_length_step_in_board|].
    destruct st as [b m]. simpl in *. unfold min_length_step.
    repeat case_match; simpl; lia.
  - intros st [Hi Hm]. by apply min_length_step_value.
  - intros st y Hy _ H. rewrite min_length_step_other; [done|by right].
  - split; [done|by left].
  - left. unfold cols_right_to_left. apply elem_of_reverse, elem_of_seqZ. lia.
Qed.

(** After [update_min_across_word_length] a playable square from which the
    search starts has a minimum length between 1 and 7 and an empty square
    to its left. *)
Theorem update_min_anchor board r c :
  playable r c -> in_board board r c ->
  let v := min_across_word_length
             (board_at (update_min_across_word_length board) r c) in
  (v = -1 \/ 1 <= v) /\
  (worth_trying v = true -> 1 <= v <= 7 /\ occupied board r (c - 1) = false).
Proof.
  intros [Hr Hc] Hin v.
  assert (Hv : v = -1 \/ 1 <= v).
  { unfold v, update_min_across_word_length.
    apply (fold_left_settles update_min_row (same_tiles board)
             (fun b => min_across_word_length (board_at b r c) = -1 \/
                       1 <= min_across_word_length (board_at b r c)) r).
    - intros b y. apply update_min_row_same_tiles.
    - intros b [Ho Hi]. apply update_min_row_value; [done|by apply Hi].
    - intros b y Hy _ H. by rewrite update_min_row_other.
    - apply same_tiles_refl.
    - left. apply elem_of_seqZ. unfold NUM_BOARD_ROWS in *. lia. }
  split; [done|]. unfold worth_trying, NUM_RACK_TILES.
  intros [Hle Hne]%andb_true_iff. apply Z.leb_le in Hle.
  apply negb_true_iff, Z.eqb_neq in Hne. split; [lia|].
  destruct (occupied board r (c - 1)) eqn:Hleft; [|done].
  exfalso. apply Hne. unfold v, update_min_across_word_length.
  apply (fold_left_settles update_min_row (same_tiles board)
           (fun b => min_across_word_length (board_at b r c) = -1) r).
  - intros b y. apply update_min_row_same_tiles.
  - intros b [Ho Hi]. apply update_min_row_right_of_tile;
      [done|by apply Hi|by rewrite Ho].
  - intros b y Hy _ <-. f_equal. by apply update_min_row_other.
  - apply same_tiles_refl.
  - left. apply elem_of_seqZ. unfold NUM_BOARD_ROWS in *. lia.
Qed.

Lemma update_min_no_tile_at board r c :
  (forall r' c', occupied board r' c' = false) ->
  playable r c ->
  min_across_word_length
    (board_at (update_min_across_word_length board) r c) = -1.
Proof.
  intros Hempty [Hr Hc].
  destruct (board_at_cases (update_min_across_word_length board) r c)
    as [Hin| ->]; [|done].
  destruct (update_min_across_word_length_same_tiles board) as [_ Hi].
  apply Hi in Hin. unfold update_min_across_word_length.
  apply (fold_left_settles update_min_row (same_tiles board)
           (fun b => min_across_word_length (board_at b r c) = -1) r).
  - intros b y. apply update_min_row_same_tiles.
  - intros b [Ho Hi']. unfold update_min_row.
    apply (fold_left_settles (min_length_step r)
             (fun st => same_tiles board st.1 /\ st.2 = -1)
             (fun st => min_across_word_length (board_at st.1 r c) = -1) c).
    + intros [b0 m] y [[Ho0 Hi0] Hm]. simpl in *. subst m.
      split; [by apply (min_length_step_same_tiles board r (b0, -1))|].
      unfold min_length_step. rewrite !Ho0, !Hempty. done.
    + intros [b0 m] [[Ho0 Hi0] Hm]. simpl in *. subst m.
      unfold min_length_step. rewrite !Ho0, !Hempty. simpl.
      rewrite board_at_alter_eq; [done|by apply Hi0].
    + intros st y Hy _ <-. f_equal. apply min_length_step_other. by right.
    + split; [by split|done].
    + left. unfold cols_right_to_left. apply elem_of_reverse, elem_of_seqZ. lia.
  - intros b y Hy _ <-. f_equal. by apply update_min_row_other.
  - apply same_tiles_refl.
  - left. apply elem_of_seqZ. unfold NUM_BOARD_ROWS in *. lia.
Qed.

Lemma occupied_none board :
  forallb (forallb (fun sq => is_dot (letter sq))) board = true ->
  forall r c, occupied board r c = false.
Proof.
  intros H r c. unfold occupied, board_at, vec_at.
  destruct (r <? 0); [by destruct (c <? 0)|].
  destruct (board !! Z.to_nat r) as [rw|] eqn:Er; simpl; [|by destruct (c <? 0)].
  destruct (c <? 0); [done|].
  destruct (rw !! Z.to_nat c) as [sq|] eqn:Ec; simpl; [|done].
  rewrite forallb_forall in H.
  apply list_elem_of_lookup_2, list_elem_of_In, H in Er.
  rewrite forallb_forall in Er.
  apply list_elem_of_lookup_2, list_elem_of_In, Er in Ec.
  by rewrite Ec.
Qed.

Section NoTiles.
Context {G : Globals}.

(** On a board without any tile, [update_min_across_word_length] leaves no
    square from which the search would start: the search over the squares
    returns at once with no move, which is why [find_best_move] treats the
    first move apart. *)
Theorem across_search_no_tiles fuel board rack :
  (forall r c, occupied board r c = false) ->
  across_search fuel (update_min_across_word_length board) rack
  = Some (mkSearch [] 0 []).
Proof.
  intros Hempty. unfold across_search.
  generalize (mkSearch [] 0 []).
  assert (H : forall cells, Forall (fun '(r, c) => playable r c) cells ->
            forall st,
            fold_opt
              (fun st '(r, c) =>
                 let curr_move := [] in
                 let sqr := board_at (update_min_across_word_length board) r c in
                 let min_word_length := min_across_word_length sqr in
                 if worth_trying min_word_length
                 then extend_right fuel (update_min_across_word_length board)
                        rack global_trie_root sqr min_word_length curr_move st
                 else Some st) cells st = Some st).
  { induction 1 as [|[r c] cells Hrc _ IH]; intros st; [done|].
    rewrite fold_opt_cons. cbv beta zeta.
    rewrite update_min_no_tile_at by done. simpl. apply IH. }
  apply H. apply Forall_forall. intros [r c] Hrc.
  by apply elem_of_board_cells.
Qed.

End NoTiles.

Lemma update_min_next_to_tile_witness :
  min_across_word_length
    (board_at (update_min_across_word_length tile_at_centre) 7 8) = 1.
Proof.
  apply update_min_next_to_tile.
  - playable_tac.
  - in_board_tac.
  - vm_compute. reflexivity.
  - vm_compute. reflexivity.
Defined.

Lemma update_min_anchor_witness :
  let v := min_across_word_length
             (board_at (update_min_across_word_length tile_at_centre) 8 8) in
  (v = -1 \/ 1 <= v) /\
  (worth_trying v = true ->
   1 <= v <= 7 /\ occupied tile_at_centre 8 (8 - 1) = false).
Proof.
  apply update_min_anchor; [playable_tac|in_board_tac].
Defined.

Lemma across_search_no_tiles_witness :
  @across_search bat_game 18
    (update_min_across_word_length (fresh_board plain_layout)) bat_rack
  = Some (mkSearch [] 0 []).
Proof.
  apply (@across_search_no_tiles bat_game).
  apply occupied_none. vm_compute. reflexivity.
Defined.

(** ** invert_board and invert_move *)

Section Transpose.
Context {G : Globals}.

Lemma playable_swap r c : playable r c -> playable c r.
Proof. unfold playable, NUM_BOARD_ROWS, NUM_BOARD_COLS. lia. Qed.

(** [invert_board] puts on the playable square [(r, c)] the tile and the
    type of the square [(c, r)], with [(r, c)] as its place. *)
Theorem invert_board_transposes board r c :
  playable r c -> in_board board r c ->
  let sq := board_at (invert_board board) r c in
  letter sq = letter (board_at board c r) /\
  type sq = type (board_at board c r) /\
  row sq = r /\ col sq = c.
Proof.
  intros Hp Hin sq. unfold sq.
  rewrite (invert_board_proj letter), (invert_board_proj type),
    (invert_board_proj row), (invert_board_proj col) by done.
  by rewrite swap_squares_playable.
Qed.

(** Outside the playable squares [invert_board] keeps tile, type and place
    of every square. *)
Theorem invert_board_border board r c :
  ~ playable r c ->
  let sq := board_at (invert_board board) r c in
  letter sq = letter (board_at board r c) /\
  type sq = type (board_at board r c) /\
  row sq = row (board_at board r c) /\ col sq = col (board_at board r c).
Proof.
  intros Hp sq. unfold sq.
  rewrite (invert_board_proj letter), (invert_board_proj type),
    (invert_board_proj row), (invert_board_proj col) by done.
  by rewrite swap_squares_border.
Qed.

Lemma invert_board_twice_at board r c :
  playable r c -> in_board board r c -> in_board board c r ->
  letter (board_at (invert_board (invert_board board)) r c)
    = letter (board_at board r c) /\
  type (board_at (invert_board (invert_board board)) r c)
    = type (board_at board r c).
Proof.
  intros Hp Hin Hin'.
  rewrite (invert_board_proj letter), (invert_board_proj type) by done.
  rewrite swap_squares_playable; [|done|by apply invert_board_in_board]. simpl.
  rewrite (invert_board_proj letter), (invert_board_proj type) by done.
  rewrite swap_squares_playable; [done|by apply playable_swap|done].
Qed.

Lemma invert_move_twice across_move :
  invert_move (invert_move across_move) = across_move.
Proof.
  induction across_move as [|sq mv IH]; [done|].
  change (invert_move (invert_move (sq :: mv)))
    with (set_row_col (col (set_row_col (col sq) (row sq) sq))
            (row (set_row_col (col sq) (row sq) sq))
            (set_row_col (col sq) (row sq) sq)
          :: invert_move (invert_move mv)).
  rewrite IH. by destruct sq.
Qed.

(** Inverting twice gives back the tile and the type of every playable
    square, and the move. *)
Theorem invert_twice board across_move r c :
  playable r c -> in_board board r c -> in_board board c r ->
  letter (board_at (invert_board (invert_board board)) r c)
    = letter (board_at board r c) /\
  type (board_at (invert_board (invert_board board)) r c)
    = type (board_at board r c) /\
  invert_move (invert_move across_move) = across_move.
Proof.
  intros Hp Hin Hin'.
  destruct (invert_board_twice_at board r c Hp Hin Hin') as [Hl Ht].
  split; [done|]. split; [done|]. apply invert_move_twice.
Qed.

End Transpose.

Lemma invert_board_transposes_witness :
  let sq := board_at (@invert_board bat_game (lay tile_at_centre 8 9 "T"%char)) 9 8 in
  letter sq = letter (board_at (lay tile_at_centre 8 9 "T"%char) 8 9) /\
  type sq = type (board_at (lay tile_at_centre 8 9 "T"%char) 8 9) /\
  row sq = 9 /\ col sq = 8.
Proof.
  apply (@invert_board_transposes bat_game); [playable_tac|in_board_tac].
Defined.

Lemma invert_board_border_witness :
  let sq := board_at (@invert_board bat_game tile_at_centre) 0 8 in
  letter sq = letter (board_at tile_at_centre 0 8) /\
  type sq = type (board_at tile_at_centre 0 8) /\
  row sq = row (board_at tile_at_centre 0 8) /\
  col sq = col (board_at tile_at_centre 0 8).
Proof.
  apply (@invert_board_border bat_game). playable_tac.
Defined.

Lemma invert_twice_witness :
  letter (board_at (@invert_board bat_game (@invert_board bat_game (lay tile_at_centre 8 9 "T"%char))) 8 9)
    = letter (board_at (lay tile_at_centre 8 9 "T"%char) 8 9) /\
  type (board_at (@invert_board bat_game (@invert_board bat_game (lay tile_at_centre 8 9 "T"%char))) 8 9)
    = type (board_at (lay tile_at_centre 8 9 "T"%char) 8 9) /\
  invert_move (invert_move at_move) = at_move.
Proof.
  apply (@invert_twice bat_game); [playable_tac|in_board_tac|in_board_tac].
Defined.

(** ** fill_rack *)

Lemma rack_total_put rack i :
  Forall (Z.le 0) rack ->
  Forall (Z.le 0) (vec_alter Z.succ rack i) /\
  rack_total rack <= rack_total (vec_alter Z.succ rack i) <= rack_total rack + 1.
Proof.
  intros Hnn. unfold vec_alter, rack_total. destruct (i <? 0); [split; [done|lia]|].
  generalize (Z.to_nat i). intros n. revert n.
  induction Hnn as [|x rack Hx Hnn IH]; intros [|n]; simpl.
  - split; [done|lia].
  - split; [done|lia].
  - split; [constructor; [lia|done]|lia].
  - destruct (IH n) as [H1 H2]. unfold alter in *. split; [by constructor|lia].
Qed.

Lemma fill_rack_bounds letters :
  length (fill_rack letters) = 27%nat /\
  Forall (Z.le 0) (fill_rack letters) /\
  rack_total (fill_rack letters) <= NUM_RACK_TILES /\
  rack_total (fill_rack letters) <= Z.of_nat (String.length letters).
Proof.
  unfold fill_rack.
  set (n := Z.to_nat (if NUM_RACK_TILES >? Z.of_nat (String.length letters)
                      then Z.of_nat (String.length letters) else NUM_RACK_TILES)).
  assert (Hn : Z.of_nat n <= NUM_RACK_TILES /\ (n <= String.length letters)%nat).
  { unfold n, NUM_RACK_TILES. destruct (Z.gtb_spec 7 (Z.of_nat (String.length letters))); lia. }
  set (chars := take n (list_ascii_of_string letters)).
  assert (Hchars : (length chars <= n)%nat).
  { unfold chars. rewrite length_take. lia. }
  assert (H : forall l rack,
            length rack = 27%nat -> Forall (Z.le 0) rack ->
            let rack' := fold_left
              (fun rack ch =>
                 if isupper ch then vec_alter Z.succ rack (letter_index ch)
                 else if Ascii.eqb ch "*" then vec_alter Z.succ rack 26
                 else rack) l rack in
            length rack' = 27%nat /\ Forall (Z.le 0) rack' /\
            rack_total rack' <= rack_total rack + Z.of_nat (length l)).
  { induction l as [|ch l IH]; intros rack Hlen Hnn; simpl.
    - split; [done|]. split; [done|lia].
    - set (rack1 := if isupper ch then _ else _).
      assert (H1 : length rack1 = 27%nat /\ Forall (Z.le 0) rack1 /\
                   rack_total rack1 <= rack_total rack + 1).
      { unfold rack1. destruct (isupper ch); [|destruct (Ascii.eqb ch "*")].
        - destruct (rack_total_put rack (letter_index ch) Hnn) as [? ?].
          rewrite length_vec_alter. split; [done|]. split; [done|lia].
        - destruct (rack_total_put rack 26 Hnn) as [? ?].
          rewrite length_vec_alter. split; [done|]. split; [done|lia].
        - split; [done|]. split; [done|lia]. }
      destruct H1 as (Hl1 & Hn1 & Ht1).
      destruct (IH rack1 Hl1 Hn1) as (Hl2 & Hn2 & Ht2).
      split; [done|]. split; [done|lia]. }
  destruct (H chars (replicate 27 0)) as (Hl & Hnn & Ht).
  - apply length_replicate.
  - by apply Forall_replicate.
  - split; [done|]. split; [done|].
    change (rack_total (replicate 27 0)) with 0 in Ht. lia.
Qed.

Lemma code_char_of z : 0 <= z < 256 -> code (char_of z) = z.
Proof.
  intros Hz. unfold code, char_of. rewrite N_ascii_embedding; lia.
Qed.

Lemma tile_char_upper ch i :
  isupper ch = true -> 0 <= i <= 26 ->
  ch = tile_char i <-> letter_index ch = i.
Proof.
  intros Hup Hi. pose proof (isupper_index _ Hup) as Hidx.
  unfold tile_char. destruct (Z.eqb_spec i 26) as [->|Hne]; split.
  - intros ->. by vm_compute in Hup.
  - lia.
  - intros ->. unfold letter_index. rewrite code_char_of; lia.
  - intros <-. apply code_inj. unfold letter_index in *.
    rewrite code_char_of; lia.
Qed.

Lemma tile_char_star i : 0 <= i <= 26 -> "*"%char = tile_char i <-> i = 26.
Proof.
  intros Hi. unfold tile_char. destruct (Z.eqb_spec i 26) as [->|Hne]; [done|].
  split; [|done]. intros H. apply (f_equal code) in H.
  rewrite code_char_of in H by lia. change (code "*") with 42 in H. lia.
Qed.

Lemma tile_char_other ch i :
  isupper ch = false -> Ascii.eqb ch "*" = false -> 0 <= i <= 26 ->
  ch <> tile_char i.
Proof.
  intros Hup Hstar Hi ->. unfold tile_char in *.
  destruct (Z.eqb_spec i 26) as [Heq|Hne]; [by vm_compute in Hstar|].
  unfold isupper in Hup. rewrite code_char_of in Hup by lia.
  apply andb_false_iff in Hup as [H|H]; apply Z.leb_gt in H; lia.
Qed.

Lemma vec_at_succ (rack : list Z) j i :
  0 <= j < Z.of_nat (length rack) ->
  vec_at 0 (vec_alter Z.succ rack j) i
  = vec_at 0 rack i + (if decide (i = j) then 1 else 0).
Proof.
  intros Hj. destruct (decide (i = j)) as [->|Hne].
  - rewrite vec_at_alter_eq by lia. lia.
  - rewrite vec_at_alter_ne by done. lia.
Qed.

Lemma fill_rack_loop i : 0 <= i <= 26 -> forall l rack,
  length rack = 27%nat ->
  vec_at 0
    (fold_left
       (fun rack ch =>
          if isupper ch then vec_alter Z.succ rack (letter_index ch)
          else if Ascii.eqb ch "*" then vec_alter Z.succ rack 26
          else rack) l rack) i
  = vec_at 0 rack i + Z.of_nat (count_occ ascii_dec l (tile_char i)).
Proof.
  intros Hi. induction l as [|ch l IH]; intros rack Hlen; simpl; [lia|].
  destruct (isupper ch) eqn:Hup; [|destruct (Ascii.eqb ch "*") eqn:Hstar].
  - pose proof (isupper_index _ Hup) as Hidx.
    rewrite IH by by rewrite length_vec_alter.
    rewrite vec_at_succ by lia.
    destruct (ascii_dec ch (tile_char i)) as [He|He];
      destruct (decide (i = letter_index ch)) as [Hd|Hd]; try lia.
    + apply tile_char_upper in He; [lia|done|done].
    + exfalso. apply He. apply tile_char_upper; [done|done|lia].
  - apply Ascii.eqb_eq in Hstar as ->.
    rewrite IH by by rewrite length_vec_alter.
    rewrite vec_at_succ by lia.
    destruct (ascii_dec "*" (tile_char i)) as [He|He];
      destruct (decide (i = 26)) as [Hd|Hd]; try lia.
    + apply tile_char_star in He; [lia|done].
    + exfalso. apply He. by apply tile_char_star.
  - rewrite IH by done.
    destruct (ascii_dec ch (tile_char i)) as [He|He]; [|done].
    by apply tile_char_other in He.
Qed.

Lemma length_list_ascii_of_string s :
  length (list_ascii_of_string s) = String.length s.
Proof. induction s; simpl; congruence. Qed.

Lemma fill_rack_reads letters :
  take (Z.to_nat (if NUM_RACK_TILES >? Z.of_nat (String.length letters)
                  then Z.of_nat (String.length letters) else NUM_RACK_TILES))
       (list_ascii_of_string letters)
  = take 7 (list_ascii_of_string letters).
Proof.
  unfold NUM_RACK_TILES.
  destruct (Z.gtb_spec 7 (Z.of_nat (String.length letters))); [|done].
  rewrite !take_ge; [done| |]; rewrite length_list_ascii_of_string; lia.
Qed.

Lemma fill_rack_exact letters i :
  0 <= i <= 26 ->
  vec_at 0 (fill_rack letters) i
  = Z.of_nat (count_occ ascii_dec (take 7 (list_ascii_of_string letters))
                (tile_char i)).
Proof.
  intros Hi. unfold fill_rack. cbv zeta. rewrite fill_rack_reads.
  rewrite fill_rack_loop by done.
  rewrite vec_at_lookup with (x := 0); [lia|lia|].
  apply lookup_replicate_2. lia.
Qed.

(** The rack that [fill_rack] builds has 27 counts, and the count of each
    slot is the number of times that the character of the slot, the capital
    letter for the slots 0 to 25 and the star for the slot 26, occurs among
    the first seven characters of the string: what comes after the seventh
    character, and any other character, adds no tile. So no count is
    negative, and the rack holds at most 7 tiles and at most as many as the
    string has characters. *)
Theorem fill_rack_counts letters :
  length (fill_rack letters) = 27%nat /\
  (forall i, 0 <= i <= 26 ->
     vec_at 0 (fill_rack letters) i
     = Z.of_nat (count_occ ascii_dec (take 7 (list_ascii_of_string letters))
                   (tile_char i))) /\
  Forall (Z.le 0) (fill_rack letters) /\
  rack_total (fill_rack letters) <= NUM_RACK_TILES /\
  rack_total (fill_rack letters) <= Z.of_nat (String.length letters).
Proof.
  destruct (fill_rack_bounds letters) as (H1 & H2 & H3 & H4).
  split; [done|]. split; [|done]. intros i Hi. by apply fill_rack_exact.
Qed.

(** ** add_move_to_board: the squares it lays *)

Lemma find_snoc {A} (p : A -> bool) l x :
  List.find p (l ++ [x])
  = match List.find p l with Some y => Some y | None => if p x then Some x else None end.
Proof.
  induction l as [|y l IH]; simpl; [done|]. destruct (p y); [done|apply IH].
Qed.

Lemma place_squares_in_board _move : forall board r c,
  in_board (place_squares board _move) r c <-> in_board board r c.
Proof.
  induction _move as [|sq mv IH]; intros board r c; [done|].
  change (place_squares board (sq :: mv))
    with (place_squares (board_alter (fun _ => sq) board (row sq) (col sq)) mv).
  by rewrite IH, in_board_alter.
Qed.

Lemma place_squares_at _move : forall board r c,
  in_board board r c ->
  board_at (place_squares board _move) r c
  = match laid_on _move r c with
    | Some sq => sq
    | None => board_at board r c
    end.
Proof.
  unfold laid_on, place_squares.
  induction _move as [|sq mv IH]; intros board r c Hin; [done|].
  simpl. rewrite IH by (by apply in_board_alter).
  rewrite find_snoc.
  destruct (List.find _ (rev mv)); [done|].
  destruct (Z.eqb_spec (row sq) r) as [<-|Hr]; simpl.
  - destruct (Z.eqb_spec (col sq) c) as [<-|Hc].
    + by rewrite board_at_alter_eq.
    + rewrite board_at_alter_ne; [done|by right].
  - rewrite board_at_alter_ne; [done|by left].
Qed.

Section Lay.
Context {G : Globals}.

(** After [add_move_to_board] a square of the board holds the letter, and
    has the type and the place, of the last square of the move that names
    it; a square that the move does not name keeps its own. *)
Theorem add_move_to_board_squares board _move r c :
  in_board board r c ->
  let sq := board_at (add_move_to_board board _move) r c in
  let src := default (board_at board r c) (laid_on _move r c) in
  letter sq = letter src /\ type sq = type src /\
  row sq = row src /\ col sq = col src.
Proof.
  intros Hin sq src. unfold sq, add_move_to_board.
  rewrite !update_min_across_word_length_proj by done.
  rewrite !update_down_cross_checks_proj by done.
  rewrite place_squares_at by done. unfold src.
  by destruct (laid_on _move r c).
Qed.

End Lay.

Lemma add_move_to_board_squares_witness :
  let sq := board_at (@add_move_to_board bat_game bonus_board at_move) 8 9 in
  let src := default (board_at bonus_board 8 9) (laid_on at_move 8 9) in
  letter sq = letter src /\ type sq = type src /\
  row sq = row src /\ col sq = col src.
Proof.
  apply (@add_move_to_board_squares bat_game). in_board_tac.
Defined.

(** ** The search: the shape of a move *)

Lemma cols_increase_nil : cols_increase [].
Proof. intros i j si sj H. done. Qed.

Lemma cols_increase_snoc across_move sq :
  cols_increase across_move ->
  Forall (fun s => col s < col sq) across_move ->
  cols_increase (across_move ++ [sq]).
Proof.
  intros Hinc Hall i j si sj Hi Hj Hij.
  apply lookup_app_Some in Hi as [Hi|[Hge Hi]];
  apply lookup_app_Some in Hj as [Hj|[Hge' Hj]].
  - by eapply Hinc.
  - apply list_lookup_singleton_Some in Hj as [_ <-].
    rewrite Forall_lookup in Hall. by eapply Hall.
  - apply lookup_lt_Some in Hj. lia.
  - apply list_lookup_singleton_Some in Hi as [Hi _].
    apply list_lookup_singleton_Some in Hj as [Hj _]. lia.
Qed.

Section Shape.
Context {G : Globals}.

Lemma callees_shape board r cl c' :
  coords_ok board ->
  (in_board board (row (call_square cl)) (col (call_square cl)) ->
   shape board r cl) ->
  c' ∈ callees board cl ->
  in_board board (row (call_square c')) (col (call_square c')) ->
  shape board r c'.
Proof.
  intros Hok Hpre Hc' Hin'.
  destruct (callees_square _ _ _ Hok Hc') as [Hin Hsq].
  destruct (callees_cases _ _ _ Hc') as [Hout Hcase].
  destruct (Hpre Hin) as (Hrow & Hempty & Hinc & Hall).
  unfold square_of in *. destruct (Hok _ _ Hin) as [Hr Hc].
  rewrite Hsq in Hin'. apply in_board_square in Hin' as (_ & Hr' & Hc'c); [|done].
  unfold shape. rewrite Hsq, Hr', Hc'c.
  set (c := col (call_square cl)) in *.
  destruct Hcase as [[Hdot [ltr ->]]|[Hdot ->]].
  - unfold add_sqr_to_move. rewrite Hr, Hc, Hrow in *.
    split; [done|]. split; [|split].
    + apply Forall_app. split; [done|]. repeat constructor; simpl.
      * unfold holds_tile. by rewrite Hdot.
      * done.
    + by apply cols_increase_snoc.
    + apply Forall_app. split.
      * eapply Forall_impl; [exact Hall|]. simpl. intros s Hs. lia.
      * repeat constructor. simpl. lia.
  - split; [done|]. split; [done|]. split; [done|].
    eapply Forall_impl; [exact Hall|]. simpl. intros s Hs. lia.
Qed.

(** The move that the search over the squares of a board records lies in
    one row, on squares of the board that are empty, and its squares come
    in growing columns. *)
Theorem across_search_shape fuel board rack s :
  coords_ok board -> across_search fuel board rack = Some s ->
  exists r, on_empty_squares board r (best_move s) /\
            cols_increase (best_move s).
Proof.
  intros Hok. unfold across_search.
  apply (fold_opt_inv _
           (fun s => exists r, on_empty_squares board r (best_move s) /\
                               cols_increase (best_move s))).
  - intros st [r c] st' _ Hst. destruct (worth_trying _); [|by intros [= <-]].
    set (cl := mkCall rack global_trie_root (board_at board r c)
                 (min_across_word_length (board_at board r c)) []).
    assert (Harr : forall c1 s1,
              (in_board board (row (call_square c1)) (col (call_square c1)) ->
               shape board (row (call_square cl)) c1) ->
              (exists r, on_empty_squares board r (best_move s1) /\
                         cols_increase (best_move s1)) ->
              exists r, on_empty_squares board r (best_move (arrive board c1 s1)) /\
                        cols_increase (best_move (arrive board c1 s1))).
    { intros c1 s1 Hc1 Hs1. unfold arrive.
      destruct (complete_move board c1) eqn:Hcomplete; [|done].
      unfold record_move. destruct (_ >? _); [|done]. simpl.
      unfold complete_move, square_of in Hcomplete.
      apply andb_true_iff in Hcomplete as [Hcomplete _].
      apply andb_true_iff in Hcomplete as [Hcomplete _].
      apply andb_true_iff in Hcomplete as [Hout _].
      apply negb_true_iff, not_outside_in_board in Hout.
      destruct (Hc1 Hout) as (_ & He & Hi & _). eauto. }
    apply (search_invariant board
             (fun c1 => in_board board (row (call_square c1)) (col (call_square c1)) ->
                        shape board (row (call_square cl)) c1)
             (fun s => exists r, on_empty_squares board r (best_move s) /\
                                 cols_increase (best_move s))
             (fun c1 c2 H1 H2 => callees_shape board _ c1 c2 Hok H1 H2)
             Harr fuel cl st st'); [|done].
    intros _. repeat split; [constructor|apply cols_increase_nil|constructor].
  - exists 0. split; [constructor|apply cols_increase_nil].
Qed.

End Shape.

Lemma across_search_shape_witness :
  exists s r,
    @across_search bat_game 18 bat_board bat_rack = Some s /\
    on_empty_squares bat_board r (best_move s) /\ cols_increase (best_move s).
Proof.
  destruct (@across_search bat_game 18 bat_board bat_rack) as [s|] eqn:E;
    [|vm_compute in E; discriminate].
  destruct (@across_search_shape bat_game 18 bat_board bat_rack s) as (r & H1 & H2).
  - apply coords_okb_ok. vm_compute. reflexivity.
  - exact E.
  - exists s, r. split; [reflexivity|]. split; [exact H1|exact H2].
Defined.

(** ** The search: the moves it reaches are legal *)

(** *** Tiles laid on the board *)

Lemma lay_on_snoc_old tiles mv sq r c :
  row sq <> r \/ col sq <> c ->
  lay_on tiles (mv ++ [sq]) r c = lay_on tiles mv r c.
Proof.
  intros Hne. unfold lay_on. rewrite find_snoc.
  destruct (List.find _ mv); [done|].
  destruct (Z.eqb_spec (row sq) r), (Z.eqb_spec (col sq) c); simpl; try done.
  lia.
Qed.

Lemma lay_on_none tiles mv r c :
  Forall (fun sq => col sq <> c) mv -> lay_on tiles mv r c = tiles r c.
Proof.
  intros H. unfold lay_on.
  induction H as [|sq mv Hsq _ IH]; simpl; [done|].
  destruct (Z.eqb_spec (col sq) c); [done|]. by rewrite andb_false_r.
Qed.

Lemma lay_on_snoc_new tiles mv sq :
  Forall (fun s => col s <> col sq) mv ->
  lay_on tiles (mv ++ [sq]) (row sq) (col sq) = letter sq.
Proof.
  intros H. unfold lay_on. rewrite find_snoc.
  induction H as [|s mv Hs _ IH]; simpl.
  - by rewrite !Z.eqb_refl.
  - destruct (Z.eqb_spec (col s) (col sq)); [done|].
    rewrite andb_false_r. apply IH.
Qed.

Lemma lay_on_other_row tiles mv r r' c :
  Forall (fun sq => row sq = r) mv -> r' <> r ->
  lay_on tiles mv r' c = tiles r' c.
Proof.
  intros H Hne. unfold lay_on.
  induction H as [|sq mv Hsq _ IH]; simpl; [done|].
  destruct (Z.eqb_spec (row sq) r'); [lia|]. done.
Qed.

Lemma lay_on_letter_at board mv r c :
  Forall (fun sq => row sq = r) mv ->
  lay_on (tiles_of board) mv r c = letter_at board mv r c.
Proof.
  intros H. unfold lay_on, letter_at, tiles_of.
  induction H as [|sq mv Hsq _ IH]; simpl; [done|].
  destruct (Z.eqb_spec (row sq) r); [|done]. simpl.
  destruct (col sq =? c); [done|apply IH].
Qed.

Lemma lay_on_in tiles mv r sq :
  Forall (fun s => row s = r) mv -> NoDup (map col mv) -> In sq mv ->
  lay_on tiles mv r (col sq) = letter sq.
Proof.
  intros Hrow Hnd Hin. unfold lay_on.
  induction mv as [|s mv IH]; [done|].
  apply Forall_cons in Hrow as [Hs Hrow].
  simpl in Hnd. apply NoDup_cons in Hnd as [Hnin Hnd].
  simpl. destruct Hin as [->|Hin].
  - rewrite Hs. by rewrite !Z.eqb_refl.
  - destruct (Z.eqb_spec (col s) (col sq)) as [He|Hne].
    + exfalso. apply Hnin. rewrite He. apply list_elem_of_In.
      by apply in_map.
    + rewrite andb_false_r. by apply IH.
Qed.

Lemma word_across_letters_between board mv r n : forall c,
  Forall (fun sq => row sq = r) mv ->
  word_across (lay_on (tiles_of board) mv) r n c
  = letters_between board mv r n c.
Proof.
  induction n as [|n IH]; intros c H; [done|]. simpl.
  by rewrite lay_on_letter_at, IH.
Qed.

Lemma word_across_snoc tiles r n : forall c,
  word_across tiles r (S n) c
  = (word_across tiles r n c
     ++ String (toupper (tiles r (c + Z.of_nat n))) EmptyString)%string.
Proof.
  induction n as [|n IH]; intros c.
  - simpl. by rewrite Z.add_0_r.
  - change (word_across tiles r (S (S n)) c)
      with (String (toupper (tiles r c)) (word_across tiles r (S n) (c + 1))).
    rewrite IH. replace (c + Z.of_nat (S n)) with (c + 1 + Z.of_nat n) by lia.
    done.
Qed.

Lemma word_across_ext tiles tiles' r n : forall c,
  (forall k, c <= k < c + Z.of_nat n -> tiles' r k = tiles r k) ->
  word_across tiles' r n c = word_across tiles r n c.
Proof.
  induction n as [|n IH]; intros c H; [done|]. simpl.
  rewrite H by lia. f_equal. apply IH. intros k Hk. apply H. lia.
Qed.

Lemma string_app_assoc (a b c : string) :
  ((a ++ b) ++ c = a ++ (b ++ c))%string.
Proof. induction a as [|ch a IH]; simpl; [done|]. by rewrite IH. Qed.

Lemma string_app_nil_r (a : string) : (a ++ EmptyString = a)%string.
Proof. induction a as [|ch a IH]; simpl; [done|]. by rewrite IH. Qed.

Lemma word_across_app tiles r n m : forall c,
  word_across tiles r (n + m) c
  = (word_across tiles r n c
     ++ word_across tiles r m (c + Z.of_nat n))%string.
Proof.
  induction n as [|n IH]; intros c.
  - simpl. by rewrite Z.add_0_r.
  - simpl. rewrite IH. do 3 f_equal. lia.
Qed.

(** *** The tiles of the rack *)

Lemma isupper_tolower ch :
  isupper ch = true ->
  isupper (tolower ch) = false /\ islower (tolower ch) = true.
Proof.
  destruct ch as [[] [] [] [] [] [] [] []]; vm_compute; (done || discriminate).
Qed.

Lemma tile_slot_upper ch :
  isupper ch = true -> tile_slot ch = Some (letter_index ch).
Proof. intros H. unfold tile_slot. by rewrite H. Qed.

Lemma tile_slot_blank ch :
  isupper ch = true -> tile_slot (tolower ch) = Some 26.
Proof.
  intros H. destruct (isupper_tolower ch H) as [H1 H2].
  unfold tile_slot. by rewrite H1, H2.
Qed.

Lemma tile_slot_not_dot ch : is_Some (tile_slot ch) -> ch <> dot.
Proof. intros [i Hi] ->. by vm_compute in Hi. Qed.

Lemma tiles_from_snoc i mv sq :
  tiles_from i (mv ++ [sq])
  = (tiles_from i mv
     + if decide (tile_slot (letter sq) = Some i) then 1 else 0)%nat.
Proof.
  unfold tiles_from. rewrite filter_app, length_app. f_equal.
  rewrite filter_cons, filter_nil. by destruct (decide _).
Qed.

Lemma vec_at_pred (rack : list Z) j i :
  0 < vec_at 0 rack j ->
  vec_at 0 (vec_alter Z.pred rack j) i
  = vec_at 0 rack i - (if decide (j = i) then 1 else 0).
Proof.
  intros Hpos. destruct (decide (j = i)) as [->|Hne].
  - assert (Hin : 0 <= i < Z.of_nat (length rack)).
    { destruct (decide (0 <= i < Z.of_nat (length rack))); [done|].
      rewrite vec_at_range in Hpos by done. lia. }
    rewrite vec_at_alter_eq by lia. lia.
  - rewrite vec_at_alter_ne by done. lia.
Qed.

Lemma tentative_laid rack sqr child i ltr :
  isupper (node_letter child) = true ->
  tentative rack sqr child = Some (i, ltr) ->
  0 < vec_at 0 rack i /\ tile_slot ltr = Some i /\
  toupper ltr = node_letter child /\
  vec_at false (down_cross_check sqr) (letter_index (node_letter child))
  = true.
Proof.
  intros Hup H. pose proof (tentative_has_tile _ _ _ _ _ H) as Hpos.
  split; [done|]. unfold tentative in H.
  destruct (vec_at false (down_cross_check sqr) _) eqn:Hcc;
    rewrite ?andb_true_r, ?andb_false_r in H; [|done].
  destruct (0 <? vec_at 0 rack (letter_index (node_letter child))).
  - injection H as <- <-. split; [by apply tile_slot_upper|].
    split; [by apply toupper_upper|done].
  - destruct (0 <? vec_at 0 rack 26); [|done].
    injection H as <- <-. split; [by apply tile_slot_blank|].
    split; [by apply toupper_tolower|done].
Qed.

Section Lawful.
Context {G : Globals}.

Lemma callees_laid board cl c' :
  c' ∈ callees board cl ->
  let sqr := square_of board cl in
  (is_dot (letter sqr) = true /\
   exists child i ltr,
     child ∈ children (call_node cl) /\
     tentative (call_rack cl) sqr child = Some (i, ltr) /\
     call_rack c' = vec_alter Z.pred (call_rack cl) i /\
     call_move c' = add_sqr_to_move (row sqr) (col sqr) ltr (call_move cl)) \/
  (is_dot (letter sqr) = false /\
   call_rack c' = call_rack cl /\ call_move c' = call_move cl).
Proof.
  intros H sqr. unfold callees in H. fold sqr in H.
  destruct (SquareType_eqb (type sqr) outside); [by apply elem_of_nil in H|].
  destruct (is_dot (letter sqr)).
  - left. split; [done|]. unfold subcalls in H.
    apply list_elem_of_omap in H as (child & Hchild & H).
    destruct (tentative _ _ child) as [[i ltr]|] eqn:E; [|done].
    injection H as <-. by exists child, i, ltr.
  - right. split; [done|].
    destruct (negb _); [|by apply elem_of_nil in H].
    by apply list_elem_of_singleton in H as ->.
Qed.

Lemma callees_lawful board rack r c0 cl c' :
  coords_ok board ->
  (in_board board (row (call_square cl)) (col (call_square cl)) ->
   spelling board r c0 cl /\ lawful board rack r c0 cl) ->
  c' ∈ callees board cl ->
  in_board board (row (call_square c')) (col (call_square c')) ->
  lawful board rack r c0 c'.
Proof.
  intros Hok Hpre Hc' Hin'.
  destruct (callees_square _ _ _ Hok Hc') as [Hin Hsq].
  destruct (Hpre Hin)
    as [(Hwf & Hrow & Hc0 & Hall & _) (Hslot & Hsum & Hpos & Hcc & Hfill)].
  destruct (Hok _ _ Hin) as [Hr Hc].
  rewrite Hsq in Hin'. apply in_board_square in Hin' as (_ & _ & Hc'c); [|done].
  assert (Hcols : Forall (fun s => col s <> col (call_square cl)) (call_move cl)).
  { eapply Forall_impl; [exact Hall|]. simpl. intros s [_ Hs]. lia. }
  unfold lawful. rewrite Hsq, Hc'c.
  destruct (callees_laid _ _ _ Hc')
    as [(Hdot & child & i & ltr & Hchild & Htent & -> & ->)|(Hdot & -> & ->)];
    unfold square_of in *.
  - apply list_elem_of_lookup in Hchild as [n Hn].
    destruct (child_in_list _ _ _ Hwf Hn) as (_ & Hup & _).
    destruct (tentative_laid _ _ _ _ _ Hup Htent) as (Hi & Hsl & Hto & Hbit).
    unfold add_sqr_to_move. rewrite Hr, Hc, Hrow in *.
    set (c := col (call_square cl)) in *.
    set (sq := mkSquare _ _ ltr r c _).
    split; [|split; [|split; [|split]]].
    + apply Forall_app. split; [done|]. constructor; [|done]. simpl.
      by rewrite Hsl.
    + intros j. rewrite tiles_from_snoc, vec_at_pred by done. simpl.
      rewrite Hsl. specialize (Hsum j).
      destruct (decide (Some i = Some j)) as [[= ->]|Hne].
      * destruct (decide (j = j)); [lia|done].
      * destruct (decide (i = j)) as [->|]; [done|lia].
    + intros j. rewrite tiles_from_snoc, vec_at_pred by done. simpl.
      rewrite Hsl. intros Hj.
      destruct (decide (Some i = Some j)) as [[= ->]|Hne].
      * destruct (decide (j = j)); [lia|done].
      * destruct (decide (i = j)) as [->|]; [done|].
        pose proof (Hpos j). lia.
    + apply Forall_app. split; [done|]. constructor; [|done]. simpl.
      by rewrite Hto.
    + intros k Hk. destruct (decide (k = c)) as [->|Hne].
      * change r with (row sq) at 1. change c with (col sq).
        rewrite lay_on_snoc_new by done. simpl.
        apply tile_slot_not_dot. by rewrite Hsl.
      * rewrite lay_on_snoc_old by (right; simpl; lia). apply Hfill. lia.
  - split; [done|]. split; [done|]. split; [done|]. split; [done|].
    intros k Hk.
    destruct (decide (k = col (call_square cl))) as [->|Hne]; [|apply Hfill; lia].
    rewrite lay_on_none by done. unfold tiles_of. rewrite <- Hrow.
    intros He. rewrite He in Hdot. by vm_compute in Hdot.
Qed.

End Lawful.

(** *** Minimum lengths: how many tiles reach the tiles of the board *)

Lemma min_length_step_reaches board0 r c st :
  same_tiles board0 st.1 -> c <= NUM_BOARD_COLS ->
  (occupied board0 r c = false ->
   st.2 = -1 \/ reaches board0 r (c + 1) st.2) ->
  let st' := min_length_step r st c in
  (occupied board0 r (c - 1) = false ->
   st'.2 = -1 \/ reaches board0 r c st'.2) /\
  (in_board board0 r c ->
   let v := min_across_word_length (board_at st'.1 r c) in
   v = -1 \/ (occupied board0 r (c - 1) = false /\ reaches board0 r c v)).
Proof.
  destruct st as [board m]. simpl. intros [Ho Hi] Hc Hm.
  unfold min_length_step. rewrite !Ho.
  destruct (occupied board0 r (c - 1)) eqn:Hleft; simpl.
  - split; [done|]. intros Hin. rewrite board_at_alter_eq by by apply Hi.
    by left.
  - fold (next_to_tile board0 r c).
    destruct (next_to_tile board0 r c) eqn:Hnext; simpl.
    + assert (Hone : reaches board0 r c 1).
      { unfold reaches. rewrite Z.add_simpl_r.
        split; [done|]. split; [done|]. split; [intros k Hk; lia|done]. }
      split; [by right|]. intros Hin.
      rewrite board_at_alter_eq by by apply Hi. simpl. by right.
    + assert (Hocc : occupied board0 r c = false).
      { unfold next_to_tile in Hnext. by apply orb_false_iff in Hnext as [_ ?]. }
      destruct (Z.eqb_spec m (-1)) as [->|Hne]; simpl.
      * split; [by left|]. intros Hin.
        rewrite board_at_alter_eq by by apply Hi. by left.
      * assert (Hmore : reaches board0 r c (m + 1)).
        { destruct (Hm Hocc) as [?|(H1 & H2 & H3 & H4)]; [done|].
          unfold reaches. split; [lia|]. split; [lia|]. split.
          - intros k Hk. destruct (decide (k = c)) as [->|]; [done|].
            apply H3. lia.
          - by replace (c + (m + 1) - 1) with (c + 1 + m - 1) by lia. }
        split; [by right|]. intros Hin.
        rewrite board_at_alter_eq by by apply Hi. simpl. by right.
Qed.

Lemma update_min_row_loop board0 board r : forall (k : nat) c,
  same_tiles board0 board -> c + Z.of_nat k = NUM_BOARD_COLS + 1 ->
  let st := fold_left (min_length_step r) (reverse (seqZ c (Z.of_nat k)))
              (board, -1) in
  same_tiles board0 st.1 /\
  (occupied board0 r (c - 1) = false ->
   st.2 = -1 \/ reaches board0 r c st.2) /\
  forall j, c <= j <= NUM_BOARD_COLS -> in_board board0 r j ->
    let v := min_across_word_length (board_at st.1 r j) in
    v = -1 \/ (occupied board0 r (j - 1) = false /\ reaches board0 r j v).
Proof.
  induction k as [|k IH]; intros c Hsame Hck.
  - simpl. split; [done|]. split; [by left|]. intros j Hj. lia.
  - replace (seqZ c (Z.of_nat (S k))) with (c :: seqZ (c + 1) (Z.of_nat k)).
    2:{ rewrite (seqZ_cons c) by lia. do 2 f_equal; lia. }
    rewrite reverse_cons, fold_left_app. simpl.
    destruct (IH (c + 1) Hsame) as (Hs & Hm & Hdone); [lia|].
    set (st := fold_left _ _ _) in *.
    replace (c + 1 - 1) with c in Hm by lia.
    destruct (min_length_step_reaches board0 r c st Hs) as [Hm' Hv]; [lia|done|].
    split; [by apply min_length_step_same_tiles|]. split; [done|].
    intros j Hj Hin. destruct (decide (j = c)) as [->|Hne]; [by apply Hv|].
    rewrite min_length_step_other by (right; lia). apply Hdone; [lia|done].
Qed.

Lemma update_min_row_reaches board0 board r c :
  same_tiles board0 board -> 1 <= c <= NUM_BOARD_COLS -> in_board board0 r c ->
  let v := min_across_word_length (board_at (update_min_row board r) r c) in
  v = -1 \/ (occupied board0 r (c - 1) = false /\ reaches board0 r c v).
Proof.
  intros Hsame Hc Hin. unfold update_min_row, cols_right_to_left.
  destruct (update_min_row_loop board0 board r (Z.to_nat NUM_BOARD_COLS) 1 Hsame)
    as (_ & _ & H); [done|].
  by apply H.
Qed.

Lemma update_min_reaches board r c :
  playable r c -> in_board board r c ->
  let v := min_across_word_length
             (board_at (update_min_across_word_length board) r c) in
  v = -1 \/ (occupied board r (c - 1) = false /\ reaches board r c v).
Proof.
  intros [Hr Hc] Hin. unfold update_min_across_word_length.
  apply (fold_left_settles update_min_row (same_tiles board)
           (fun b => let v := min_across_word_length (board_at b r c) in
                     v = -1 \/
                     (occupied board r (c - 1) = false /\ reaches board r c v)) r).
  - intros b y. apply update_min_row_same_tiles.
  - intros b Hb. by apply update_min_row_reaches.
  - intros b y Hy _ H. by rewrite update_min_row_other.
  - apply same_tiles_refl.
  - left. apply elem_of_seqZ. unfold NUM_BOARD_ROWS in *. lia.
Qed.

(** *** Cross-check sets: no letter that makes no word *)

Section Sound.
Context {G : Globals}.

Lemma check_letters_length above below cc :
  length (check_letters above below cc) = length cc.
Proof.
  unfold check_letters.
  apply (fold_left_keeps _ (fun cc' => length cc' = length cc)); [|done].
  intros a y _ <-. unfold vec_set. apply length_vec_alter.
Qed.

Lemma check_letters_sound above below cc k :
  0 <= k < 26 ->
  vec_at false (check_letters above below cc) k = true ->
  word_found (test_word above (65 + k) below) = true.
Proof.
  intros Hk Hbit.
  destruct (decide (26 <= length cc)%nat) as [Hlen|Hlen].
  - by rewrite check_letters_at in Hbit.
  - destruct (decide (k < Z.of_nat (length cc))) as [Hin|Hout].
    + rewrite <- Hbit. symmetry. unfold check_letters.
      apply (fold_left_settles
               (fun cc t => vec_set cc (t - 65) (word_found (test_word above t below)))
               (fun cc' => length cc' = length cc)
               (fun cc => vec_at false cc k
                          = word_found (test_word above (65 + k) below))
               (65 + k)).
      * intros a y Ha. unfold vec_set. by rewrite length_vec_alter.
      * intros a Ha. unfold vec_set.
        replace (65 + k - 65) with k by lia.
        rewrite vec_at_alter_eq; [done|lia|lia].
      * intros a y Hy _ <-. unfold vec_set. apply vec_at_alter_ne. lia.
      * done.
      * left. apply elem_of_seqZ. lia.
    + rewrite vec_at_range in Hbit; [done|].
      rewrite check_letters_length. lia.
Qed.

Lemma update_down_cross_checks_at (Q : list bool -> Prop) board r c :
  playable r c ->
  (forall b, same_squares board b ->
     down_cross_check (board_at b r c) = down_cross_check (board_at board r c) ->
     Q (down_cross_check (board_at (update_square_cross_check b r c) r c))) ->
  Q (down_cross_check (board_at (update_down_cross_checks board) r c)).
Proof.
  intros [Hr Hc] HQ. unfold update_down_cross_checks.
  set (Before := fun b : list (list Square) =>
         same_squares board b /\
         down_cross_check (board_at b r c) = down_cross_check (board_at board r c)).
  set (Post := fun b : list (list Square) =>
         same_squares board b /\ Q (down_cross_check (board_at b r c))).
  assert (H : Post (fold_left
            (fun board r =>
               fold_left (fun board c => update_square_cross_check board r c)
                 (seqZ 1 NUM_BOARD_COLS) board)
            (seqZ 1 NUM_BOARD_ROWS) board)); [|apply H].
  apply (fold_left_once
           (fun board r =>
              fold_left (fun board c => update_square_cross_check board r c)
                (seqZ 1 NUM_BOARD_COLS) board)
           Before Post r).
  - intros b y Hy. apply update_row_cross_check_keeps.
    intros b0 c0 [Hs Hcc]. split; [by apply update_square_cross_check_same|].
    rewrite update_square_cross_check_other; [done|by left].
  - intros b Hb.
    apply (fold_left_once (fun board c => update_square_cross_check board r c)
             Before Post c); [| | |apply NoDup_seqZ| |done].
    + intros b0 y Hy [Hs Hcc]. split; [by apply update_square_cross_check_same|].
      rewrite update_square_cross_check_other; [done|by right].
    + intros b0 [Hs Hcc]. split; [by apply update_square_cross_check_same|].
      by apply HQ.
    + intros b0 y Hy [Hs Hd]. split; [by apply update_square_cross_check_same|].
      rewrite update_square_cross_check_other; [done|by right].
    + apply elem_of_seqZ. unfold NUM_BOARD_COLS in *. lia.
  - intros b y Hy. apply update_row_cross_check_keeps.
    intros b0 c0 [Hs Hd]. split; [by apply update_square_cross_check_same|].
    rewrite update_square_cross_check_other; [done|by left].
  - apply NoDup_seqZ.
  - apply elem_of_seqZ. unfold NUM_BOARD_ROWS in *. lia.
  - split; [apply same_squares_refl|done].
Qed.

Lemma update_down_cross_checks_same board :
  same_squares board (update_down_cross_checks board).
Proof.
  unfold update_down_cross_checks.
  apply (fold_left_keeps _ (same_squares board)); [|apply same_squares_refl].
  intros b r _ Hb. apply update_row_cross_check_keeps; [|done].
  intros b0 c0. apply update_square_cross_check_same.
Qed.

Lemma update_down_cross_checks_sound board :
  cross_checks_sound (update_down_cross_checks board).
Proof.
  intros r c k Hp. pose proof (update_down_cross_checks_same board) as Hsame.
  destruct (fragments_same _ _ r c Hsame) as [-> ->].
  rewrite (update_down_cross_checks_proj letter) by done.
  intros Hdot Hfrag Hk.
  apply (update_down_cross_checks_at
           (fun cc => vec_at false cc k = true ->
                      word_found (test_word (above_of board r c) (65 + k)
                                    (below_of board r c)) = true));
    [done|].
  intros b Hb Hcc. unfold update_square_cross_check.
  destruct (fragments_same _ _ r c Hb) as [-> ->].
  destruct Hb as (Hl & _ & _ & Hin). rewrite Hl, Hdot, Hfrag.
  set (f := fun sq => set_down_cross_check
                       (check_letters (above_of board r c) (below_of board r c)
                          (down_cross_check sq)) sq).
  destruct (board_at_cases (board_alter f b r c) r c) as [Hrc|Hs].
  - apply (proj1 (in_board_alter _ _ _ _ _ _)) in Hrc.
    rewrite board_at_alter_eq by done. simpl.
    by apply check_letters_sound.
  - rewrite Hs. simpl. unfold vec_at. destruct (k <? 0); [done|].
    by rewrite lookup_nil.
Qed.

End Sound.

(** *** The tiles above and below a square, and the word of its column *)

Lemma is_dot_true ch : is_dot ch = true <-> ch = dot.
Proof. unfold is_dot. apply Ascii.eqb_eq. Qed.

Lemma is_dot_false ch : is_dot ch = false <-> ch <> dot.
Proof. unfold is_dot. apply Ascii.eqb_neq. Qed.

Lemma holds_tile_bordered board r c :
  bordered board ->
  holds_tile (board_at board r c)
  = negb (is_dot (letter (board_at board r c))).
Proof.
  intros Hb. unfold holds_tile. destruct (Hb r c) as [Hin Hout].
  destruct (playable_dec r c) as [Hp|Hp].
  - specialize (Hin Hp).
    destruct (type (board_at board r c)); try done; apply andb_true_r.
  - destruct (Hout Hp) as [_ ->]. done.
Qed.

Lemma tile_in_board board r c :
  letter (board_at board r c) <> dot -> in_board board r c.
Proof.
  intros H. by destruct (board_at_cases board r c) as [?|Hs]; [|rewrite Hs in H].
Qed.

Lemma in_board_rows board r c :
  in_board board r c -> 0 <= r < Z.of_nat (length board).
Proof.
  intros (Hr & _ & rw & Hrw & _). apply lookup_lt_Some in Hrw. lia.
Qed.

Section Fragments.
Context {G : Globals}.
Variable board : list (list Square).
Variable tiles : Z -> Z -> ascii.
Hypothesis board_bordered : bordered board.
Hypothesis board_tiles : forall r c, letter (board_at board r c) = tiles r c.

Lemma holds_tile_tiles r c :
  holds_tile (board_at board r c) = negb (is_dot (tiles r c)).
Proof. by rewrite holds_tile_bordered, board_tiles. Qed.

Lemma above_fragment_run c : forall (n : nat) acc,
  exists a : nat,
    (a <= n)%nat /\
    above_fragment board c n acc
    = (word_across (transpose tiles) c a (Z.of_nat n - Z.of_nat a) ++ acc)%string /\
    (forall i, Z.of_nat n - Z.of_nat a <= i < Z.of_nat n -> tiles i c <> dot) /\
    ((a < n)%nat -> tiles (Z.of_nat n - Z.of_nat a - 1) c = dot).
Proof.
  induction n as [|n IH]; intros acc.
  - exists 0%nat. split; [done|]. split; [done|]. split; [|lia]. intros i Hi. lia.
  - simpl above_fragment. rewrite holds_tile_tiles, board_tiles.
    destruct (is_dot (tiles (Z.of_nat n) c)) eqn:Hdot; simpl.
    + exists 0%nat. split; [lia|]. split; [done|]. split; [intros i Hi; lia|].
      intros _. apply is_dot_true in Hdot.
      by replace (Z.of_nat (S n) - Z.of_nat 0 - 1) with (Z.of_nat n) by lia.
    + destruct (IH (String (toupper (tiles (Z.of_nat n) c)) acc))
        as (a & Ha & -> & Hall & Hend).
      exists (S a). split; [lia|]. split; [|split].
      * rewrite word_across_snoc, string_app_assoc. simpl.
        replace (Z.of_nat (S n) - Z.of_nat (S a)) with (Z.of_nat n - Z.of_nat a)
          by lia.
        unfold transpose at 2.
        by replace (Z.of_nat n - Z.of_nat a + Z.of_nat a) with (Z.of_nat n) by lia.
      * intros i Hi. destruct (decide (i = Z.of_nat n)) as [->|Hne].
        -- by apply is_dot_false.
        -- apply Hall. lia.
      * intros Hlt.
        replace (Z.of_nat (S n) - Z.of_nat (S a) - 1)
          with (Z.of_nat n - Z.of_nat a - 1) by lia.
        apply Hend. lia.
Qed.

Lemma below_fragment_run c : forall (n : nat) r acc,
  exists b : nat,
    (b <= n)%nat /\
    below_fragment board c n r acc
    = (acc ++ word_across (transpose tiles) c b r)%string /\
    (forall i, r <= i < r + Z.of_nat b -> tiles i c <> dot) /\
    ((b < n)%nat -> tiles (r + Z.of_nat b) c = dot).
Proof.
  induction n as [|n IH]; intros r acc.
  - exists 0%nat. split; [done|]. split; [by rewrite string_app_nil_r|].
    split; [|lia]. intros i Hi. lia.
  - simpl below_fragment. rewrite holds_tile_tiles, board_tiles.
    destruct (is_dot (tiles r c)) eqn:Hdot; simpl.
    + exists 0%nat. split; [lia|]. split; [by rewrite string_app_nil_r|].
      split; [intros i Hi; lia|].
      intros _. apply is_dot_true in Hdot. by rewrite Z.add_0_r.
    + destruct (IH (r + 1)
                  (acc ++ String (toupper (tiles r c)) EmptyString)%string)
        as (b & Hb & -> & Hall & Hend).
      exists (S b). split; [lia|]. split; [|split].
      * by rewrite string_app_assoc.
      * intros i Hi. destruct (decide (i = r)) as [->|Hne].
        -- by apply is_dot_false.
        -- apply Hall. lia.
      * intros Hlt. replace (r + Z.of_nat (S b)) with (r + 1 + Z.of_nat b) by lia.
        apply Hend. lia.
Qed.

Lemma tiles_off_board r c :
  r < 0 \/ Z.of_nat (length board) <= r -> tiles r c = dot.
Proof.
  intros Hr. destruct (is_dot (tiles r c)) eqn:Hdot; [by apply is_dot_true|].
  apply is_dot_false in Hdot. rewrite <- board_tiles in Hdot.
  apply tile_in_board, in_board_rows in Hdot. lia.
Qed.

(** The tiles above and below the place [(r, c)], with a letter between
    them, are a whole word of the column [c]. *)
Lemma fragments_run r c :
  0 <= r ->
  exists (a b : nat),
    above_of board r c = word_across (transpose tiles) c a (r - Z.of_nat a) /\
    below_of board r c = word_across (transpose tiles) c b (r + 1) /\
    (forall i, r - Z.of_nat a <= i < r -> tiles i c <> dot) /\
    (forall i, r < i <= r + Z.of_nat b -> tiles i c <> dot) /\
    tiles (r - Z.of_nat a - 1) c = dot /\
    tiles (r + Z.of_nat b + 1) c = dot.
Proof.
  intros Hr. unfold above_of, below_of, rows_from.
  destruct (above_fragment_run c (Z.to_nat r) EmptyString)
    as (a & Ha & -> & Hall & Hend).
  destruct (below_fragment_run c (length board - Z.to_nat (r + 1)) (r + 1)
              EmptyString) as (b & Hb & -> & Hall' & Hend').
  exists a, b. rewrite string_app_nil_r. rewrite Z2Nat.id in * by lia.
  split; [done|]. split; [done|]. split; [done|].
  split; [intros i Hi; apply Hall'; lia|]. split.
  - destruct (decide (a < Z.to_nat r)%nat) as [Hlt|Hge]; [by apply Hend|].
    apply tiles_off_board. lia.
  - replace (r + Z.of_nat b + 1) with (r + 1 + Z.of_nat b) by lia.
    destruct (decide (b < length board - Z.to_nat (r + 1))%nat) as [Hlt|Hge];
      [by apply Hend'|].
    apply tiles_off_board. lia.
Qed.

End Fragments.

(** *** Moves in growing columns *)

Lemma cols_increase_tail sq across_move :
  cols_increase (sq :: across_move) ->
  cols_increase across_move /\
  Forall (fun s => col sq < col s) across_move.
Proof.
  intros H. split.
  - intros i j si sj Hi Hj Hij.
    apply (H (S i) (S j) si sj); [done|done|lia].
  - apply Forall_lookup. intros i s Hs.
    apply (H 0%nat (S i) sq s); [done|done|lia].
Qed.

Lemma cols_increase_NoDup across_move :
  cols_increase across_move -> NoDup (map col across_move).
Proof.
  induction across_move as [|sq mv IH]; intros H; simpl; [constructor|].
  destruct (cols_increase_tail _ _ H) as [Hinc Hlt].
  apply NoDup_cons. split; [|by apply IH].
  intros Hin%list_elem_of_In%in_map_iff. destruct Hin as (s & Hs & Hin).
  rewrite Forall_forall in Hlt. apply list_elem_of_In, Hlt in Hin. lia.
Qed.

Lemma cols_increase_length across_move : forall lo hi,
  cols_increase across_move -> lo <= hi ->
  Forall (fun sq => lo <= col sq < hi) across_move ->
  Z.of_nat (length across_move) <= hi - lo.
Proof.
  induction across_move as [|sq mv IH]; intros lo hi H Hle Hall; simpl; [lia|].
  destruct (cols_increase_tail _ _ H) as [Hinc Hlt].
  apply Forall_cons in Hall as [Hsq Hall].
  assert (Z.of_nat (length mv) <= hi - (lo + 1)); [|lia].
  apply IH; [done|lia|].
  rewrite Forall_forall in *. intros s Hs.
  specialize (Hall s Hs). specialize (Hlt s Hs). simpl in *. lia.
Qed.

(** *** Letters *)

Lemma char_of_code ch : char_of (code ch) = ch.
Proof.
  unfold char_of, code. rewrite N2Z.id. apply ascii_N_embedding.
Qed.

Lemma toupper_slot ch :
  is_Some (tile_slot ch) -> isupper (toupper ch) = true.
Proof.
  intros [i Hi]. revert Hi.
  destruct ch as [[] [] [] [] [] [] [] []]; vm_compute; (done || discriminate).
Qed.

Lemma word_found_In `{G : Globals} w : word_found w = true -> In w global_words.
Proof.
  unfold word_found. intros (x & Hx & Heq)%existsb_exists.
  by apply String.eqb_eq in Heq as ->.
Qed.

Lemma occupied_tiles board r c :
  occupied board r c = negb (is_dot (tiles_of board r c)).
Proof. done. Qed.

(** *** A complete move is a legal move *)

Section Complete.
Context {G : Globals}.
Variable board : list (list Square).
Variable rack : list Z.
Hypothesis board_coords : coords_ok board.
Hypothesis board_bordered : bordered board.
Hypothesis board_sets : cross_checks_sound board.

Lemma cross_word_legal r across_move sq :
  1 <= r ->
  Forall (fun s => row s = r) across_move ->
  NoDup (map col across_move) ->
  In sq across_move ->
  playable r (col sq) ->
  tiles_of board r (col sq) = dot ->
  is_Some (tile_slot (letter sq)) ->
  vec_at false (down_cross_check (board_at board r (col sq)))
    (letter_index (toupper (letter sq))) = true ->
  tiles_of board (r - 1) (col sq) <> dot \/
  tiles_of board (r + 1) (col sq) <> dot ->
  exists r0 m,
    r0 <= r < r0 + Z.of_nat m /\
    run_across (transpose (lay_on (tiles_of board) across_move)) (col sq) r0 m /\
    In (word_across (transpose (lay_on (tiles_of board) across_move))
          (col sq) m r0) global_words.
Proof.
  intros Hr Hrow Hnd Hin Hp Hempty Hslot Hbit Hnext.
  set (c := col sq) in *. set (tiles := tiles_of board) in *.
  destruct (fragments_run board tiles board_bordered (fun _ _ => eq_refl) r c)
    as (a & b & Habove & Hbelow & Hup & Hdown & Htop & Hbottom); [lia|].
  assert (Hlaid : forall i, i <> r ->
            lay_on tiles across_move i c = tiles i c).
  { intros i Hi. by apply (lay_on_other_row tiles across_move r). }
  assert (Hsq : lay_on tiles across_move r c = letter sq).
  { by apply lay_on_in. }
  assert (Hfrag : is_empty_string (above_of board r c)
                  && is_empty_string (below_of board r c) = false).
  { rewrite Habove, Hbelow. destruct Hnext as [Hn|Hn].
    - destruct a as [|a]; [|done]. exfalso. apply Hn.
      by replace (r - 1) with (r - Z.of_nat 0 - 1) by lia.
    - destruct b as [|b]; [|by rewrite andb_false_r]. exfalso. apply Hn.
      by replace (r + 1) with (r + Z.of_nat 0 + 1) by lia. }
  pose proof (toupper_slot _ Hslot) as Hup'.
  pose proof (isupper_index _ Hup') as Hidx.
  pose proof (board_sets r c _ Hp (proj2 (is_dot_true _) Hempty) Hfrag Hidx Hbit)
    as Hword.
  apply word_found_In in Hword.
  replace (65 + letter_index (toupper (letter sq)))
    with (code (toupper (letter sq))) in Hword by (unfold letter_index; lia).
  unfold test_word in Hword. rewrite char_of_code, Habove, Hbelow in Hword.
  exists (r - Z.of_nat a), (a + S b)%nat. split; [lia|]. split.
  - unfold run_across, transpose. split; [|split].
    + rewrite Hlaid by lia. done.
    + rewrite Hlaid by lia.
      by replace (r - Z.of_nat a + Z.of_nat (a + S b)) with (r + Z.of_nat b + 1)
        by lia.
    + intros k Hk. destruct (decide (k = r)) as [->|Hne].
      * rewrite Hsq. by apply tile_slot_not_dot.
      * rewrite Hlaid by done.
        destruct (decide (k < r)); [apply Hup|apply Hdown]; lia.
  - rewrite word_across_app. simpl.
    replace (r - Z.of_nat a + Z.of_nat a) with r by lia.
    unfold transpose at 2. rewrite Hsq.
    rewrite (word_across_ext (transpose tiles)
               (transpose (lay_on tiles across_move)) c a).
    2:{ intros k Hk. unfold transpose. apply Hlaid. lia. }
    rewrite (word_across_ext (transpose tiles)
               (transpose (lay_on tiles across_move)) c b).
    2:{ intros k Hk. unfold transpose. apply Hlaid. lia. }
    done.
Qed.

Lemma complete_legal cr cc r c0 cl :
  1 <= r ->
  spelling board r c0 cl -> shape board r cl -> lawful board rack r c0 cl ->
  complete_move board cl = true ->
  call_move cl <> [] ->
  tiles_of board r (c0 - 1) = dot ->
  joined (tiles_of board) cr cc r c0
    (Z.to_nat (col (call_square cl) - c0)) (call_move cl) ->
  legal_across (tiles_of board) cr cc rack (call_move cl).
Proof.
  intros Hr (Hwf & Hrow & Hc0 & Hall & Hwalk) (_ & Hempty & Hinc & _)
    (Hslot & Hsum & Hpos & Hcc & Hfill) Hcomplete Hne Hleft Hjoin.
  unfold complete_move, square_of in Hcomplete. rewrite Hrow in Hcomplete.
  apply andb_true_iff in Hcomplete as [Hcomplete _].
  apply andb_true_iff in Hcomplete as [Hcomplete Hterm].
  apply andb_true_iff in Hcomplete as [_ Hdot]. apply is_dot_true in Hdot.
  set (c := col (call_square cl)) in *. set (mv := call_move cl) in *.
  set (n := Z.to_nat (c - c0)) in *.
  assert (Hrows : Forall (fun sq => row sq = r) mv).
  { eapply Forall_impl; [exact Hall|]. by intros s [? _]. }
  assert (Hnd : NoDup (map col mv)) by by apply cols_increase_NoDup.
  assert (Hsquares : Forall (fun sq => playable r (col sq) /\
                                       tiles_of board r (col sq) = dot) mv).
  { eapply Forall_impl; [exact Hempty|]. simpl. intros s (_ & Hh & Hty).
    rewrite holds_tile_bordered in Hh by done.
    apply negb_false_iff, is_dot_true in Hh. split; [|done].
    destruct (playable_dec r (col s)) as [|Hp]; [done|].
    destruct (board_bordered r (col s)) as [_ Hout].
    destruct (Hout Hp) as [Ho _]. by rewrite Ho in Hty. }
  exists r, c0, n. split; [done|]. split; [|split; [done|split; [|split; [|split; [|split]]]]].
  - apply Forall_lookup. intros i s Hs.
    rewrite Forall_lookup in Hall, Hsquares.
    destruct (Hall i s Hs) as [? ?]. destruct (Hsquares i s Hs) as [? ?].
    split; [done|]. split; [done|]. split; [done|]. unfold n. lia.
  - split; [done|]. intros i Hi. specialize (Hsum i). specialize (Hpos i Hi). lia.
  - unfold run_across. split; [|split].
    + rewrite lay_on_none; [done|].
      eapply Forall_impl; [exact Hall|]. simpl. intros s [_ ?]. lia.
    + replace (c0 + Z.of_nat n) with c by (unfold n; lia).
      rewrite lay_on_none; [done|].
      eapply Forall_impl; [exact Hall|]. simpl. intros s [_ ?]. lia.
    + intros k Hk. apply Hfill. unfold n in Hk. lia.
  - rewrite word_across_letters_between by done.
    apply (global_trie_root_spec (letters_between board mv r n c0)).
    unfold stores. fold n in Hwalk. by rewrite Hwalk.
  - intros sq Hin Hnext.
    rewrite Forall_forall in Hsquares, Hslot, Hcc.
    apply list_elem_of_In in Hin as Hin'.
    destruct (Hsquares sq Hin') as [Hp Hd].
    by apply cross_word_legal; [..|apply Hslot|apply Hcc|].
  - done.
Qed.

End Complete.

(** *** Joined to the tiles of the board *)

Lemma lay_on_cases tiles across_move r c :
  lay_on tiles across_move r c = tiles r c \/
  exists sq, In sq across_move /\ row sq = r /\ col sq = c.
Proof.
  unfold lay_on. destruct (List.find _ across_move) as [sq|] eqn:E; [|by left].
  right. apply find_some in E as [Hin [Hr Hc]%andb_true_iff].
  exists sq. split; [done|]. split; lia.
Qed.

Lemma reaches_joined board cr cc r c0 m c across_move :
  reaches board r c0 m ->
  m <= Z.of_nat (length across_move) ->
  cols_increase across_move -> c0 <= c ->
  Forall (fun sq => row sq = r /\ c0 <= col sq < c) across_move ->
  (forall k, c0 <= k < c -> lay_on (tiles_of board) across_move r k <> dot) ->
  tiles_of board r c = dot ->
  joined (tiles_of board) cr cc r c0 (Z.to_nat (c - c0)) across_move.
Proof.
  intros (Hm & _ & _ & Hnext) Hlen Hinc Hc Hall Hfill Hend.
  assert (Hshort : Z.of_nat (length across_move) <= c - c0).
  { apply cols_increase_length; [done|done|].
    eapply Forall_impl; [exact Hall|]. by intros s [_ ?]. }
  set (a := c0 + m - 1) in *.
  assert (Ha : c0 <= a < c) by (unfold a; lia).
  unfold next_to_tile in Hnext. rewrite !occupied_tiles in Hnext.
  assert (Htile : forall r' c', negb (is_dot (tiles_of board r' c')) = true ->
                                tiles_of board r' c' <> dot).
  { intros r' c' H. by apply is_dot_false, negb_true_iff. }
  split.
  - intros _.
    destruct (is_dot (tiles_of board r a)) eqn:Hon.
    + apply is_dot_true in Hon.
      destruct (lay_on_cases (tiles_of board) across_move r a)
        as [Heq|(sq & Hin & Hr & Hcol)].
      { exfalso. apply (Hfill a Ha). by rewrite Heq. }
      simpl in Hnext. rewrite orb_false_r in Hnext.
      apply orb_true_iff in Hnext as [Hnext|Hright].
      * right. exists sq. split; [done|]. rewrite Hcol.
        apply orb_true_iff in Hnext as [H|H]; [left|right]; by apply Htile.
      * left. exists (a + 1). apply Htile in Hright. split; [|done].
        destruct (decide (a + 1 = c)) as [He|]; [|lia].
        by rewrite He in Hright.
    + left. exists a. split; [lia|]. by apply is_dot_false.
  - intros Hnone. exfalso.
    rewrite !Hnone in Hnext. by vm_compute in Hnext.
Qed.

Lemma centre_joined board c0 m c across_move :
  (forall r' c', tiles_of board r' c' = dot) ->
  2 <= m -> mid_col - c0 + 1 <= m -> c0 <= mid_col ->
  m <= Z.of_nat (length across_move) ->
  cols_increase across_move -> c0 <= c ->
  Forall (fun sq => row sq = mid_row /\ c0 <= col sq < c) across_move ->
  joined (tiles_of board) mid_row mid_col mid_row c0 (Z.to_nat (c - c0))
    across_move.
Proof.
  intros Hnone Hm Hmid Hc0 Hlen Hinc Hc Hall.
  assert (Hshort : Z.of_nat (length across_move) <= c - c0).
  { apply cols_increase_length; [done|done|].
    eapply Forall_impl; [exact Hall|]. by intros s [_ ?]. }
  split.
  - intros (r' & c' & H). by rewrite Hnone in H.
  - intros _. split; [done|]. split; lia.
Qed.

(** *** Legal moves depend on the tiles only *)

Lemma lay_on_ext tiles tiles' across_move r c :
  (forall r c, tiles r c = tiles' r c) ->
  lay_on tiles across_move r c = lay_on tiles' across_move r c.
Proof. intros H. unfold lay_on. by destruct (List.find _ _). Qed.

Lemma run_across_ext tiles tiles' r c n :
  (forall r c, tiles r c = tiles' r c) ->
  run_across tiles r c n -> run_across tiles' r c n.
Proof.
  intros H (H1 & H2 & H3). unfold run_across. rewrite <- !H.
  split; [done|]. split; [done|]. intros k Hk. rewrite <- H. by apply H3.
Qed.

Lemma legal_across_ext `{G : Globals} tiles tiles' cr cc rack across_move :
  (forall r c, tiles r c = tiles' r c) ->
  legal_across tiles cr cc rack across_move ->
  legal_across tiles' cr cc rack across_move.
Proof.
  intros H (r & c & n & Hne & Hall & Hnd & Hrack & Hrun & Hword & Hcross & Hj).
  assert (Hlay : forall r c, lay_on tiles across_move r c
                             = lay_on tiles' across_move r c).
  { intros r0 c0. by apply lay_on_ext. }
  exists r, c, n. split; [done|]. split; [|split; [done|split; [done|split; [|split; [|split]]]]].
  - eapply Forall_impl; [exact Hall|]. simpl. intros s. by rewrite H.
  - by apply (run_across_ext (lay_on tiles across_move)).
  - rewrite (word_across_ext (lay_on tiles across_move)); [done|].
    intros k _. by rewrite Hlay.
  - intros sq Hin Hnext. rewrite <- !H in Hnext.
    destruct (Hcross sq Hin Hnext) as (r0 & m & Hr0 & Hrun' & Hword').
    exists r0, m. split; [done|]. split.
    + apply (run_across_ext (transpose (lay_on tiles across_move))); [|done].
      intros r1 c1. unfold transpose. apply Hlay.
    + rewrite (word_across_ext (transpose (lay_on tiles across_move))); [done|].
      intros k _. unfold transpose. by rewrite Hlay.
  - destruct Hj as [Hj1 Hj2]. split.
    + intros (r' & c' & Ht). rewrite <- H in Ht.
      destruct (Hj1 (ex_intro _ r' (ex_intro _ c' Ht)))
        as [(k & Hk & Hk')|(sq & Hin & Hsq)].
      * left. exists k. by rewrite <- H.
      * right. exists sq. by rewrite <- !H.
    + intros Hnone. apply Hj2. intros r' c'. by rewrite H.
Qed.

(** *** The calls made from one square *)

Section Anchored.
Context {G : Globals}.
Variable board : list (list Square).
Variable rack : list Z.
Hypothesis board_coords : coords_ok board.
Hypothesis board_bordered : bordered board.
Hypothesis board_sets : cross_checks_sound board.

Lemma callees_min cl c' : c' ∈ callees board cl -> call_min c' = call_min cl.
Proof.
  unfold callees. destruct (SquareType_eqb _ outside); [by intros ?%elem_of_nil|].
  destruct (is_dot _); [apply subcalls_min|].
  destruct (negb _); [|by intros ?%elem_of_nil].
  by intros ->%list_elem_of_singleton.
Qed.

Lemma callees_anchored r c m cl c' :
  anchored board rack r c m cl -> c' ∈ callees board cl ->
  anchored board rack r c m c'.
Proof.
  intros [Hmin Hpre] Hc'. split; [by rewrite (callees_min cl)|].
  intros Hin'. split; [|split].
  - apply (callees_spelling board r c cl c'); try done.
    intros Hin. by destruct (Hpre Hin).
  - apply (callees_shape board r cl c'); try done.
    intros Hin. by destruct (Hpre Hin) as (_ & ? & _).
  - apply (callees_lawful board rack r c cl c'); try done.
    intros Hin. by destruct (Hpre Hin) as (? & _ & ?).
Qed.

Lemma playable_in_board r c : playable r c -> in_board board r c.
Proof.
  intros Hp. apply not_outside_in_board.
  destruct (board_bordered r c) as [Hin _]. specialize (Hin Hp).
  by destruct (type (board_at board r c)).
Qed.

Lemma anchored_first r c m :
  playable r c -> anchored board rack r c m
    (mkCall rack global_trie_root (board_at board r c) m []).
Proof.
  intros Hp. split; [done|]. intros _. simpl.
  destruct (board_coords r c (playable_in_board r c Hp)) as [Hr Hc].
  split; [|split].
  - unfold spelling. simpl. rewrite Hr, Hc, Z.sub_diag. simpl.
    split; [apply (global_trie_root_spec EmptyString)|].
    split; [done|]. split; [lia|]. split; [constructor|done].
  - unfold shape. simpl. split; [done|].
    split; [constructor|]. split; [apply cols_increase_nil|constructor].
  - unfold lawful. simpl. split; [constructor|].
    split; [intros i; change (tiles_from i []) with 0%nat; lia|].
    split; [intros i Hi; change (tiles_from i []) with 0%nat in Hi; lia|].
    split; [constructor|]. intros k Hk. rewrite Hc in Hk. lia.
Qed.

Lemma anchored_complete cr cc r c m cl :
  playable r c -> 1 <= m <= NUM_RACK_TILES ->
  tiles_of board r (c - 1) = dot ->
  (forall ce across_move,
     c <= ce -> m <= Z.of_nat (length across_move) ->
     cols_increase across_move ->
     Forall (fun sq => row sq = r /\ c <= col sq < ce) across_move ->
     (forall k, c <= k < ce ->
        lay_on (tiles_of board) across_move r k <> dot) ->
     tiles_of board r ce = dot ->
     joined (tiles_of board) cr cc r c (Z.to_nat (ce - c)) across_move) ->
  anchored board rack r c m cl -> complete_move board cl = true ->
  legal_across (tiles_of board) cr cc rack (call_move cl).
Proof.
  intros Hp Hm Hleft Hjoin [Hmin Hpre] Hcomplete.
  pose proof Hcomplete as Hc. unfold complete_move, square_of in Hc.
  apply andb_true_iff in Hc as [Hc Hlong].
  apply andb_true_iff in Hc as [Hc _].
  apply andb_true_iff in Hc as [Hout Hdot].
  apply negb_true_iff, not_outside_in_board in Hout.
  destruct (Hpre Hout) as (Hsp & Hsh & Hlaw).
  rewrite Hmin in Hlong. unfold long_enough, NUM_RACK_TILES in *.
  rewrite Z.mod_small in Hlong by lia. apply Z.leb_le in Hlong.
  destruct Hp as [Hr Hcol].
  apply (complete_legal board rack board_bordered board_sets cr cc r c cl);
    try done.
  - lia.
  - intros Hnil. rewrite Hnil in Hlong. simpl in Hlong. lia.
  - destruct Hsp as (_ & Hrow & Hc0 & Hall & _).
    destruct Hsh as (_ & _ & Hinc & _).
    destruct Hlaw as (_ & _ & _ & _ & Hfill).
    apply Hjoin; try done.
    apply is_dot_true in Hdot. by rewrite Hrow in Hdot.
Qed.

Lemma anchored_call_legal cr cc r c m fuel st st' :
  playable r c -> 1 <= m <= NUM_RACK_TILES ->
  tiles_of board r (c - 1) = dot ->
  (forall ce across_move,
     c <= ce -> m <= Z.of_nat (length across_move) ->
     cols_increase across_move ->
     Forall (fun sq => row sq = r /\ c <= col sq < ce) across_move ->
     (forall k, c <= k < ce ->
        lay_on (tiles_of board) across_move r k <> dot) ->
     tiles_of board r ce = dot ->
     joined (tiles_of board) cr cc r c (Z.to_nat (ce - c)) across_move) ->
  calls_legal board (tiles_of board) cr cc rack (calls st) ->
  extend_right fuel board rack global_trie_root (board_at board r c) m [] st
  = Some st' ->
  calls_legal board (tiles_of board) cr cc rack (calls st').
Proof.
  intros Hp Hm Hleft Hjoin Hst Hrun.
  change (extend_right fuel board rack global_trie_root (board_at board r c) m [] st)
    with (run_call fuel board st
            (mkCall rack global_trie_root (board_at board r c) m [])) in Hrun.
  assert (Harr : forall cl s,
            anchored board rack r c m cl ->
            calls_legal board (tiles_of board) cr cc rack (calls s) ->
            calls_legal board (tiles_of board) cr cc rack
              (calls (arrive board cl s))).
  { intros cl s Hcl Hs. rewrite calls_arrive. apply Forall_app. split; [done|].
    constructor; [|done]. by apply (anchored_complete cr cc r c m). }
  exact (search_invariant board (anchored board rack r c m)
           (fun s => calls_legal board (tiles_of board) cr cc rack (calls s))
           (callees_anchored r c m) Harr fuel _ st st'
           (anchored_first r c m Hp) Hst Hrun).
Qed.

End Anchored.

(** *** Boards with their minimum lengths and cross-check sets up to date *)

Lemma length_update_min_across_word_length board :
  length (update_min_across_word_length board) = length board.
Proof.
  unfold update_min_across_word_length.
  apply (fold_left_keeps update_min_row (fun b => length b = length board));
    [|done].
  intros b r _ <-. unfold update_min_row.
  apply (fold_left_keeps (min_length_step r)
           (fun st => length st.1 = length b)); [|done].
  intros [b0 m] c _ <-. unfold min_length_step.
  repeat case_match; simpl; apply length_board_alter.
Qed.

Lemma update_min_same_squares board :
  same_squares board (update_min_across_word_length board).
Proof.
  split; [|split; [|split]].
  - intros r c. by rewrite (update_min_across_word_length_proj letter).
  - intros r c. by rewrite (update_min_across_word_length_proj type).
  - apply length_update_min_across_word_length.
  - apply update_min_across_word_length_same_tiles.
Qed.

Lemma update_min_coords_ok board :
  coords_ok board -> coords_ok (update_min_across_word_length board).
Proof.
  intros Hok r c Hin.
  apply (proj2 (update_min_across_word_length_same_tiles board)) in Hin.
  rewrite (update_min_across_word_length_proj row),
    (update_min_across_word_length_proj col) by done.
  by apply Hok.
Qed.

Lemma update_min_bordered board :
  bordered board -> bordered (update_min_across_word_length board).
Proof.
  intros Hb r c.
  rewrite (update_min_across_word_length_proj type),
    (update_min_across_word_length_proj letter) by done.
  apply Hb.
Qed.

Lemma update_down_cross_checks_coords_ok `{G : Globals} board :
  coords_ok board -> coords_ok (update_down_cross_checks board).
Proof.
  intros Hok r c Hin.
  apply (proj1 (update_down_cross_checks_in_board _ _ _)) in Hin.
  rewrite (update_down_cross_checks_proj row),
    (update_down_cross_checks_proj col) by done.
  by apply Hok.
Qed.

Lemma update_down_cross_checks_bordered `{G : Globals} board :
  bordered board -> bordered (update_down_cross_checks board).
Proof.
  intros Hb r c.
  rewrite (update_down_cross_checks_proj type),
    (update_down_cross_checks_proj letter) by done.
  apply Hb.
Qed.

Lemma update_min_cross_checks_sound `{G : Globals} board :
  cross_checks_sound board ->
  cross_checks_sound (update_min_across_word_length board).
Proof.
  intros Hs r c k Hp.
  destruct (fragments_same _ _ r c (update_min_same_squares board)) as [-> ->].
  rewrite (update_min_across_word_length_proj letter),
    (update_min_across_word_length_proj down_cross_check) by done.
  by apply Hs.
Qed.

Lemma reaches_same_tiles board0 board r c m :
  same_tiles board0 board -> reaches board0 r c m -> reaches board r c m.
Proof.
  intros [Ho _] (H1 & H2 & H3 & H4). unfold reaches, next_to_tile in *.
  split; [done|]. split; [done|]. split.
  - intros k Hk. rewrite !Ho. by apply H3.
  - by rewrite !Ho.
Qed.

(** The squares from which [find_best_across_move] starts, on a board
    whose minimum lengths are up to date. *)
Lemma update_min_start board r c :
  playable r c -> in_board board r c ->
  let board' := update_min_across_word_length board in
  let m := min_across_word_length (board_at board' r c) in
  worth_trying m = true ->
  1 <= m <= NUM_RACK_TILES /\ tiles_of board' r (c - 1) = dot /\
  reaches board' r c m.
Proof.
  intros Hp Hin board' m Hw.
  pose proof (update_min_across_word_length_same_tiles board) as Hsame.
  destruct (update_min_reaches board r c Hp Hin) as [Hv|[Hleft Hreach]];
    fold board' in Hv || fold board' in Hreach.
  - unfold worth_trying in Hw. fold m in Hv. rewrite Hv in Hw.
    by rewrite andb_false_r in Hw.
  - fold m in Hreach. unfold worth_trying in Hw.
    apply andb_true_iff in Hw as [Hle _]. apply Z.leb_le in Hle.
    split; [destruct Hreach; lia|]. split.
    + destruct Hsame as [Ho _]. rewrite <- Ho in Hleft.
      rewrite occupied_tiles in Hleft.
      by apply negb_false_iff, is_dot_true in Hleft.
    + by apply (reaches_same_tiles board).
Qed.

Section Across.
Context {G : Globals}.

(** Every complete move that the across search reaches on such a board is
    a legal move. *)
Lemma across_search_legal board rack cr cc fuel s :
  coords_ok board -> bordered board -> cross_checks_sound board ->
  let board' := update_min_across_word_length board in
  across_search fuel board' rack = Some s ->
  calls_legal board' (tiles_of board') cr cc rack (calls s).
Proof.
  intros Hok Hb Hs board'.
  pose proof (update_min_coords_ok _ Hok) as Hok'.
  pose proof (update_min_bordered _ Hb) as Hb'.
  pose proof (update_min_cross_checks_sound _ Hs) as Hs'.
  fold board' in Hok', Hb', Hs'.
  unfold across_search.
  apply (fold_opt_inv _
           (fun s => calls_legal board' (tiles_of board') cr cc rack (calls s)));
    [|constructor].
  intros st [r c] st' Hin%elem_of_board_cells Hst.
  destruct (worth_trying _) eqn:Hw; [|by intros [= <-]].
  destruct (update_min_start board r c Hin) as (Hm & Hleft & Hreach);
    [by apply playable_in_board|exact Hw|].
  fold board' in Hm, Hleft, Hreach.
  apply (anchored_call_legal board' rack Hok' Hb' Hs' cr cc r c); try done.
  intros ce mv Hce Hlen Hinc Hall Hfill Hend.
  by apply (reaches_joined board' cr cc r c
              (min_across_word_length (board_at board' r c))).
Qed.

End Across.

(** *** The down search and the search of the first move *)

Lemma swap_squares_bordered board :
  bordered board -> bordered (swap_squares board).
Proof.
  intros Hb r c. split.
  - intros Hp. rewrite swap_squares_playable; [|done|by apply playable_in_board].
    simpl. apply Hb. by apply playable_swap.
  - intros Hp. rewrite swap_squares_border by done. by apply Hb.
Qed.

Lemma calls_legal_same `{G : Globals} board1 board2 tiles1 tiles2 cr cc rack l :
  (forall cl, complete_move board2 cl = complete_move board1 cl) ->
  (forall r c, tiles1 r c = tiles2 r c) ->
  calls_legal board1 tiles1 cr cc rack l ->
  calls_legal board2 tiles2 cr cc rack l.
Proof.
  intros Hc Ht H. eapply Forall_impl; [exact H|]. simpl.
  intros cl Hcl Hcomplete. rewrite Hc in Hcomplete.
  by apply (legal_across_ext tiles1), Hcl.
Qed.

Lemma no_tiles board :
  bordered board -> has_tile board = false ->
  forall r c, tiles_of board r c = dot.
Proof.
  intros Hb Hnone r c. destruct (playable_dec r c) as [Hp|Hp].
  - destruct (is_dot (tiles_of board r c)) eqn:Hdot; [by apply is_dot_true|].
    assert (has_tile board = true); [|congruence].
    apply has_tile_true. exists r, c. split; [done|].
    by rewrite occupied_tiles, Hdot.
  - by destruct (Hb r c) as [_ Hout], (Hout Hp).
Qed.

Section Searches.
Context {G : Globals}.

Lemma cross_checks_sound_no_tiles board :
  bordered board -> (forall r c, tiles_of board r c = dot) ->
  cross_checks_sound board.
Proof.
  intros Hb Hnone r c k [[Hr _] _] _ Hfrag. exfalso.
  destruct (fragments_run board (tiles_of board) Hb (fun _ _ => eq_refl) r c)
    as (a & b & Ha & Hb' & Hup & Hdown & _); [lia|].
  destruct a as [|a].
  - destruct b as [|b]; [by rewrite Ha, Hb' in Hfrag|].
    apply (Hdown (r + 1)); [lia|apply Hnone].
  - apply (Hup (r - 1)); [lia|apply Hnone].
Qed.

Lemma invert_board_tiles board r c :
  bordered board ->
  tiles_of (invert_board board) r c = transpose (tiles_of board) r c.
Proof.
  intros Hb. unfold tiles_of, transpose.
  rewrite (invert_board_proj letter) by done.
  destruct (playable_dec r c) as [Hp|Hp].
  - rewrite swap_squares_playable; [done|done|by apply playable_in_board].
  - rewrite swap_squares_border by done.
    destruct (Hb r c) as [_ Hout]. destruct (Hout Hp) as [_ ->].
    destruct (Hb c r) as [_ Hout']. destruct Hout' as [_ ->]; [|done].
    intros Hp'. by apply Hp, playable_swap.
Qed.

Lemma invert_board_eq board :
  invert_board board
  = update_min_across_word_length
      (update_down_cross_checks (swap_squares board)).
Proof. reflexivity. Qed.

Lemma down_search_legal board rack fuel s :
  coords_ok board -> bordered board ->
  across_search fuel (invert_board board) rack = Some s ->
  calls_legal (invert_board board) (transpose (tiles_of board))
    mid_col mid_row rack (calls s).
Proof.
  intros Hok Hb Hrun.
  assert (H : calls_legal (invert_board board) (tiles_of (invert_board board))
                mid_col mid_row rack (calls s)).
  { revert Hrun. rewrite invert_board_eq.
    apply (across_search_legal (update_down_cross_checks (swap_squares board))).
    - by apply update_down_cross_checks_coords_ok, swap_squares_coords_ok.
    - by apply update_down_cross_checks_bordered, swap_squares_bordered.
    - apply update_down_cross_checks_sound. }
  revert H. apply calls_legal_same; [done|].
  intros r c. by apply invert_board_tiles.
Qed.

Lemma opening_step_legal board rack fuel bs c bs' :
  coords_ok board -> bordered board ->
  (forall r c, tiles_of board r c = dot) ->
  c ∈ seqZ 1 mid_col ->
  ((forall r c, in_board bs.1 r c <-> in_board board r c) /\
   (forall r c, type (board_at bs.1 r c) = type (board_at board r c)) /\
   (forall r c, letter (board_at bs.1 r c) = letter (board_at board r c)) /\
   (forall r c, row (board_at bs.1 r c) = row (board_at board r c)) /\
   (forall r c, col (board_at bs.1 r c) = col (board_at board r c))) /\
  calls_legal board (tiles_of board) mid_row mid_col rack (calls bs.2) ->
  opening_step fuel rack bs c = Some bs' ->
  ((forall r c, in_board bs'.1 r c <-> in_board board r c) /\
   (forall r c, type (board_at bs'.1 r c) = type (board_at board r c)) /\
   (forall r c, letter (board_at bs'.1 r c) = letter (board_at board r c)) /\
   (forall r c, row (board_at bs'.1 r c) = row (board_at board r c)) /\
   (forall r c, col (board_at bs'.1 r c) = col (board_at board r c))) /\
  calls_legal board (tiles_of board) mid_row mid_col rack (calls bs'.2).
Proof.
  destruct bs as [b st], bs' as [b' st']. simpl.
  intros Hok Hb Hnone Hc [(Hi & Hty & Hl & Hr & Hcol) Hlegal].
  apply elem_of_seqZ in Hc.
  set (b1 := opening_assign b c).
  assert (Hi1 : forall r c, in_board b1 r c <-> in_board board r c).
  { intros r0 c0. unfold b1. by rewrite opening_assign_in_board. }
  assert (Hty1 : forall r c, type (board_at b1 r c) = type (board_at board r c)).
  { intros r0 c0. unfold b1. by rewrite (opening_assign_proj type). }
  assert (Hl1 : forall r c, letter (board_at b1 r c) = letter (board_at board r c)).
  { intros r0 c0. unfold b1. by rewrite (opening_assign_proj letter). }
  assert (Hr1 : forall r c, row (board_at b1 r c) = row (board_at board r c)).
  { intros r0 c0. unfold b1. by rewrite (opening_assign_proj row). }
  assert (Hc1 : forall r c, col (board_at b1 r c) = col (board_at board r c)).
  { intros r0 c0. unfold b1. by rewrite (opening_assign_proj col). }
  assert (Hok1 : coords_ok b1).
  { intros r0 c0 Hin. rewrite Hr1, Hc1. by apply Hok, Hi1. }
  assert (Hb1 : bordered b1).
  { intros r0 c0. rewrite Hty1, Hl1. apply Hb. }
  assert (Hnone1 : forall r c, tiles_of b1 r c = dot).
  { intros r0 c0. unfold tiles_of. rewrite Hl1. apply Hnone. }
  assert (Hp : playable mid_row c).
  { rewrite mid_row_eq. rewrite mid_col_eq in Hc.
    unfold playable, NUM_BOARD_ROWS, NUM_BOARD_COLS. lia. }
  assert (Hmin : min_across_word_length (board_at b1 mid_row c)
                 = if c =? mid_col then 2 else mid_col - c + 1).
  { apply opening_assign_min, Hi. by apply playable_in_board. }
  unfold opening_step. fold b1. rewrite Hmin.
  destruct (worth_trying _) eqn:Hw; [|by intros [= <- <-]].
  destruct (extend_right _ _ _ _ _ _ _ _) as [st1|] eqn:Hrun; [|done].
  intros [= <- <-]. split; [done|].
  apply (calls_legal_same b1 board (tiles_of b1)).
  { intros cl. symmetry. by apply complete_move_opening. }
  { intros r0 c0. unfold tiles_of. by rewrite Hl1. }
  unfold worth_trying, NUM_RACK_TILES in Hw.
  apply andb_true_iff in Hw as [Hle _]. apply Z.leb_le in Hle.
  pose proof mid_col_eq as Hmid.
  set (m := if c =? mid_col then 2 else mid_col - c + 1) in *.
  assert (Hm : 2 <= m <= 7 /\ mid_col - c + 1 <= m).
  { unfold m in *. destruct (Z.eqb_spec c mid_col); lia. }
  apply (anchored_call_legal b1 rack Hok1 Hb1
           (cross_checks_sound_no_tiles b1 Hb1 Hnone1)
           mid_row mid_col mid_row c m fuel st st1); try done.
  - unfold NUM_RACK_TILES. lia.
  - intros ce mv Hce Hlen Hinc Hall Hfill Hend.
    apply (centre_joined b1 c m); try done; lia.
  - apply (calls_legal_same board b1 (tiles_of board)); [| |done].
    + intros cl. by apply complete_move_opening.
    + intros r0 c0. unfold tiles_of. by rewrite Hl1.
Qed.

Lemma opening_search_legal board rack fuel st s :
  coords_ok board -> bordered board -> has_tile board = false ->
  calls_legal board (tiles_of board) mid_row mid_col rack (calls st) ->
  opening_search fuel board rack st = Some s ->
  calls_legal board (tiles_of board) mid_row mid_col rack (calls s).
Proof.
  intros Hok Hb Hnone Hst. unfold opening_search.
  destruct (fold_opt _ _ _) as [[b' s']|] eqn:E; [|done]. intros [= <-].
  pose proof (no_tiles board Hb Hnone) as Hdot.
  eapply (fold_opt_inv (opening_step fuel rack)
            (fun bs =>
               ((forall r c, in_board bs.1 r c <-> in_board board r c) /\
                (forall r c, type (board_at bs.1 r c) = type (board_at board r c)) /\
                (forall r c, letter (board_at bs.1 r c) = letter (board_at board r c)) /\
                (forall r c, row (board_at bs.1 r c) = row (board_at board r c)) /\
                (forall r c, col (board_at bs.1 r c) = col (board_at board r c))) /\
               calls_legal board (tiles_of board) mid_row mid_col rack
                 (calls bs.2))) in E.
  - apply E.
  - intros a x a' Hx Ha Hstep. by apply (opening_step_legal board rack fuel a x a').
  - done.
Qed.

Lemma opening_search_returns fuel board w rack st :
  coords_ok board -> width_le board w -> (w < fuel)%nat ->
  is_Some (opening_search fuel board rack st).
Proof.
  intros Hok Hw Hfuel. unfold opening_search.
  assert (H : forall l bs, coords_ok bs.1 -> width_le bs.1 w ->
            is_Some (fold_opt (opening_step fuel rack) l bs)).
  { induction l as [|c l IH]; intros bs Hb1 Hb2; [by eexists|].
    rewrite fold_opt_cons.
    destruct (opening_step_returns fuel w rack bs c Hb1 Hb2 Hfuel)
      as (bs' & -> & Hb1' & Hb2').
    by apply IH. }
  destruct (H (seqZ 1 mid_col) (board, st) Hok Hw) as [bs ->]. by eexists.
Qed.

Lemma no_complete_call_legal board tiles cr cc rack o :
  is_Some o ->
  (forall s, o = Some s -> calls_legal board tiles cr cc rack (calls s)) ->
  (forall _move, ~ legal_across tiles cr cc rack _move) ->
  no_complete_call board o = true.
Proof.
  intros [s ->] Hlegal Hnone. simpl. apply forallb_forall. intros cl Hin.
  apply negb_true_iff. destruct (complete_move board cl) eqn:Hc; [|done].
  exfalso. apply (Hnone (call_move cl)).
  specialize (Hlegal s eq_refl). unfold calls_legal in Hlegal.
  rewrite Forall_forall in Hlegal. apply Hlegal; [|done].
  by apply list_elem_of_In.
Qed.

(** C7: on a board with its squares in their places, the border around
    them, and the cross-check sets and minimum lengths brought up to date
    as before every call of [find_best_move], if no legal move exists for
    the tiles of the board and the rack, then [find_best_move], begun with
    the empty move and 0 points, returns the empty move and 0 points; and
    the empty move scores 0. *)
Theorem no_legal_move_no_move fuel b w rack :
  coords_ok b -> bordered b -> width_le b w -> (w < fuel)%nat ->
  let board := update_min_across_word_length (update_down_cross_checks b) in
  (forall _move, ~ legal_move (tiles_of board) rack _move) ->
  (exists s, find_best_move fuel board rack (mkSearch [] 0 []) = Some s /\
             best_move s = [] /\ best_pts s = 0) /\
  calc_across_pts board [] = 0.
Proof.
  intros Hok0 Hb0 Hw0 Hfuel board Hnone. unfold board in *. clear board.
  set (board := update_min_across_word_length (update_down_cross_checks b))
    in *.
  assert (Hok : coords_ok board).
  { by apply update_min_coords_ok, update_down_cross_checks_coords_ok. }
  assert (Hb : bordered board).
  { by apply update_min_bordered, update_down_cross_checks_bordered. }
  assert (Hw : width_le board w).
  { apply width_le_in_board. intros r c Hin.
    destruct (update_min_across_word_length_same_tiles
                (update_down_cross_checks b)) as [_ Hi].
    apply (proj1 (Hi r c)) in Hin.
    apply (proj1 (update_down_cross_checks_in_board b r c)) in Hin.
    by apply (proj1 (width_le_in_board b w) Hw0 r c). }
  apply no_complete_search_no_move. unfold no_complete_search.
  destruct (has_tile board) eqn:Htile.
  - apply andb_true_iff. split.
    + apply (no_complete_call_legal board (tiles_of board) mid_row mid_col rack).
      * by apply (across_search_returns fuel board w).
      * intros s. unfold board.
        apply (across_search_legal (update_down_cross_checks b)).
        -- by apply update_down_cross_checks_coords_ok.
        -- by apply update_down_cross_checks_bordered.
        -- apply update_down_cross_checks_sound.
      * intros mv Hmv. apply (Hnone mv). by left.
    + apply (no_complete_call_legal (invert_board board)
               (transpose (tiles_of board)) mid_col mid_row rack).
      * apply (across_search_returns fuel (invert_board board) w); [| |done].
        -- by apply invert_board_coords_ok.
        -- by apply invert_board_width_le.
      * intros s Hs. by apply (down_search_legal board rack fuel).
      * intros mv Hmv. apply (Hnone (invert_move mv)). right.
        by rewrite invert_move_twice.
  - apply (no_complete_call_legal board (tiles_of board) mid_row mid_col rack).
    + by apply (opening_search_returns fuel board w).
    + intros s Hs.
      apply (opening_search_legal board rack fuel (mkSearch [] 0 []));
        try done. constructor.
    + intros mv Hmv. apply (Hnone mv). by left.
Qed.

End Searches.

(** *** A check of the border that runs *)

Lemma playableb_true r c : playableb r c = true <-> playable r c.
Proof.
  unfold playableb, playable. rewrite !andb_true_iff, !Z.leb_le. tauto.
Qed.

Lemma row_borderedb_lookup i rw : forall j (m : nat) sq,
  row_borderedb i j rw = true -> rw !! m = Some sq ->
  ~ playable i (j + Z.of_nat m) ->
  type sq = outside /\ letter sq = dot.
Proof.
  induction rw as [|s rw IH]; intros j m sq Hok Hm Hp; [done|].
  simpl in Hok. apply andb_true_iff in Hok as [Hs Hrest].
  destruct m as [|m].
  - injection Hm as ->. rewrite Z.add_0_r in Hp.
    apply orb_true_iff in Hs as [Hs|Hs]; [by apply playableb_true in Hs|].
    apply andb_true_iff in Hs as [Hty Hl]. apply is_dot_true in Hl.
    split; [|done]. by destruct (type sq).
  - simpl in Hm. apply (IH (j + 1) m sq Hrest Hm).
    by replace (j + 1 + Z.of_nat m) with (j + Z.of_nat (S m)) by lia.
Qed.

Lemma rows_borderedb_lookup board : forall i (n : nat) rw,
  rows_borderedb i board = true -> board !! n = Some rw ->
  row_borderedb (i + Z.of_nat n) 0 rw = true.
Proof.
  induction board as [|r0 board IH]; intros i n rw Hok Hn; [done|].
  simpl in Hok. apply andb_true_iff in Hok as [H0 Hrest].
  destruct n as [|n].
  - injection Hn as <-. by rewrite Z.add_0_r.
  - simpl in Hn. replace (i + Z.of_nat (S n)) with (i + 1 + Z.of_nat n) by lia.
    by apply IH.
Qed.

Lemma borderedb_ok board : borderedb board = true -> bordered board.
Proof.
  intros [Hin Hout]%andb_true_iff r c. split.
  - intros Hp. rewrite forallb_forall in Hin.
    apply elem_of_board_cells, list_elem_of_In, Hin in Hp.
    apply negb_true_iff in Hp. intros He. by rewrite He in Hp.
  - intros Hp. destruct (board_at_cases board r c) as [Hrc|Hs]; [|by rewrite Hs].
    pose proof Hrc as (Hr & Hc & _).
    destruct (in_board_at _ _ _ Hrc) as (rw & Hrw & Hsq).
    pose proof (rows_borderedb_lookup _ _ _ _ Hout Hrw) as Hrow.
    apply (row_borderedb_lookup _ _ _ _ _ Hrow Hsq).
    by rewrite !Z.add_0_l, !Z2Nat.id by lia.
Qed.

(** *** What every legal move needs *)

Lemma word_across_get tiles r : forall (n k : nat) c,
  (k < n)%nat ->
  String.get k (word_across tiles r n c)
  = Some (toupper (tiles r (c + Z.of_nat k))).
Proof.
  induction n as [|n IH]; intros k c Hk; [lia|].
  destruct k as [|k]; simpl.
  - by rewrite Z.add_0_r.
  - rewrite IH by lia. do 3 f_equal. lia.
Qed.

(** A legal move lays a tile of the rack whose letter is a letter of a
    word of the lexicon. *)
Lemma legal_across_letter `{G : Globals} tiles cr cc rack across_move :
  legal_across tiles cr cc rack across_move ->
  exists sq i w k,
    In sq across_move /\ tile_slot (letter sq) = Some i /\
    0 < vec_at 0 rack i /\ In w global_words /\
    String.get k w = Some (toupper (letter sq)).
Proof.
  intros (r & c & n & Hne & Hall & Hnd & [Hslot Hrack] & _ & Hword & _).
  destruct across_move as [|sq mv]; [done|]. clear Hne.
  apply Forall_cons in Hslot as [[i Hi] _].
  exists sq, i, (word_across (lay_on tiles (sq :: mv)) r n c),
    (Z.to_nat (col sq - c)).
  split; [by left|]. split; [done|]. split; [|split; [done|]].
  - assert (Hused : (0 < tiles_from i (sq :: mv))%nat).
    { unfold tiles_from. rewrite filter_cons_True by done. simpl. lia. }
    specialize (Hrack i Hused). lia.
  - pose proof (Forall_inv Hall) as (Hr & _ & _ & Hc).
    rewrite word_across_get by lia.
    replace (c + Z.of_nat (Z.to_nat (col sq - c))) with (col sq) by lia.
    rewrite (lay_on_in tiles (sq :: mv) r sq); [done| |done|by left].
    eapply Forall_impl; [exact Hall|]. by intros s [? _].
Qed.

Lemma vec_at_positive (l : list Z) i :
  0 < vec_at 0 l i ->
  exists (n : nat) x, i = Z.of_nat n /\ l !! n = Some x /\ 0 < x.
Proof.
  unfold vec_at. destruct (Z.ltb_spec i 0); [lia|].
  destruct (l !! Z.to_nat i) as [x|] eqn:E; simpl; [|lia].
  intros Hx. exists (Z.to_nat i), x. split; [lia|done].
Qed.

Lemma tile_slot_letter ch i :
  tile_slot ch = Some i -> 0 <= i < 26 -> ch = char_of (65 + i).
Proof.
  unfold tile_slot. destruct (isupper ch).
  - intros [= <-] _. unfold letter_index.
    replace (65 + (code ch - 65)) with (code ch) by lia.
    by rewrite char_of_code.
  - destruct (islower ch); [|done]. intros [= <-]. lia.
Qed.

(** With two tiles Z and the words BAT, BA and AT there is no legal move,
    whatever the tiles on the board. *)
Lemma no_legal_move_with_zz tiles across_move :
  ~ @legal_move bat_game tiles (fill_rack "ZZ") across_move.
Proof.
  assert (H : forall t cr cc mv,
            ~ @legal_across bat_game t cr cc (fill_rack "ZZ") mv).
  { intros t cr cc mv Hlegal.
    apply (@legal_across_letter bat_game) in Hlegal
      as (sq & i & w & k & _ & Hslot & Hpos & Hw & Hk).
    apply vec_at_positive in Hpos as (n & x & -> & Hn & Hx).
    assert (n = 25%nat) as ->.
    { vm_compute in Hn.
      do 27 (destruct n as [|n]; [injection Hn as <-; try lia; done|]).
      by destruct n. }
    apply tile_slot_letter in Hslot; [|lia]. rewrite Hslot in Hk.
    simpl in Hw. destruct Hw as [<-|[<-|[<-|[]]]];
      do 4 (destruct k as [|k]; [by vm_compute in Hk|]); by vm_compute in Hk. }
  intros [Hl|Hl]; by apply H in Hl.
Qed.

Lemma no_legal_move_no_move_witness :
  (exists s,
     @find_best_move bat_game 18 bat_board (fill_rack "ZZ") (mkSearch [] 0 [])
     = Some s /\ best_move s = [] /\ best_pts s = 0) /\
  @calc_across_pts bat_game bat_board [] = 0.
Proof.
  apply (@no_legal_move_no_move bat_game 18 tile_at_centre 17 (fill_rack "ZZ")).
  - apply coords_okb_ok. vm_compute. reflexivity.
  - apply borderedb_ok. vm_compute. reflexivity.
  - apply width_leb_ok. vm_compute. reflexivity.
  - lia.
  - intros mv. apply no_legal_move_with_zz.
Defined.

(** ** The search: the move it returns is legal *)

Section Legal.
Context {G : Globals}.

Lemma arrive_best_is_complete board cl st :
  best_is_complete board st -> best_is_complete board (arrive board cl st).
Proof.
  intros Hst. unfold best_is_complete. rewrite calls_arrive.
  unfold arrive. destruct (complete_move board cl) eqn:Hc.
  - unfold record_move. destruct (_ >? _); simpl.
    + right. exists cl. split; [|done]. apply elem_of_app. right.
      by apply list_elem_of_singleton.
    + destruct Hst as [Hnil|(c0 & Hin & Hc0 & Hmv)]; [by left|right].
      exists c0. split; [|done]. apply elem_of_app. by left.
  - simpl. destruct Hst as [Hnil|(c0 & Hin & Hc0 & Hmv)]; [by left|right].
    exists c0. split; [|done]. apply elem_of_app. by left.
Qed.

Lemma run_call_best_is_complete fuel board cl st st' :
  best_is_complete board st -> run_call fuel board st cl = Some st' ->
  best_is_complete board st'.
Proof.
  intros Hst.
  apply (search_invariant board (fun _ => True) (best_is_complete board));
    [done| |done|done].
  intros c s _. apply arrive_best_is_complete.
Qed.

Lemma across_search_best_is_complete fuel board rack s :
  across_search fuel board rack = Some s -> best_is_complete board s.
Proof.
  unfold across_search.
  apply (fold_opt_inv _ (best_is_complete board)); [|by left].
  intros st [r c] st' _ Hst. destruct (worth_trying _); [|by intros [= <-]].
  by apply (run_call_best_is_complete fuel board
              (mkCall rack global_trie_root (board_at board r c)
                 (min_across_word_length (board_at board r c)) [])).
Qed.

Lemma opening_step_best_is_complete fuel board rack bs c bs' :
  ((forall r c, type (board_at bs.1 r c) = type (board_at board r c)) /\
   (forall r c, letter (board_at bs.1 r c) = letter (board_at board r c))) /\
  best_is_complete board bs.2 ->
  opening_step fuel rack bs c = Some bs' ->
  ((forall r c, type (board_at bs'.1 r c) = type (board_at board r c)) /\
   (forall r c, letter (board_at bs'.1 r c) = letter (board_at board r c))) /\
  best_is_complete board bs'.2.
Proof.
  destruct bs as [b1 s1], bs' as [b2 s2]. simpl. intros [[Hty Hl] Hs1].
  assert (Hty' : forall r c0, type (board_at (opening_assign b1 c) r c0)
                              = type (board_at board r c0)).
  { intros r c0. by rewrite (opening_assign_proj type). }
  assert (Hl' : forall r c0, letter (board_at (opening_assign b1 c) r c0)
                             = letter (board_at board r c0)).
  { intros r c0. by rewrite (opening_assign_proj letter). }
  assert (Hsame : forall s0, best_is_complete (opening_assign b1 c) s0 <->
                             best_is_complete board s0).
  { intros s0. unfold best_is_complete.
    split; intros [Hnil|(cl & Hin & Hc & Hmv)]; try by left.
    - right. exists cl. split; [done|]. split; [|done].
      by rewrite <- (complete_move_opening board (opening_assign b1 c) cl Hty' Hl').
    - right. exists cl. split; [done|]. split; [|done].
      by rewrite (complete_move_opening board (opening_assign b1 c) cl Hty' Hl'). }
  unfold opening_step. destruct (worth_trying _).
  - destruct (extend_right _ _ _ _ _ _ _ _) as [s3|] eqn:Hrun; [|done].
    intros ?; simplify_eq. split; [by split|]. apply Hsame.
    apply (run_call_best_is_complete fuel (opening_assign b1 c)
             (mkCall rack global_trie_root
                (board_at (opening_assign b1 c) mid_row c)
                (min_across_word_length
                   (board_at (opening_assign b1 c) mid_row c)) []) s1);
      [by apply Hsame|done].
  - intros ?; simplify_eq. by split.
Qed.

Lemma opening_search_best_is_complete fuel board rack st s :
  best_is_complete board st ->
  opening_search fuel board rack st = Some s -> best_is_complete board s.
Proof.
  intros Hst. unfold opening_search.
  destruct (fold_opt _ _ _) as [[b' s']|] eqn:E; [|done]. intros [= <-].
  eapply (fold_opt_inv (opening_step fuel rack)
            (fun bs =>
               ((forall r c, type (board_at bs.1 r c) = type (board_at board r c)) /\
                (forall r c, letter (board_at bs.1 r c) = letter (board_at board r c))) /\
               best_is_complete board bs.2)) in E.
  - apply E.
  - intros a x a' _. apply opening_step_best_is_complete.
  - by split.
Qed.

Lemma best_is_complete_legal board tiles cr cc rack s :
  best_is_complete board s -> calls_legal board tiles cr cc rack (calls s) ->
  best_move s = [] \/ legal_across tiles cr cc rack (best_move s).
Proof.
  intros [Hnil|(cl & Hin & Hc & Hmv)] Hlegal; [by left|right].
  unfold calls_legal in Hlegal. rewrite Forall_forall in Hlegal.
  rewrite <- Hmv. by apply Hlegal.
Qed.

Lemma invert_move_nil across_move :
  across_move = [] -> invert_move across_move = [].
Proof. by intros ->. Qed.

(** On a board with its squares in their places, the border around them,
    and the cross-check sets and minimum lengths up to date, the move that
    [find_best_move] returns is the empty move or a legal move for the
    tiles of the board and the rack. *)
Theorem find_best_move_legal fuel b rack s :
  coords_ok b -> bordered b ->
  let board := update_min_across_word_length (update_down_cross_checks b) in
  find_best_move fuel board rack (mkSearch [] 0 []) = Some s ->
  best_move s = [] \/ legal_move (tiles_of board) rack (best_move s).
Proof.
  intros Hok0 Hb0 board. unfold board. clear board.
  assert (Hok : coords_ok
                  (update_min_across_word_length (update_down_cross_checks b))).
  { by apply update_min_coords_ok, update_down_cross_checks_coords_ok. }
  assert (Hb : bordered
                 (update_min_across_word_length (update_down_cross_checks b))).
  { by apply update_min_bordered, update_down_cross_checks_bordered. }
  unfold find_best_move. destruct (has_tile _) eqn:Htile.
  - unfold find_best_down_move, find_best_across_move.
    destruct (across_search fuel (update_min_across_word_length _) rack)
      as [sa|] eqn:Ea; [|done].
    destruct (across_search fuel (invert_board _) rack) as [sd|] eqn:Ed;
      [|done].
    simpl. destruct (_ >? _); intros [= <-]; simpl.
    + destruct (best_is_complete_legal _ _ mid_row mid_col rack sa
                  (across_search_best_is_complete _ _ _ _ Ea)
                  (across_search_legal (update_down_cross_checks b) rack
                     mid_row mid_col fuel sa
                     (update_down_cross_checks_coords_ok _ Hok0)
                     (update_down_cross_checks_bordered _ Hb0)
                     (update_down_cross_checks_sound _) Ea)) as [Hnil|Hl].
      * by left.
      * right. by left.
    + destruct (best_is_complete_legal _ _ mid_col mid_row rack sd
                  (across_search_best_is_complete _ _ _ _ Ed)
                  (down_search_legal _ rack fuel sd Hok Hb Ed)) as [Hnil|Hl].
      * left. by apply invert_move_nil.
      * right. right. by rewrite invert_move_twice.
  - intros Hrun.
    assert (Hinit : best_is_complete
                      (update_min_across_word_length (update_down_cross_checks b))
                      (mkSearch [] 0 [])) by by left.
    destruct (best_is_complete_legal _ _ mid_row mid_col rack s
                (opening_search_best_is_complete _ _ _ _ _ Hinit Hrun)
                (opening_search_legal _ rack fuel (mkSearch [] 0 []) s
                   Hok Hb Htile (List.Forall_nil _) Hrun)) as [Hnil|Hl].
    + by left.
    + right. by left.
Qed.

End Legal.

Lemma find_best_move_legal_witness :
  exists s,
    @find_best_move bat_game 18 bat_board bat_rack (mkSearch [] 0 []) = Some s /\
    (best_move s = [] \/
     @legal_move bat_game (tiles_of bat_board) bat_rack (best_move s)).
Proof.
  destruct (@find_best_move bat_game 18 bat_board bat_rack (mkSearch [] 0 []))
    as [s|] eqn:E; [|vm_compute in E; discriminate].
  exists s. split; [reflexivity|].
  apply (@find_best_move_legal bat_game 18 tile_at_centre bat_rack s).
  - apply coords_okb_ok. vm_compute. reflexivity.
  - apply borderedb_ok. vm_compute. reflexivity.
  - exact E.
Defined.
